(** * Contact identity resolution: a shallow embedding and its properties

    The development follows the TypeScript services of the repository:

    - [ContactRepository] (the Prisma queries on the [Contact] table),
    - [ContactService] (chain creation, merge and consolidation),
    - [IdentityService] (the branch logic of [identifyContact]),
    - [ContactMatcher] (attribute matching and grouping).

    The database is a list of rows in insertion order together with the
    next value of the auto-increment sequence.  Every operation that the
    source performs with [await] on the repository is a function from a
    store to a result and a store. *)

From Stdlib Require Import ZArith List Bool Sorting.Sorted Permutation.
From stdpp Require Import base decidable option list strings gmap sorting pretty.

Open Scope string_scope.
Open Scope list_scope.
Open Scope Z_scope.

#[local] Set Warnings "-clear-no-such-hyp".

(** ** Data model (src/types/index.ts and the Prisma [Contact] model) *)

Inductive LinkPrecedence := PRIMARY | SECONDARY.

#[global] Instance LinkPrecedence_eq_dec : EqDecision LinkPrecedence.
Proof. solve_decision. Defined.

(** Modelled from the spec: the Prisma [Contact] model, whose schema file is
    not among the sources.  The columns are those of section 3 of the
    specification: ids come from an auto-increment sequence, [createdAt] is
    the time of the insertion, [updatedAt] the time of the last write and
    [deletedAt] the soft-delete marker. *)
Record Contact := mkContact {
  id : Z;
  phoneNumber : option string;
  email : option string;
  linkedId : option Z;
  linkPrecedence : LinkPrecedence;
  createdAt : Z;
  updatedAt : Z;
  deletedAt : option Z
}.

#[global] Instance Contact_eq_dec : EqDecision Contact.
Proof. solve_decision. Defined.

Record CreateContactInput := mkCreate {
  c_phoneNumber : option string;
  c_email : option string;
  c_linkedId : option Z;
  c_linkPrecedence : LinkPrecedence
}.

(** An absent field of [UpdateContactInput] is [None]: Prisma leaves the
    column as it is. *)
Record UpdateContactInput := mkUpdate {
  u_phoneNumber : option (option string);
  u_email : option (option string);
  u_linkedId : option (option Z);
  u_linkPrecedence : option LinkPrecedence
}.

Record ConsolidatedContact := mkConsolidated {
  primaryContactId : Z;
  emails : list string;
  phoneNumbers : list string;
  secondaryContactIds : list Z
}.

Record IdentifyResponse := mkResponse { contact : ConsolidatedContact }.

Record ContactSearchResult := mkSearch {
  contacts : list Contact;
  primaryContact : option Contact;
  secondaryContacts : list Contact
}.

Inductive DatabaseResult (A : Type) :=
| Success (data : A)
| Failure (error : string).
Arguments Success {A} data.
Arguments Failure {A} error.

(** A field of the request body: absent, [null] or a string. *)
Inductive JsField := Undefined | Null | Str (s : string).

Record IdentifyRequest := mkRequest {
  reqEmail : JsField;
  reqPhoneNumber : JsField
}.

(** ** JavaScript values *)

(** Truthiness of a [string | null]: [null] and the empty string are falsy. *)
Definition truthy (v : option string) : bool :=
  match v with
  | Some s => negb (bool_decide (s = EmptyString))
  | None => false
  end.

(** [v || null] on a request field. *)
Definition orNull (v : JsField) : option string :=
  match v with
  | Str s => if bool_decide (s = EmptyString) then None else Some s
  | _ => None
  end.

(** [v || null] on a [string | null]. *)
Definition orNullS (v : option string) : option string :=
  if truthy v then v else None.

(** [column === v] where the column is [string | null] and [v] a request field. *)
Definition strictEq (column : option string) (v : JsField) : bool :=
  match column, v with
  | None, Null => true
  | Some a, Str b => bool_decide (a = b)
  | _, _ => false
  end.

(** [Set<string>.add]: a set that remembers insertion order. *)
Definition setAdd (s : list string) (x : string) : list string :=
  if bool_decide (x ∈ s) then s else s ++ [x].

Definition addIfTruthy (s : list string) (v : option string) : list string :=
  match v with
  | Some x => if truthy v then setAdd s x else s
  | None => s
  end.

(** [Array.prototype.sort] and [orderBy]: a stable sort. *)
Fixpoint insertSorted {A} (le : A → A → bool) (x : A) (l : list A) : list A :=
  match l with
  | [] => [x]
  | y :: l' => if le x y then x :: y :: l' else y :: insertSorted le x l'
  end.

Definition sortBy {A} (le : A → A → bool) (l : list A) : list A :=
  foldr (insertSorted le) [] l.

Definition byCreatedAt (a b : Contact) : bool := createdAt a <=? createdAt b.

Definition rank (p : LinkPrecedence) : Z :=
  match p with PRIMARY => 0 | SECONDARY => 1 end.

(** [orderBy: [{ linkPrecedence: 'asc' }, { createdAt: 'asc' }]] *)
Definition byPrecedenceThenCreatedAt (a b : Contact) : bool :=
  (rank (linkPrecedence a) <? rank (linkPrecedence b))
  || ((rank (linkPrecedence a) =? rank (linkPrecedence b))
      && (createdAt a <=? createdAt b)).

Definition isPrimary (c : Contact) : bool :=
  bool_decide (linkPrecedence c = PRIMARY).
Definition isSecondary (c : Contact) : bool :=
  bool_decide (linkPrecedence c = SECONDARY).

(** [reduce((oldest, current) => oldest.createdAt < current.createdAt ? oldest : current)] *)
Definition oldestOf (l : list Contact) : option Contact :=
  match l with
  | [] => None
  | c :: cs =>
      Some (fold_left (λ oldest current,
                         if createdAt oldest <? createdAt current
                         then oldest else current) cs c)
  end.

(** ** The store

    The rows of the table in insertion order and the next value of the id
    sequence.  The time of a call is an argument [now] of the operations
    that write; reads never fail, an update fails when no row has the id. *)

Record Store := mkStore {
  rows : list Contact;
  nextId : Z
}.

Definition active (c : Contact) : bool :=
  match deletedAt c with None => true | Some _ => false end.

(** ** ContactRepository (src/unnamed/part_003) *)

Module ContactRepository.

(** [prisma.contact.create]: the row gets the next id of the sequence and
    the current time. *)
Definition createContact (now : Z) (data : CreateContactInput) (st : Store)
  : DatabaseResult Contact * Store :=
  let c := {| id := nextId st;
              phoneNumber := c_phoneNumber data;
              email := c_email data;
              linkedId := c_linkedId data;
              linkPrecedence := c_linkPrecedence data;
              createdAt := now;
              updatedAt := now;
              deletedAt := None |} in
  (Success c, {| rows := rows st ++ [c]; nextId := nextId st + 1 |}).

(** [findUnique({ where: { id, deletedAt: null } })] *)
Definition findUnique (contactId : Z) (st : Store) : option Contact :=
  List.find (λ c, bool_decide (id c = contactId) && active c) (rows st).

Definition findContactsByEmailOrPhone
    (email' phoneNumber' : option string) (st : Store) : list Contact :=
  if negb (truthy email') && negb (truthy phoneNumber') then []
  else
    sortBy byCreatedAt
      (List.filter
         (λ c, ((truthy email' && bool_decide (email c = email'))
                || (truthy phoneNumber' && bool_decide (phoneNumber c = phoneNumber')))
               && active c)
         (rows st)).

Definition getAllLinkedContacts (contactId : Z) (st : Store) : list Contact :=
  match findUnique contactId st with
  | None => []
  | Some c =>
      let primaryContactId :=
        match linkPrecedence c with
        | PRIMARY => Some (id c)
        | SECONDARY => linkedId c
        end in
      match primaryContactId with
      | None => [c]
      | Some p =>
          if bool_decide (p = 0) then [c]
          else
            sortBy byPrecedenceThenCreatedAt
              (List.filter
                 (λ d, (bool_decide (id d = p) || bool_decide (linkedId d = Some p))
                       && active d)
                 (rows st))
      end
  end.

Definition applyUpdate (now : Z) (updates : UpdateContactInput) (c : Contact)
  : Contact :=
  {| id := id c;
     phoneNumber := default (phoneNumber c) (u_phoneNumber updates);
     email := default (email c) (u_email updates);
     linkedId := default (linkedId c) (u_linkedId updates);
     linkPrecedence := default (linkPrecedence c) (u_linkPrecedence updates);
     createdAt := createdAt c;
     updatedAt := now;
     deletedAt := deletedAt c |}.

(** [prisma.contact.update({ where: { id } })]: throws when no row has the
    id, which the repository turns into a failure. *)
Definition updateContactLinkage
    (now : Z) (contactId : Z) (updates : UpdateContactInput) (st : Store)
  : DatabaseResult Contact * Store :=
  match List.find (λ c, bool_decide (id c = contactId)) (rows st) with
  | None => (Failure "Record to update not found", st)
  | Some c =>
      (Success (applyUpdate now updates c),
       {| rows := map (λ d, if bool_decide (id d = contactId)
                            then applyUpdate now updates d else d) (rows st);
          nextId := nextId st |})
  end.

End ContactRepository.

(** ** ContactService (src/src/services/DatabaseUtils.ts, second half) *)

Module ContactService.

Import ContactRepository.

Definition createPrimaryContact (now : Z) (email' phoneNumber' : option string)
    (st : Store) : DatabaseResult Contact * Store :=
  createContact now
    {| c_phoneNumber := phoneNumber'; c_email := email';
       c_linkedId := None; c_linkPrecedence := PRIMARY |} st.

Definition createSecondaryContact (now : Z) (primaryContactId' : Z)
    (email' phoneNumber' : option string) (st : Store)
  : DatabaseResult Contact * Store :=
  createContact now
    {| c_phoneNumber := phoneNumber'; c_email := email';
       c_linkedId := Some primaryContactId'; c_linkPrecedence := SECONDARY |} st.

Definition findExistingContacts (email' phoneNumber' : option string)
    (st : Store) : ContactSearchResult :=
  let contacts' := findContactsByEmailOrPhone email' phoneNumber' st in
  let primaryContacts := List.filter isPrimary contacts' in
  let secondaryContacts' := List.filter isSecondary contacts' in
  {| contacts := contacts';
     primaryContact := oldestOf primaryContacts;
     secondaryContacts := secondaryContacts' |}.

Definition getLinkedContactChain (contactId : Z) (st : Store) : list Contact :=
  getAllLinkedContacts contactId st.

Definition convertPrimaryToSecondary (now : Z) (contactId newPrimaryId : Z)
    (st : Store) : DatabaseResult Contact * Store :=
  updateContactLinkage now contactId
    {| u_phoneNumber := None; u_email := None;
       u_linkedId := Some (Some newPrimaryId);
       u_linkPrecedence := Some SECONDARY |} st.

(** [updatedContacts.push(updateResult.data)] when the update succeeded. *)
Definition pushIfSuccess (updatedContacts : list Contact)
    (r : DatabaseResult Contact) : list Contact :=
  match r with
  | Success c => updatedContacts ++ [c]
  | Failure _ => updatedContacts
  end.

(** The body of the [for (const contact of newerChainContacts)] loop. *)
Definition relinkStep (now : Z) (olderPrimaryId newerPrimaryId : Z)
    (acc : list Contact * Store) (c : Contact) : list Contact * Store :=
  if negb (bool_decide (id c = newerPrimaryId)) && isSecondary c then
    let '(r, st') :=
      updateContactLinkage now (id c)
        {| u_phoneNumber := None; u_email := None;
           u_linkedId := Some (Some olderPrimaryId);
           u_linkPrecedence := Some PRIMARY |} (snd acc) in
    (pushIfSuccess (fst acc) r, st')
  else acc.

Definition mergeContactChains (now : Z) (olderPrimaryId newerPrimaryId : Z)
    (st : Store) : DatabaseResult (list Contact) * Store :=
  let newerChainContacts := getAllLinkedContacts newerPrimaryId st in
  let afterDemotion :=
    match List.find (λ c, bool_decide (id c = newerPrimaryId)) newerChainContacts with
    | Some _ =>
        let '(r, st') := convertPrimaryToSecondary now newerPrimaryId olderPrimaryId st in
        (pushIfSuccess [] r, st')
    | None => ([], st)
    end in
  let '(updatedContacts, st'') :=
    fold_left (relinkStep now olderPrimaryId newerPrimaryId)
      newerChainContacts afterDemotion in
  (Success updatedContacts, st'').

Definition consolidateContactInfo (primaryContactId' : Z) (st : Store)
  : DatabaseResult ConsolidatedContact :=
  let allContacts := getAllLinkedContacts primaryContactId' st in
  match List.find isPrimary allContacts with
  | None => Failure "Primary contact not found"
  | Some p =>
      let sorted := sortBy byCreatedAt (List.filter isSecondary allContacts) in
      Success
        {| primaryContactId := id p;
           emails :=
             fold_left (λ s c, addIfTruthy s (email c)) sorted
               (addIfTruthy [] (email p));
           phoneNumbers :=
             fold_left (λ s c, addIfTruthy s (phoneNumber c)) sorted
               (addIfTruthy [] (phoneNumber p));
           secondaryContactIds := map id sorted |}
  end.

End ContactService.

(** ** IdentityService (src/unnamed/part_002) *)

Module IdentityService.

Import ContactRepository ContactService.

Definition isExactDuplicate (contacts' : list Contact)
    (email' phoneNumber' : JsField) : bool :=
  existsb (λ c, strictEq (email c) email' && strictEq (phoneNumber c) phoneNumber')
    contacts'.

Definition hasMultiplePrimaryContacts (contacts' : list Contact) : bool :=
  (1 <? Z.of_nat (length (List.filter isPrimary contacts'))).

Definition needsSecondaryContact (p : Contact)
    (email' phoneNumber' : option string) : bool :=
  if bool_decide (email p = email') && bool_decide (phoneNumber p = phoneNumber')
  then false
  else if (bool_decide (email p = email')
           && negb (bool_decide (phoneNumber p = phoneNumber'))
           && negb (bool_decide (phoneNumber' = None)))
          || (bool_decide (phoneNumber p = phoneNumber')
              && negb (bool_decide (email p = email'))
              && negb (bool_decide (email' = None)))
  then true
  else if bool_decide (email p = None) && negb (bool_decide (email' = None))
          && bool_decide (phoneNumber p = phoneNumber')
  then true
  else if bool_decide (phoneNumber p = None)
          && negb (bool_decide (phoneNumber' = None))
          && bool_decide (email p = email')
  then true
  else false.

Definition checkIfNeedsNewSecondary (primaryContactId' : Z)
    (email' phoneNumber' : option string) (st : Store) : bool :=
  let allContacts := getLinkedContactChain primaryContactId' st in
  let exactMatch :=
    existsb (λ c, bool_decide (email c = email')
                  && bool_decide (phoneNumber c = phoneNumber')) allContacts in
  if exactMatch then false
  else
    let hasNewEmail :=
      truthy email' && negb (existsb (λ c, bool_decide (email c = email')) allContacts) in
    let hasNewPhone :=
      truthy phoneNumber'
      && negb (existsb (λ c, bool_decide (phoneNumber c = phoneNumber')) allContacts) in
    let hasMatchingEmail :=
      truthy email' && existsb (λ c, bool_decide (email c = email')) allContacts in
    let hasMatchingPhone :=
      truthy phoneNumber'
      && existsb (λ c, bool_decide (phoneNumber c = phoneNumber')) allContacts in
    (hasNewEmail || hasNewPhone) && (hasMatchingEmail || hasMatchingPhone).

Definition consolidateAndReturn (primaryContactId' : Z) (st : Store)
  : DatabaseResult IdentifyResponse :=
  match consolidateContactInfo primaryContactId' st with
  | Success c => Success {| contact := c |}
  | Failure _ => Failure "Failed to consolidate contact information"
  end.

Definition handleNoExistingContacts (now : Z)
    (email' phoneNumber' : option string) (st : Store)
  : DatabaseResult IdentifyResponse * Store :=
  let '(r, st') := createPrimaryContact now (orNullS email') (orNullS phoneNumber') st in
  match r with
  | Failure _ => (Failure "Failed to create new primary contact", st')
  | Success p =>
      (Success {| contact :=
                    {| primaryContactId := id p;
                       emails := if truthy (email p) then option_list (email p) else [];
                       phoneNumbers :=
                         if truthy (phoneNumber p) then option_list (phoneNumber p) else [];
                       secondaryContactIds := [] |} |}, st')
  end.


Definition handleExactDuplicate (searchResult : ContactSearchResult) (st : Store)
  : DatabaseResult IdentifyResponse :=
  let primaryContact' :=
    match primaryContact searchResult with
    | Some p => Some p
    | None => List.find isPrimary (contacts searchResult)
    end in
  match primaryContact' with
  | None => Failure "No primary contact found in search results"
  | Some p => consolidateAndReturn (id p) st
  end.

Definition handleSinglePrimaryContact (now : Z) (searchResult : ContactSearchResult)
    (email' phoneNumber' : option string) (st : Store)
  : DatabaseResult IdentifyResponse * Store :=
  match primaryContact searchResult with
  | None =>
      (* [searchResult.primaryContact!]: the TypeError is caught by
         [identifyContact]; the branch test excludes this case. *)
      (Failure "Cannot read properties of undefined", st)
  | Some p =>
      if needsSecondaryContact p email' phoneNumber' then
        let '(r, st') :=
          createSecondaryContact now (id p) (orNullS email') (orNullS phoneNumber') st in
        match r with
        | Failure _ => (Failure "Failed to create secondary contact", st')
        | Success _ => (consolidateAndReturn (id p) st', st')
        end
      else (consolidateAndReturn (id p) st, st)
  end.

(** The [for (const newerPrimary of newerPrimaries)] loop: a failed merge is
    logged and the loop goes on. *)
Definition mergeAll (now : Z) (olderPrimaryId : Z) (newerPrimaries : list Contact)
    (st : Store) : Store :=
  fold_left (λ s newerPrimary,
               snd (mergeContactChains now olderPrimaryId (id newerPrimary) s))
    newerPrimaries st.

Definition handleMultiplePrimaryContacts (now : Z) (contacts' : list Contact)
    (email' phoneNumber' : option string) (st : Store)
  : DatabaseResult IdentifyResponse * Store :=
  let primaryContacts := sortBy byCreatedAt (List.filter isPrimary contacts') in
  match primaryContacts with
  | [] => (Failure "No primary contact found in multiple primaries scenario", st)
  | olderPrimary :: newerPrimaries =>
      let st1 := mergeAll now (id olderPrimary) newerPrimaries st in
      let st2 :=
        if checkIfNeedsNewSecondary (id olderPrimary)
             (orNullS email') (orNullS phoneNumber') st1
        then snd (createSecondaryContact now (id olderPrimary)
                    (orNullS email') (orNullS phoneNumber') st1)
        else st1 in
      (consolidateAndReturn (id olderPrimary) st2, st2)
  end.

Definition handleExistingChain (now : Z) (searchResult : ContactSearchResult)
    (email' phoneNumber' : option string) (st : Store)
  : DatabaseResult IdentifyResponse * Store :=
  let primaryContact' :=
    match primaryContact searchResult with
    | Some p => Some p
    | None => List.find isPrimary (contacts searchResult)
    end in
  match primaryContact' with
  | None =>
      match oldestOf (contacts searchResult) with
      | Some oldestContact =>
          let '(r, st') :=
            updateContactLinkage now (id oldestContact)
              {| u_phoneNumber := None; u_email := None;
                 u_linkedId := Some None;
                 u_linkPrecedence := Some PRIMARY |} st in
          match r with
          | Success u => (consolidateAndReturn (id u) st', st')
          | Failure _ => handleNoExistingContacts now email' phoneNumber' st'
          end
      | None => handleNoExistingContacts now email' phoneNumber' st
      end
  | Some p =>
      let st' :=
        if checkIfNeedsNewSecondary (id p) email' phoneNumber' st
        then snd (createSecondaryContact now (id p)
                    (orNullS email') (orNullS phoneNumber') st)
        else st in
      (consolidateAndReturn (id p) st', st')
  end.

Definition identifyContact (now : Z) (request : IdentifyRequest) (st : Store)
  : DatabaseResult IdentifyResponse * Store :=
  let email' := reqEmail request in
  let phoneNumber' := reqPhoneNumber request in
  let searchResult := findExistingContacts (orNull email') (orNull phoneNumber') st in
  if bool_decide (contacts searchResult = []) then
    handleNoExistingContacts now (orNull email') (orNull phoneNumber') st
  else if isExactDuplicate (contacts searchResult) email' phoneNumber' then
    (handleExactDuplicate searchResult st, st)
  else if bool_decide (is_Some (primaryContact searchResult))
          && bool_decide (secondaryContacts searchResult = []) then
    handleSinglePrimaryContact now searchResult (orNull email') (orNull phoneNumber') st
  else if hasMultiplePrimaryContacts (contacts searchResult) then
    handleMultiplePrimaryContacts now (contacts searchResult)
      (orNull email') (orNull phoneNumber') st
  else
    handleExistingChain now searchResult (orNull email') (orNull phoneNumber') st.

End IdentityService.

(** ** ContactMatcher (src/src/services/ContactMatcher.ts) *)

Module ContactMatcher.

Definition hasSharedEmail (contact1 contact2 : Contact) : bool :=
  truthy (email contact1) && truthy (email contact2)
  && bool_decide (email contact1 = email contact2).

Definition hasSharedPhone (contact1 contact2 : Contact) : bool :=
  truthy (phoneNumber contact1) && truthy (phoneNumber contact2)
  && bool_decide (phoneNumber contact1 = phoneNumber contact2).

Definition shouldLink (contact1 contact2 : Contact) : bool :=
  hasSharedEmail contact1 contact2 || hasSharedPhone contact1 contact2.

(** The pair ([group], [processed]) that [findLinkedContacts] mutates. *)
Definition Visit : Type := list Contact * gset Z.

Definition visit (c : Contact) (v : Visit) : Visit :=
  (fst v ++ [c], {[ id c ]} ∪ snd v).

(** [findLinkedContacts] recurses once per contact that it adds to
    [processed]; [fuel] bounds the depth of the recursion. *)
Fixpoint findLinkedContacts (fuel : nat) (baseContact : Contact)
    (allContacts : list Contact) (v : Visit) : Visit :=
  match fuel with
  | O => v
  | S fuel' =>
      fold_left
        (λ v' contact',
           if bool_decide (id contact' ∈ snd v') then v'
           else if shouldLink baseContact contact'
                then findLinkedContacts fuel' contact' allContacts (visit contact' v')
                else v')
        allContacts v
  end.

(** The body of the [for (const contact of contacts)] loop of
    [groupLinkableContacts], on the pair ([groups], [processed]). *)
Definition groupStep (fuel : nat) (contacts' : list Contact)
    (acc : list (list Contact) * gset Z) (c : Contact)
  : list (list Contact) * gset Z :=
  if bool_decide (id c ∈ snd acc) then acc
  else
    let v := findLinkedContacts fuel c contacts' ([c], {[ id c ]} ∪ snd acc) in
    (if (1 <? Z.of_nat (length (fst v))) then fst acc ++ [fst v] else fst acc,
     snd v).

Definition groupLinkableContactsFuel (fuel : nat) (contacts' : list Contact)
  : list (list Contact) :=
  fst (fold_left (groupStep fuel contacts') contacts' ([], ∅)).

(** The depth of the recursion never exceeds the number of contacts. *)
Definition groupLinkableContacts (contacts' : list Contact) : list (list Contact) :=
  groupLinkableContactsFuel (length contacts') contacts'.

End ContactMatcher.

(** ** Stores, chains and the chain invariants *)

(** The primary key: no two rows share an id. *)
Definition uniqueIds (st : Store) : Prop := NoDup (map id (rows st)).

(** The id of the Primary that owns a contact, read off the contact itself:
    its own id for a Primary, its [linkedId] for a Secondary. *)
Definition chainPrimaryId (c : Contact) : option Z :=
  match linkPrecedence c with
  | PRIMARY => Some (id c)
  | SECONDARY => linkedId c
  end.

(** A chain has exactly one Primary and each of its Secondaries points at it.
    The chain of a contact is what [getAllLinkedContacts] returns for it. *)
Definition chainOk (chain : list Contact) : bool :=
  match List.filter isPrimary chain with
  | [p] =>
      forallb (λ s, implb (isSecondary s) (bool_decide (linkedId s = Some (id p))))
        chain
  | _ => false
  end.

Definition chainInvariants (st : Store) : bool :=
  forallb (λ c, chainOk (ContactRepository.getAllLinkedContacts (id c) st))
    (List.filter active (rows st)).

(** A sequence of [identify] calls, each with the time at which it runs. *)
Definition identifySequence (calls : list (Z * IdentifyRequest)) (st : Store)
  : Store :=
  fold_left (λ s call, snd (IdentityService.identifyContact (fst call) (snd call) s))
    calls st.

(** The request pair is stored verbatim on an active contact. *)
Definition presentVerbatim (request : IdentifyRequest) (st : Store) : Prop :=
  ∃ c, c ∈ rows st ∧ active c = true
       ∧ strictEq (email c) (reqEmail request) = true
       ∧ strictEq (phoneNumber c) (reqPhoneNumber request) = true.

(** The row that [createContact] appends. *)
Definition newRow (now : Z) (st : Store) (email' phoneNumber' : option string)
    (linkedId' : option Z) (p : LinkPrecedence) : Contact :=
  {| id := nextId st; phoneNumber := phoneNumber'; email := email';
     linkedId := linkedId'; linkPrecedence := p;
     createdAt := now; updatedAt := now; deletedAt := None |}.

(** ** Concrete stores *)

Module Examples.

Definition primary1 : Contact :=
  {| id := 1; phoneNumber := Some "1"; email := Some "a"; linkedId := None;
     linkPrecedence := PRIMARY; createdAt := 100; updatedAt := 100;
     deletedAt := None |}.

Definition primary2 : Contact :=
  {| id := 2; phoneNumber := Some "2"; email := Some "b"; linkedId := None;
     linkPrecedence := PRIMARY; createdAt := 200; updatedAt := 200;
     deletedAt := None |}.

(** A Secondary of [primary2] that shares its phone number. *)
Definition secondary3 : Contact :=
  {| id := 3; phoneNumber := Some "2"; email := Some "c"; linkedId := Some 2;
     linkPrecedence := SECONDARY; createdAt := 300; updatedAt := 300;
     deletedAt := None |}.

(** A row linked to [primary2] but marked Primary. *)
Definition marked4 : Contact :=
  {| id := 4; phoneNumber := Some "4"; email := Some "d"; linkedId := Some 2;
     linkPrecedence := PRIMARY; createdAt := 400; updatedAt := 400;
     deletedAt := None |}.

(** A Secondary of [primary1] that shares no attribute with it. *)
Definition secondary2' : Contact :=
  {| id := 2; phoneNumber := Some "2"; email := Some "b"; linkedId := Some 1;
     linkPrecedence := SECONDARY; createdAt := 200; updatedAt := 200;
     deletedAt := None |}.

(** A Secondary of [primary1] that shares its email. *)
Definition secondary5 : Contact :=
  {| id := 5; phoneNumber := Some "5"; email := Some "a"; linkedId := Some 1;
     linkPrecedence := SECONDARY; createdAt := 250; updatedAt := 250;
     deletedAt := None |}.

Definition twoPrimaries : Store := {| rows := [primary1; primary2]; nextId := 3 |}.

Definition twoChains : Store :=
  {| rows := [primary1; primary2; secondary3]; nextId := 4 |}.

Definition corruptedChain : Store :=
  {| rows := [primary1; primary2; secondary3; marked4]; nextId := 5 |}.

Definition bothChains : Store :=
  {| rows := [primary1; primary2; secondary5; secondary3]; nextId := 6 |}.

Definition oneChain : Store := {| rows := [primary1; secondary2']; nextId := 3 |}.

Definition requestA2 : IdentifyRequest :=
  {| reqEmail := Str "a"; reqPhoneNumber := Str "2" |}.

Definition requestB2 : IdentifyRequest :=
  {| reqEmail := Str "b"; reqPhoneNumber := Str "2" |}.

Definition noFields : IdentifyRequest :=
  {| reqEmail := Undefined; reqPhoneNumber := Undefined |}.

End Examples.

(** ** The effect of a merge on one row *)

Definition demoteUpdate (olderPrimaryId : Z) : UpdateContactInput :=
  {| u_phoneNumber := None; u_email := None;
     u_linkedId := Some (Some olderPrimaryId);
     u_linkPrecedence := Some SECONDARY |}.

Definition relinkUpdate (olderPrimaryId : Z) : UpdateContactInput :=
  {| u_phoneNumber := None; u_email := None;
     u_linkedId := Some (Some olderPrimaryId);
     u_linkPrecedence := Some PRIMARY |}.

(** The rows after [prisma.contact.update] on the id [i]. *)
Definition updateRows (now : Z) (i : Z) (u : UpdateContactInput)
    (l : list Contact) : list Contact :=
  map (λ d, if bool_decide (id d = i)
            then ContactRepository.applyUpdate now u d else d) l.

(** The contacts of the chain that the loop of [mergeContactChains] writes. *)
Definition relinked (newerPrimaryId : Z) (c : Contact) : bool :=
  negb (bool_decide (id c = newerPrimaryId)) && isSecondary c.

Definition demoteRow (now : Z) (olderPrimaryId newerPrimaryId : Z)
    (chain : list Contact) (d : Contact) : Contact :=
  if existsb (λ c, bool_decide (id c = newerPrimaryId)) chain
     && bool_decide (id d = newerPrimaryId)
  then ContactRepository.applyUpdate now (demoteUpdate olderPrimaryId) d
  else d.

Definition relinkRow (now : Z) (olderPrimaryId newerPrimaryId : Z)
    (chain : list Contact) (d : Contact) : Contact :=
  if existsb (λ c, relinked newerPrimaryId c && bool_decide (id c = id d)) chain
  then ContactRepository.applyUpdate now (relinkUpdate olderPrimaryId) d
  else d.

(** [prisma.contact.findUnique({ where: { id } })], deleted rows included:
    the row that [update] addresses. *)
Definition lookupId (i : Z) (st : Store) : option Contact :=
  List.find (λ c, bool_decide (id c = i)) (rows st).

(** C3 as the specification states it: the newer Primary is demoted under
    the older one, and every record linked to the newer Primary, whatever
    its mark, ends as a Secondary of the older Primary. *)
Definition mergeForcesSecondary (now : Z) (olderPrimaryId newerPrimaryId : Z)
    (st : Store) : Prop :=
  let st' := snd (ContactService.mergeContactChains now olderPrimaryId
                    newerPrimaryId st) in
  (∃ c', lookupId newerPrimaryId st' = Some c'
         ∧ linkPrecedence c' = SECONDARY ∧ linkedId c' = Some olderPrimaryId)
  ∧ ∀ c, c ∈ rows st → active c = true → linkedId c = Some newerPrimaryId →
         ∃ c', lookupId (id c) st' = Some c'
               ∧ linkedId c' = Some olderPrimaryId
               ∧ linkPrecedence c' = SECONDARY.

(** ** Branch D: when a Secondary is appended after the merges *)

Definition pairInChain (email' phoneNumber' : option string)
    (chain : list Contact) : Prop :=
  ∃ c, c ∈ chain ∧ email c = email' ∧ phoneNumber c = phoneNumber'.

(** A requested value that is non-empty and on no contact of the chain. *)
Definition newValue (v : option string) (field : Contact → option string)
    (chain : list Contact) : Prop :=
  truthy v = true ∧ ∀ c, c ∈ chain → field c ≠ v.

(** A requested value that is non-empty and on some contact of the chain. *)
Definition knownValue (v : option string) (field : Contact → option string)
    (chain : list Contact) : Prop :=
  truthy v = true ∧ ∃ c, c ∈ chain ∧ field c = v.

(** The store after the merges of branch D and the store at its end. *)
Definition afterMerges (now : Z) (contacts' : list Contact) (st : Store) : Store :=
  match sortBy byCreatedAt (List.filter isPrimary contacts') with
  | [] => st
  | olderPrimary :: newerPrimaries =>
      IdentityService.mergeAll now (id olderPrimary) newerPrimaries st
  end.

Definition survivingPrimaryId (contacts' : list Contact) : option Z :=
  id <$> head (sortBy byCreatedAt (List.filter isPrimary contacts')).

Definition secondaryAppended (now : Z) (contacts' : list Contact)
    (email' phoneNumber' : option string) (st : Store) : Prop :=
  ∃ older, survivingPrimaryId contacts' = Some older
    ∧ rows (snd (IdentityService.handleMultiplePrimaryContacts now contacts'
                   email' phoneNumber' st))
      = rows (afterMerges now contacts' st)
        ++ [newRow now (afterMerges now contacts' st)
              (orNullS email') (orNullS phoneNumber') (Some older) SECONDARY].

(** C4 as the specification states it. *)
Definition appendsIffPairAbsent (now : Z) (contacts' : list Contact)
    (email' phoneNumber' : option string) (st : Store) : Prop :=
  ∀ older, survivingPrimaryId contacts' = Some older →
    (secondaryAppended now contacts' email' phoneNumber' st
     ↔ ¬ pairInChain (orNullS email') (orNullS phoneNumber')
           (ContactRepository.getAllLinkedContacts older
              (afterMerges now contacts' st))).

(** ** Branch B: the request is stored verbatim *)

(** The candidates of a request. *)
Definition candidates (request : IdentifyRequest) (st : Store) : ContactSearchResult :=
  ContactService.findExistingContacts
    (orNull (reqEmail request)) (orNull (reqPhoneNumber request)) st.

(** C5 as the specification states it: whenever a candidate equals the
    request on both fields, nothing is written and the result is the
    consolidated view of the chain of that candidate's Primary. *)
Definition resolvesToChainPrimary (now : Z) (request : IdentifyRequest)
    (st : Store) : Prop :=
  ∀ c, c ∈ contacts (candidates request st) →
    strictEq (email c) (reqEmail request) = true →
    strictEq (phoneNumber c) (reqPhoneNumber request) = true →
    ∃ pid, chainPrimaryId c = Some pid
      ∧ IdentityService.identifyContact now request st
        = (IdentityService.consolidateAndReturn pid st, st).

(** C6 as the specification states it: two calls in succession return the
    same [primaryContactId] and add no row. *)
Definition twiceSamePrimaryId (now1 now2 : Z) (request : IdentifyRequest)
    (st : Store) : Prop :=
  presentVerbatim request st →
  orNull (reqEmail request) ≠ None ∨ orNull (reqPhoneNumber request) ≠ None →
  ∃ r1 st1 r2 st2,
    IdentityService.identifyContact now1 request st = (Success r1, st1)
    ∧ IdentityService.identifyContact now2 request st1 = (Success r2, st2)
    ∧ primaryContactId (contact r1) = primaryContactId (contact r2)
    ∧ length (rows st1) = length (rows st)
    ∧ length (rows st2) = length (rows st).

(** ** The consolidated view *)

(** Ids come from the sequence and [linkedId] is a foreign key on ids: both
    are below the next id of the sequence. *)
Definition storeWf (st : Store) : Prop :=
  ∀ c, c ∈ rows st →
    id c < nextId st ∧ ∀ l, linkedId c = Some l → l < nextId st.

Definition createdBefore (a b : Contact) : Prop := createdAt a ≤ createdAt b.

(** The values of [field] added to an empty [Set] along the list [l]. *)
Definition collectValues (field : Contact → option string) (l : list Contact)
  : list string :=
  fold_left (λ s c, addIfTruthy s (field c)) l [].

(** [values] lists, without the empty string, what the Primary [p] and the
    Secondaries [secs] hold in [field]; a value of the Primary is never
    behind another value; and a value [v] in front of a value [w] is the
    Primary's or is held by a Secondary created no later than every
    Secondary that holds [w]. *)
Definition introducedInOrder (values : list string)
    (field : Contact → option string) (p : Contact) (secs : list Contact)
  : Prop :=
  (∀ v, v ∈ values ↔
        v ≠ EmptyString ∧ (field p = Some v ∨ ∃ s, s ∈ secs ∧ field s = Some v))
  ∧ ∀ (i j : nat) v w, (i < j)%nat → values !! i = Some v → values !! j = Some w →
      field p ≠ Some w
      ∧ (field p = Some v
         ∨ ∃ s, s ∈ secs ∧ field s = Some v
                ∧ ∀ s', s' ∈ secs → field s' = Some w → createdBefore s s').

(** The response [r] is the consolidated view of the chain that
    [getAllLinkedContacts] returns for [root] in the store [st]. *)
Definition consolidatedView (st : Store) (root : Z) (r : ConsolidatedContact)
  : Prop :=
  ∃ p secs,
    p ∈ ContactRepository.getAllLinkedContacts root st
    ∧ linkPrecedence p = PRIMARY
    ∧ primaryContactId r = id p
    ∧ Permutation secs
        (List.filter isSecondary (ContactRepository.getAllLinkedContacts root st))
    ∧ StronglySorted createdBefore secs
    ∧ secondaryContactIds r = map id secs
    ∧ NoDup (emails r) ∧ NoDup (phoneNumbers r)
    ∧ introducedInOrder (emails r) email p secs
    ∧ introducedInOrder (phoneNumbers r) phoneNumber p secs.

(** ** The shared-attribute graph *)

(** Two contacts of the list [l] that share an email or a phone number. *)
Definition linkedIn (l : list Contact) (a b : Contact) : Prop :=
  a ∈ l ∧ b ∈ l ∧ ContactMatcher.shouldLink a b = true.

(** Connectivity: the reflexive and transitive closure of [linkedIn]. *)
Definition connectedIn (l : list Contact) : relation Contact := rtc (linkedIn l).

(** The number of contacts of [l] whose id is not in [processed]. *)
Definition unprocessed (l : list Contact) (processed : gset Z) : nat :=
  size (list_to_set (map id l) ∖ processed : gset Z).

(** Every contact of [l] linked to [x] has its id in [processed]. *)
Definition closedAt (l : list Contact) (x : Contact) (processed : gset Z) : Prop :=
  ∀ y, y ∈ l → ContactMatcher.shouldLink x y = true → id y ∈ processed.

(** What a call of [findLinkedContacts] for [b] adds to the visit [v]:
    unprocessed contacts connected to [b], each with all its links processed
    at the end. *)
Definition extends (l : list Contact) (b : Contact)
    (v v' : ContactMatcher.Visit) : Prop :=
  ∃ added,
    fst v' = fst v ++ added
    ∧ snd v' = list_to_set (map id added) ∪ snd v
    ∧ NoDup (map id added)
    ∧ ∀ x, x ∈ added →
        x ∈ l ∧ (id x ∉ snd v) ∧ connectedIn l b x ∧ closedAt l x (snd v').

(** Two contacts are in a same group of [groupLinkableContacts l]. *)
Definition sameGroup (l : list Contact) (c d : Contact) : Prop :=
  ∃ g, g ∈ ContactMatcher.groupLinkableContacts l ∧ c ∈ g ∧ d ∈ g.

(** C8 as the specification states it: every input contact is in exactly
    one group. *)
Definition inExactlyOneGroup (l : list Contact) : Prop :=
  NoDup (map id l) →
  ∀ c, c ∈ l →
    ∃ k g, ContactMatcher.groupLinkableContacts l !! k = Some g ∧ c ∈ g
           ∧ ∀ k' g', ContactMatcher.groupLinkableContacts l !! k' = Some g' →
                      c ∈ g' → k' = k.

(** A group is a connected component of the graph with at least two
    members, all of them processed. *)
Definition isComponent (l : list Contact) (processed : gset Z)
    (g : list Contact) : Prop :=
  (2 ≤ length g)%nat ∧ NoDup g
  ∧ ∀ c, c ∈ g → c ∈ l ∧ id c ∈ processed ∧ ∀ d, d ∈ g ↔ connectedIn l c d.

(** A contact that shares an attribute with another contact of [l]. *)
Definition hasLink (l : list Contact) (c : Contact) : Prop :=
  ∃ d, d ∈ l ∧ d ≠ c ∧ ContactMatcher.shouldLink c d = true.

(** The invariant of the loop of [groupLinkableContacts] once the contacts
    [scanned] have been handled. *)
Definition groupsInv (l scanned : list Contact)
    (acc : list (list Contact) * gset Z) : Prop :=
  (∀ x, x ∈ l → id x ∈ snd acc → closedAt l x (snd acc))
  ∧ (∀ y, y ∈ scanned → id y ∈ snd acc)
  ∧ (∀ g, g ∈ fst acc → isComponent l (snd acc) g)
  ∧ (∀ (k k' : nat) g g' c, fst acc !! k = Some g → fst acc !! k' = Some g' →
                            c ∈ g → c ∈ g' → k = k')
  ∧ (∀ x, x ∈ l → id x ∈ snd acc →
          ((∃ g, g ∈ fst acc ∧ x ∈ g) ↔ hasLink l x)).

(** * More of the services

    The remaining operations of the repository, of the services and of the
    matcher, with the predicates used to state their properties. *)

(** ** ContactRepository: the other queries (src/unnamed/part_003) *)

Module Repository.

Definition findContactById (id' : Z) (st : Store) : option Contact :=
  ContactRepository.findUnique id' st.

Definition findContactsByEmail (email' : string) (st : Store) : list Contact :=
  sortBy byCreatedAt
    (List.filter (λ c, bool_decide (email c = Some email') && active c) (rows st)).

Definition findContactsByPhone (phoneNumber' : string) (st : Store)
  : list Contact :=
  sortBy byCreatedAt
    (List.filter (λ c, bool_decide (phoneNumber c = Some phoneNumber') && active c)
       (rows st)).

Definition findPrimaryContacts (st : Store) : list Contact :=
  sortBy byCreatedAt (List.filter (λ c, isPrimary c && active c) (rows st)).

Definition findSecondaryContacts (primaryContactId' : Z) (st : Store)
  : list Contact :=
  sortBy byCreatedAt
    (List.filter
       (λ c, bool_decide (linkedId c = Some primaryContactId')
             && isSecondary c && active c)
       (rows st)).

Definition markDeleted (now : Z) (c : Contact) : Contact :=
  {| id := id c; phoneNumber := phoneNumber c; email := email c;
     linkedId := linkedId c; linkPrecedence := linkPrecedence c;
     createdAt := createdAt c; updatedAt := now; deletedAt := Some now |}.

(** [prisma.contact.update({ where: { id }, data: { deletedAt: new Date() } })] *)
Definition softDeleteContact (now : Z) (contactId : Z) (st : Store)
  : DatabaseResult Contact * Store :=
  match List.find (λ c, bool_decide (id c = contactId)) (rows st) with
  | None => (Failure "Record to update not found", st)
  | Some c =>
      (Success (markDeleted now c),
       {| rows := map (λ d, if bool_decide (id d = contactId)
                            then markDeleted now d else d) (rows st);
          nextId := nextId st |})
  end.

Definition countContacts (st : Store) : Z :=
  Z.of_nat (length (List.filter active (rows st))).

End Repository.

(** ** ContactService: the other operations (src/src/services/DatabaseUtils.ts) *)

(** Truthiness of a request field. *)
Definition truthyField (v : JsField) : bool :=
  match v with
  | Str s => negb (bool_decide (s = EmptyString))
  | _ => false
  end.

Module Service.

Definition shouldContactsBeLinked (contact1 contact2 : Contact) : bool :=
  if truthy (email contact1) && truthy (email contact2)
     && bool_decide (email contact1 = email contact2)
  then true
  else if truthy (phoneNumber contact1) && truthy (phoneNumber contact2)
          && bool_decide (phoneNumber contact1 = phoneNumber contact2)
  then true
  else false.

Definition isContactDataDuplicate (existingContacts : list Contact)
    (email' phoneNumber' : JsField) : bool :=
  existsb
    (λ c, (truthyField email' && strictEq (email c) email'
           && truthyField phoneNumber' && strictEq (phoneNumber c) phoneNumber')
          || (truthyField email' && strictEq (email c) email'
              && negb (truthyField phoneNumber'))
          || (truthyField phoneNumber' && strictEq (phoneNumber c) phoneNumber'
              && negb (truthyField email')))
    existingContacts.

Record ContactStatistics := mkStatistics {
  totalContacts : Z;
  primaryContactsCount : Z;
  secondaryContactsCount : Z
}.

Definition getContactStatistics (st : Store) : ContactStatistics :=
  let totalContacts' := Repository.countContacts st in
  let primaryCount := Z.of_nat (length (Repository.findPrimaryContacts st)) in
  {| totalContacts := totalContacts';
     primaryContactsCount := primaryCount;
     secondaryContactsCount := totalContacts' - primaryCount |}.

End Service.

(** ** What a call of [identify] may change *)

(** The columns that no operation of the resolver writes. *)
Definition sameData (c c' : Contact) : Prop :=
  id c' = id c ∧ email c' = email c ∧ phoneNumber c' = phoneNumber c
  ∧ createdAt c' = createdAt c ∧ deletedAt c' = deletedAt c.

(** A link is null or the id of a row of [st]. *)
Definition linksInto (st : Store) (l : option Z) : Prop :=
  l = None ∨ ∃ r, r ∈ rows st ∧ l = Some (id r).

(** A row after the writes of the resolver: the data is kept and the link is
    the old one or a link into [st]. *)
Definition relinkedFrom (st : Store) (c c' : Contact) : Prop :=
  sameData c c' ∧ (linkedId c' = linkedId c ∨ linksInto st (linkedId c')).

(** The store [st'] comes from [st] by re-linking rows and appending at most
    one row, created at [now] with the next id. *)
Definition identifyEffect (now : Z) (st st' : Store) : Prop :=
  ∃ kept added,
    rows st' = kept ++ added
    ∧ Forall2 (relinkedFrom st) (rows st) kept
    ∧ (length added ≤ 1)%nat
    ∧ nextId st' = nextId st + Z.of_nat (length added)
    ∧ ∀ c, c ∈ added →
        id c = nextId st ∧ createdAt c = now ∧ deletedAt c = None
        ∧ linksInto st (linkedId c).

(** The order of [getAllLinkedContacts]: rows marked Primary first, then by
    creation time. *)
Definition chainBefore (a b : Contact) : Prop :=
  rank (linkPrecedence a) < rank (linkPrecedence b)
  ∨ (rank (linkPrecedence a) = rank (linkPrecedence b)
     ∧ createdAt a ≤ createdAt b).

(** A row that the candidate query of a request selects. *)
Definition matchesRequest (email' phoneNumber' : option string) (c : Contact)
  : Prop :=
  (truthy email' = true ∧ email c = email')
  ∨ (truthy phoneNumber' = true ∧ phoneNumber c = phoneNumber').

(** ** ContactMatcher: the other operations
       (src/src/services/ContactMatcher.ts) *)

Module Matcher.

Record LinkageAnalysis := mkAnalysis {
  primaryContacts : list Contact;
  secondaryContacts : list Contact;
  linkableGroups : list (list Contact);
  isolatedContacts : list Contact
}.

(** [group.forEach(contact => linkedContactIds.add(contact.id))] over the
    groups. *)
Definition linkedContactIds (groups : list (list Contact)) : gset Z :=
  fold_left (λ ids group, fold_left (λ ids' c, {[ id c ]} ∪ ids') group ids)
    groups ∅.

Definition analyzeContactLinkage (contacts' : list Contact) : LinkageAnalysis :=
  let groups := ContactMatcher.groupLinkableContacts contacts' in
  {| primaryContacts := List.filter isPrimary contacts';
     secondaryContacts := List.filter isSecondary contacts';
     linkableGroups := groups;
     isolatedContacts :=
       List.filter (λ c, negb (bool_decide (id c ∈ linkedContactIds groups)))
         contacts' |}.

(** [reduce] on an empty array throws: [None]. *)
Definition determinePrimary (contacts' : list Contact) : option Contact :=
  match List.find isPrimary contacts' with
  | Some existingPrimary => Some existingPrimary
  | None => oldestOf contacts'
  end.

Definition hasExactMatch (contacts' : list Contact)
    (email' phoneNumber' : JsField) : bool :=
  existsb (λ c, strictEq (email c) email' && strictEq (phoneNumber c) phoneNumber')
    contacts'.

Definition wouldAddValue (existingContacts : list Contact)
    (email' phoneNumber' : JsField) : bool :=
  if hasExactMatch existingContacts email' phoneNumber' then false
  else
    let hasNewEmail :=
      truthyField email'
      && negb (existsb (λ c, strictEq (email c) email') existingContacts) in
    let hasNewPhone :=
      truthyField phoneNumber'
      && negb (existsb (λ c, strictEq (phoneNumber c) phoneNumber')
                 existingContacts) in
    hasNewEmail || hasNewPhone.

Record MatchingCriteria := mkCriteria {
  matchingEmails : list string;
  matchingPhones : list string;
  hasEmailMatch : bool;
  hasPhoneMatch : bool
}.

(** The values pushed by the loop of [findMatchingCriteria] for one field. *)
Definition pushMatches (field : Contact → option string) (v : JsField)
    (contacts' : list Contact) : list string :=
  fold_left
    (λ acc c, if truthyField v && strictEq (field c) v
              then acc ++ option_list (field c) else acc)
    contacts' [].

Definition findMatchingCriteria (contacts' : list Contact)
    (email' phoneNumber' : JsField) : MatchingCriteria :=
  let emails' := pushMatches email email' contacts' in
  let phones' := pushMatches phoneNumber phoneNumber' contacts' in
  {| matchingEmails := fold_left setAdd emails' [];
     matchingPhones := fold_left setAdd phones' [];
     hasEmailMatch := (0 <? Z.of_nat (length emails'));
     hasPhoneMatch := (0 <? Z.of_nat (length phones')) |}.

Record MergeDecision := mkDecision {
  shouldMerge : bool;
  reason : string;
  confidence : string
}.

Definition hasSharedEmail := ContactMatcher.hasSharedEmail.
Definition hasSharedPhone := ContactMatcher.hasSharedPhone.

Definition shouldMergePrimaryContacts (primary1 primary2 : Contact)
  : MergeDecision :=
  if bool_decide (id primary1 = id primary2) then
    {| shouldMerge := false; reason := "Same contact"; confidence := "high" |}
  else if hasSharedEmail primary1 primary2 then
    {| shouldMerge := true; reason := "Shared email address";
       confidence := "high" |}
  else if hasSharedPhone primary1 primary2 then
    {| shouldMerge := true; reason := "Shared phone number";
       confidence := "high" |}
  else
    {| shouldMerge := false; reason := "No shared contact information";
       confidence := "high" |}.

Record MatchScore := mkScore {
  score : Z;
  factors : list string;
  isExactMatch : bool
}.

Definition scoreContactMatch (c : Contact) (email' phoneNumber' : JsField)
  : MatchScore :=
  if strictEq (email c) email' && strictEq (phoneNumber c) phoneNumber' then
    {| score := 100; factors := ["Exact match: same email and phone"];
       isExactMatch := true |}
  else
    let s0 : Z * list string := (0, []) in
    let s1 :=
      if truthyField email' && strictEq (email c) email'
      then (fst s0 + 50, snd s0 ++ ["Email match"]) else s0 in
    let s2 :=
      if truthyField phoneNumber' && strictEq (phoneNumber c) phoneNumber'
      then (fst s1 + 50, snd s1 ++ ["Phone match"]) else s1 in
    let s3 :=
      if truthyField email' && negb (truthy (email c))
         && strictEq (phoneNumber c) phoneNumber'
      then (fst s2 + 30, snd s2 ++ ["Phone match with missing email"]) else s2 in
    let s4 :=
      if truthyField phoneNumber' && negb (truthy (phoneNumber c))
         && strictEq (email c) email'
      then (fst s3 + 30, snd s3 ++ ["Email match with missing phone"]) else s3 in
    {| score := fst s4; factors := snd s4; isExactMatch := false |}.

Record BestMatch := mkBest {
  bestMatch : option Contact;
  bestScore : Z;
  bestFactors : list string
}.

(** The body of the loop of [findBestMatch]. *)
Definition betterMatch (email' phoneNumber' : JsField)
    (best : BestMatch) (c : Contact) : BestMatch :=
  let m := scoreContactMatch c email' phoneNumber' in
  if bestScore best <? score m
  then {| bestMatch := Some c; bestScore := score m; bestFactors := factors m |}
  else best.

Definition findBestMatch (contacts' : list Contact)
    (email' phoneNumber' : JsField) : BestMatch :=
  match contacts' with
  | [] => {| bestMatch := None; bestScore := 0; bestFactors := [] |}
  | _ =>
      fold_left (betterMatch email' phoneNumber') contacts'
        {| bestMatch := None; bestScore := 0; bestFactors := [] |}
  end.

Record ChainValidation := mkValidation {
  isValid : bool;
  issues : list string;
  primaryCount : nat;
  orphanedSecondaries : list Contact
}.

(** [contacts.find(c => c.id === secondary.linkedId)] *)
Definition findLinked (contacts' : list Contact) (secondary : Contact)
  : option Contact :=
  List.find (λ c, bool_decide (Some (id c) = linkedId secondary)) contacts'.

Definition isOrphaned (contacts' : list Contact) (secondary : Contact) : bool :=
  match findLinked contacts' secondary with
  | None => true
  | Some linkedPrimary => negb (isPrimary linkedPrimary)
  end.

Definition isInvalidSecondary (contacts' : list Contact) (secondary : Contact)
  : bool :=
  match findLinked contacts' secondary with
  | None => false
  | Some linkedContact => isSecondary linkedContact
  end.

Definition validateContactChain (contacts' : list Contact) : ChainValidation :=
  let primaryContacts' := List.filter isPrimary contacts' in
  let secondaryContacts' := List.filter isSecondary contacts' in
  let primaryCount' := length primaryContacts' in
  let issues1 :=
    if (1 <? Z.of_nat primaryCount')
    then ["Multiple primary contacts found: " +:+ pretty primaryCount'] else [] in
  let orphaned := List.filter (isOrphaned contacts') secondaryContacts' in
  let issues2 :=
    if (0 <? Z.of_nat (length orphaned))
    then issues1 ++ ["Orphaned secondary contacts: " +:+ pretty (length orphaned)]
    else issues1 in
  let invalid := List.filter (isInvalidSecondary contacts') secondaryContacts' in
  let issues3 :=
    if (0 <? Z.of_nat (length invalid))
    then issues2 ++ ["Secondary contacts linked to other secondaries: "
                       +:+ pretty (length invalid)]
    else issues2 in
  {| isValid := bool_decide (issues3 = []);
     issues := issues3;
     primaryCount := primaryCount';
     orphanedSecondaries := orphaned |}.

End Matcher.

(** A [string | null] value as a request field. *)
Definition ofOption (o : option string) : JsField :=
  match o with
  | Some s => Str s
  | None => Null
  end.

(** ** EdgeCaseHandler (src/unnamed/part_004) *)

(** [v ?? null] on a request field. *)
Definition orNullish (v : JsField) : option string :=
  match v with
  | Str s => Some s
  | _ => None
  end.

Module EdgeCaseHandler.

Import ContactRepository ContactService.

(** The answer is [true] when no contact of the chain holds the combination,
    that is, when a new Secondary is needed. *)
Definition checkIfSpecificCombinationExists (primaryId : Z)
    (email' phoneNumber' : string) (st : Store) : bool :=
  negb (existsb (λ c, bool_decide (email c = Some email')
                      && bool_decide (phoneNumber c = Some phoneNumber'))
          (getAllLinkedContacts primaryId st)).

(** The two chains that the source reads before the merge are not used
    afterwards; reads do not fail, so only the merge, the test and the
    creation remain. *)
Definition handleCrossPrimaryScenario (now : Z)
    (emailFromPrimary1 phoneFromPrimary2 : Contact)
    (email' phoneNumber' : string) (st : Store)
  : DatabaseResult ConsolidatedContact * Store :=
  let olderPrimary :=
    if createdAt emailFromPrimary1 <=? createdAt phoneFromPrimary2
    then emailFromPrimary1 else phoneFromPrimary2 in
  let newerPrimary :=
    if bool_decide (id olderPrimary = id emailFromPrimary1)
    then phoneFromPrimary2 else emailFromPrimary1 in
  let '(mergeResult, st1) :=
    mergeContactChains now (id olderPrimary) (id newerPrimary) st in
  match mergeResult with
  | Failure _ => (Failure "Failed to merge primary contact chains", st1)
  | Success _ =>
      let st2 :=
        if checkIfSpecificCombinationExists (id olderPrimary)
             email' phoneNumber' st1
        then snd (createSecondaryContact now (id olderPrimary)
                    (Some email') (Some phoneNumber') st1)
        else st1 in
      (consolidateContactInfo (id olderPrimary) st2, st2)
  end.

(** "This is simplified": only the Primaries are returned. *)
Definition getAllContacts (st : Store) : list Contact :=
  Repository.findPrimaryContacts st.

(** The [while (currentId && !visited.has(currentId))] loop of
    [hasCircularReference].  Every turn that goes on adds the id of a contact
    of [allContacts] to [visited]; [fuel] bounds the number of turns. *)
Fixpoint followLinks (fuel : nat) (contact : Contact)
    (allContacts : list Contact) (visited : gset Z) (currentId : option Z)
  : bool :=
  match fuel with
  | O => false
  | S fuel' =>
      match currentId with
      | None => false
      | Some i =>
          if bool_decide (i = 0) || bool_decide (i ∈ visited) then false
          else
            match List.find (λ c, bool_decide (id c = i)) allContacts with
            | None => false
            | Some linkedContact =>
                if bool_decide (id linkedContact = id contact) then true
                else followLinks fuel' contact allContacts ({[ i ]} ∪ visited)
                       (linkedId linkedContact)
            end
      end
  end.

(** One turn more than there are contacts is enough. *)
Definition hasCircularReference (contact : Contact)
    (allContacts : list Contact) : bool :=
  match linkedId contact with
  | None => false
  | Some l =>
      if bool_decide (l = 0) then false
      else followLinks (S (length allContacts)) contact allContacts ∅ (Some l)
  end.

Definition promoteUpdate : UpdateContactInput :=
  {| u_phoneNumber := None; u_email := None;
     u_linkedId := Some None; u_linkPrecedence := Some PRIMARY |}.

Definition fixCircularReference (now : Z) (contact : Contact) (st : Store)
  : DatabaseResult Contact * Store :=
  updateContactLinkage now (id contact) promoteUpdate st.

Record CircularReferences := mkCircular {
  circularReferencesFound : Z;
  circularReferencesFixed : Z
}.

(** The body of the [for (const secondary of secondaryContacts)] loop. *)
Definition circularStep (now : Z) (allContacts : list Contact)
    (acc : CircularReferences * Store) (secondary : Contact)
  : CircularReferences * Store :=
  if hasCircularReference secondary allContacts then
    let '(fixResult, st') := fixCircularReference now secondary (snd acc) in
    ({| circularReferencesFound := circularReferencesFound (fst acc) + 1;
        circularReferencesFixed :=
          match fixResult with
          | Success _ => circularReferencesFixed (fst acc) + 1
          | Failure _ => circularReferencesFixed (fst acc)
          end |}, st')
  else acc.

Definition handleCircularReferences (now : Z) (st : Store)
  : DatabaseResult CircularReferences * Store :=
  let allContacts := getAllContacts st in
  let secondaryContacts' := List.filter isSecondary allContacts in
  let '(report, st') :=
    fold_left (circularStep now allContacts) secondaryContacts'
      ({| circularReferencesFound := 0; circularReferencesFixed := 0 |}, st) in
  (Success report, st').

Definition findPrimaryInChain (contact : Contact) (st : Store)
  : option Contact :=
  if isPrimary contact then Some contact
  else
    match linkedId contact with
    | Some l =>
        if bool_decide (l = 0) then None else Repository.findContactById l st
    | None => None
    end.

Definition emailConflict (existingContact : Contact) (newEmail : JsField)
  : bool :=
  truthy (email existingContact) && truthyField newEmail
  && negb (strictEq (email existingContact) newEmail).

Definition phoneConflict (existingContact : Contact) (newPhoneNumber : JsField)
  : bool :=
  truthy (phoneNumber existingContact) && truthyField newPhoneNumber
  && negb (strictEq (phoneNumber existingContact) newPhoneNumber).

Record ConflictResolution := mkResolution {
  conflictResolved : bool;
  strategy : string;
  resultingContact : Contact
}.

Definition handleConflictingInformation (now : Z) (existingContact : Contact)
    (newEmail newPhoneNumber : JsField) (st : Store)
  : DatabaseResult ConflictResolution * Store :=
  if negb (emailConflict existingContact newEmail)
     && negb (phoneConflict existingContact newPhoneNumber)
  then
    (Success {| conflictResolved := true; strategy := "no_conflict";
                resultingContact := existingContact |}, st)
  else
    match findPrimaryInChain existingContact st with
    | None =>
        (Failure "Cannot find primary contact for conflict resolution", st)
    | Some primaryContact' =>
        let '(secondaryResult, st') :=
          createSecondaryContact now (id primaryContact')
            (orNullish newEmail) (orNullish newPhoneNumber) st in
        match secondaryResult with
        | Success c =>
            (Success {| conflictResolved := true;
                        strategy := "secondary_contact_created";
                        resultingContact := c |}, st')
        | Failure _ =>
            (Failure "Unable to resolve conflicting information", st')
        end
    end.

End EdgeCaseHandler.

(** The contact that [linkedId] = [o] leads to within [allContacts], and the
    contact reached after [n] further hops. *)
Definition linkedOf (allContacts : list Contact) (o : option Z)
  : option Contact :=
  match o with
  | Some i =>
      if bool_decide (i = 0) then None
      else List.find (λ c, bool_decide (id c = i)) allContacts
  | None => None
  end.

Fixpoint walk (allContacts : list Contact) (n : nat) (start : option Z)
  : option Contact :=
  match linkedOf allContacts start with
  | None => None
  | Some d =>
      match n with
      | O => Some d
      | S n' => walk allContacts n' (linkedId d)
      end
  end.

(** Following [linkedId] from [contact] leads back to a contact with its id. *)
Definition leadsBack (allContacts : list Contact) (contact : Contact) : Prop :=
  ∃ n d, walk allContacts n (linkedId contact) = Some d ∧ id d = id contact.

(** ** DatabaseUtils: the integrity checks (src/src/services/DatabaseUtils.ts) *)

Module DatabaseUtils.

Import ContactRepository.

(** Modelled from the spec: the relation [linkedContact] of the Prisma model
    resolves [linkedId] to the row with that id (section 3: the [linkedId] of
    a Secondary references the id of a contact), soft-deleted or not. *)
Definition linkedContact (st : Store) (c : Contact) : option Contact :=
  match linkedId c with
  | None => None
  | Some l => List.find (λ d, bool_decide (id d = l)) (rows st)
  end.

(** [where: { linkPrecedence: SECONDARY, deletedAt: null, linkedContact: null }] *)
Definition isOrphanedSecondary (st : Store) (c : Contact) : bool :=
  isSecondary c && active c && bool_decide (linkedContact st c = None).

(** [where: { linkPrecedence: SECONDARY, deletedAt: null,
              linkedContact: { linkPrecedence: SECONDARY } }] *)
Definition isLinkedToSecondary (st : Store) (c : Contact) : bool :=
  isSecondary c && active c
  && match linkedContact st c with
     | Some d => isSecondary d
     | None => false
     end.

(** [where: { email: null, phoneNumber: null, deletedAt: null }] *)
Definition isEmptyContact (c : Contact) : bool :=
  bool_decide (email c = None) && bool_decide (phoneNumber c = None) && active c.

Record IntegrityReport := mkIntegrity {
  isValid : bool;
  issues : list string
}.

Definition validateDatabaseIntegrity (st : Store) : IntegrityReport :=
  let orphanedSecondaries := List.filter (isOrphanedSecondary st) (rows st) in
  let issues1 :=
    if (0 <? Z.of_nat (length orphanedSecondaries))
    then ["Found " +:+ pretty (length orphanedSecondaries)
            +:+ " orphaned secondary contact(s)"]
    else [] in
  let invalidLinkedContacts := List.filter (isLinkedToSecondary st) (rows st) in
  let issues2 :=
    if (0 <? Z.of_nat (length invalidLinkedContacts))
    then issues1 ++ ["Found " +:+ pretty (length invalidLinkedContacts)
            +:+ " secondary contact(s) linked to other secondary contacts"]
    else issues1 in
  let emptyContacts := List.filter isEmptyContact (rows st) in
  let issues3 :=
    if (0 <? Z.of_nat (length emptyContacts))
    then issues2 ++ ["Found " +:+ pretty (length emptyContacts)
            +:+ " contact(s) with both email and phone number null"]
    else issues2 in
  {| isValid := bool_decide (issues3 = []); issues := issues3 |}.

(** [updateMany]: every orphaned Secondary becomes a Primary without link;
    the answer is the number of rows written. *)
Definition fixOrphanedSecondaryContacts (now : Z) (st : Store) : Z * Store :=
  (Z.of_nat (length (List.filter (isOrphanedSecondary st) (rows st))),
   {| rows := map (λ c, if isOrphanedSecondary st c
                        then applyUpdate now EdgeCaseHandler.promoteUpdate c
                        else c) (rows st);
      nextId := nextId st |}).

End DatabaseUtils.

(** ** The rate limiter (src/unnamed/part_001) *)

Module Middleware.

Record ClientRequests := mkClient {
  count : Z;
  resetTime : Z
}.

Definition WINDOW_SIZE : Z := 60 * 1000.
Definition MAX_REQUESTS : Z := 100.

(** The [Map] of the closure; the result tells whether [next()] is called
    (otherwise the answer is 429). *)
Definition rateLimiter (clientIP : string) (now : Z)
    (requests : gmap string ClientRequests) : bool * gmap string ClientRequests :=
  match requests !! clientIP with
  | None =>
      (true, <[clientIP := {| count := 1; resetTime := now + WINDOW_SIZE |}]>
               requests)
  | Some clientRequests =>
      if resetTime clientRequests <? now then
        (true, <[clientIP := {| count := 1; resetTime := now + WINDOW_SIZE |}]>
                 requests)
      else if MAX_REQUESTS <=? count clientRequests then (false, requests)
      else
        (true, <[clientIP := {| count := count clientRequests + 1;
                                resetTime := resetTime clientRequests |}]>
                 requests)
  end.

End Middleware.

(** The requests of a client among [events] that the rate limiter lets
    through, starting with the map [requests]. *)
Fixpoint passed (clientIP : string) (events : list (string * Z))
    (requests : gmap string Middleware.ClientRequests) : nat :=
  match events with
  | [] => 0
  | (ip, now) :: events' =>
      let '(ok, requests') := Middleware.rateLimiter ip now requests in
      ((if ok && bool_decide (ip = clientIP) then 1 else 0)
       + passed clientIP events' requests')%nat
  end.

(** The number of requests of a client among [events]. *)
Definition requestsOf (clientIP : string) (events : list (string * Z)) : nat :=
  length (List.filter (λ ev, bool_decide (fst ev = clientIP)) events).

(** The row that [fixOrphanedSecondaryContacts] leaves in the place of [c]. *)
Definition promoted (now : Z) (st : Store) (c : Contact) : Contact :=
  if DatabaseUtils.isOrphanedSecondary st c
  then ContactRepository.applyUpdate now EdgeCaseHandler.promoteUpdate c else c.

(** ** A store that [identify] builds from the empty table *)

Module Reached.

Definition emptyStore : Store := {| rows := []; nextId := 1 |}.

Definition requestA1 : IdentifyRequest :=
  {| reqEmail := Str "a"; reqPhoneNumber := Str "1" |}.

Definition requestA3 : IdentifyRequest :=
  {| reqEmail := Str "a"; reqPhoneNumber := Str "3" |}.

(** (a,1) creates the Primary 1, (a,3) adds the Secondary 2 under it, (b,2)
    creates the Primary 3, and (a,2) merges the chain of 3 into the chain of
    1: the contact 3 is demoted and keeps its pair (b,2). *)
Definition calls : list (Z * IdentifyRequest) :=
  [(100, requestA1); (200, requestA3); (300, Examples.requestB2);
   (400, Examples.requestA2)].

Definition demotedStore : Store := identifySequence calls emptyStore.

Definition contact1 : Contact :=
  {| id := 1; phoneNumber := Some "1"; email := Some "a"; linkedId := None;
     linkPrecedence := PRIMARY; createdAt := 100; updatedAt := 100;
     deletedAt := None |}.

Definition contact2 : Contact :=
  {| id := 2; phoneNumber := Some "3"; email := Some "a"; linkedId := Some 1;
     linkPrecedence := SECONDARY; createdAt := 200; updatedAt := 200;
     deletedAt := None |}.

Definition contact3 : Contact :=
  {| id := 3; phoneNumber := Some "2"; email := Some "b"; linkedId := Some 1;
     linkPrecedence := SECONDARY; createdAt := 300; updatedAt := 400;
     deletedAt := None |}.

End Reached.

(** ** Assumptions on the database

    The operations above describe the table for the requests that the
    database accepts: an id within the range of the [Int] column, a
    [linkedId] that is null or the id of a stored row (the foreign key), and
    a connection that does not fail.  In the other cases the repository
    returns a failure, which is not modelled.  Rows with equal [createdAt]
    are returned in insertion order, where the database leaves their order
    open. *)

(** Modelled from the spec: the [id] column of the Prisma [Contact] model is
    an [Int] (section 3: ids are unique and grow with the creation order).
    The database client rejects a query whose id is outside the 32-bit range,
    and the repository reports this as a failure; the operations above are
    the behaviour for the ids that the column can hold. *)
Definition validId (i : Z) : Prop := -2147483648 ≤ i ≤ 2147483647.

(** * Properties *)

Import ContactRepository ContactService IdentityService.

(** ** Branch A without request fields *)

(** C10. When [identifyContact] is invoked with both [email] and
    [phoneNumber] absent (undefined, null or empty), the candidate query
    returns the empty list, the no-match branch runs, and the call succeeds
    after appending a new Primary whose email and phoneNumber are both null:
    the core does not enforce that at least one field is present. *)
Theorem identify_without_fields_creates_empty_primary now request st :
  orNull (reqEmail request) = None →
  orNull (reqPhoneNumber request) = None →
  findContactsByEmailOrPhone
    (orNull (reqEmail request)) (orNull (reqPhoneNumber request)) st = []
  ∧ identifyContact now request st = handleNoExistingContacts now None None st
  ∧ identifyContact now request st =
      (Success {| contact := {| primaryContactId := nextId st; emails := [];
                                phoneNumbers := []; secondaryContactIds := [] |} |},
       {| rows := rows st ++ [newRow now st None None None PRIMARY];
          nextId := nextId st + 1 |}).
Proof.
  intros He Hp.
  unfold identifyContact, findExistingContacts.
  rewrite He, Hp. simpl.
  repeat split; reflexivity.
Qed.

Lemma identify_without_fields_creates_empty_primary_witness :
  identifyContact 500 Examples.noFields Examples.twoChains =
    (Success {| contact := {| primaryContactId := 4; emails := [];
                              phoneNumbers := []; secondaryContactIds := [] |} |},
     {| rows := rows Examples.twoChains
                ++ [newRow 500 Examples.twoChains None None None PRIMARY];
        nextId := 5 |}).
Proof.
  apply (identify_without_fields_creates_empty_primary 500 Examples.noFields
           Examples.twoChains); reflexivity.
Defined.

(** ** Evaluation on concrete stores *)

(** C1. On the store with the two Primaries (a,1) and (b,2), the request
    (a,2) is served by the single-primary branch: the oldest Primary is set
    and no candidate is a Secondary.  A Secondary (a,2) is appended under
    the first Primary, the second Primary stays a Primary, and "b" is not in
    the response. *)
Theorem cross_primary_request_is_not_merged now :
  let result := identifyContact now Examples.requestA2 Examples.twoPrimaries in
  fst result =
    Success {| contact := {| primaryContactId := 1; emails := ["a"];
                             phoneNumbers := ["1"; "2"];
                             secondaryContactIds := [3] |} |}
  ∧ rows (snd result) =
      [Examples.primary1; Examples.primary2;
       newRow now Examples.twoPrimaries (Some "a") (Some "2") (Some 1) SECONDARY]
  ∧ hasMultiplePrimaryContacts
      (contacts (findExistingContacts (Some "a") (Some "2") Examples.twoPrimaries))
    = true.
Proof. repeat split. Qed.

(** C2. The store [twoChains] satisfies the chain invariants; after one
    [identify] call that merges the chain of the second Primary into the
    first, the re-pointed Secondary is marked Primary and the chain of the
    first Primary holds two Primaries. *)
Theorem merge_breaks_chain_invariants now :
  chainInvariants Examples.twoChains = true
  ∧ rows (identifySequence [(now, Examples.requestA2)] Examples.twoChains) =
      [Examples.primary1;
       applyUpdate now (mkUpdate None None (Some (Some 1)) (Some SECONDARY))
         Examples.primary2;
       applyUpdate now (mkUpdate None None (Some (Some 1)) (Some PRIMARY))
         Examples.secondary3]
  ∧ chainInvariants (identifySequence [(now, Examples.requestA2)] Examples.twoChains)
    = false.
Proof. repeat split. Qed.

(** ** The rows written by a merge *)

Lemma updateContactLinkage_rows now i u st :
  rows (snd (updateContactLinkage now i u st)) = updateRows now i u (rows st).
Proof.
  unfold updateContactLinkage, updateRows.
  destruct (List.find _ (rows st)) eqn:Hfind; simpl; [reflexivity|].
  symmetry. erewrite map_ext_in; [apply map_id|].
  intros d Hd. simpl.
  pose proof (find_none _ _ Hfind d Hd) as Hnone. simpl in Hnone.
  by rewrite Hnone.
Qed.

Lemma applyUpdate_id now u d : id (applyUpdate now u d) = id d.
Proof. reflexivity. Qed.

Lemma relinkStep_rows now o n acc c :
  rows (snd (relinkStep now o n acc c)) =
    map (relinkRow now o n [c]) (rows (snd acc)).
Proof.
  unfold relinkStep, relinkRow. fold (relinked n c). fold (relinkUpdate o).
  destruct (relinked n c) eqn:Hrel; simpl.
  - destruct (updateContactLinkage now (id c) (relinkUpdate o) (snd acc))
      as [r st'] eqn:Hupd. simpl.
    replace st' with (snd (updateContactLinkage now (id c) (relinkUpdate o) (snd acc)))
      by (by rewrite Hupd).
    rewrite updateContactLinkage_rows. unfold updateRows.
    apply map_ext. intros d.
    rewrite orb_false_r.
    destruct (decide (id d = id c)) as [Heq|Hne].
    + rewrite !bool_decide_eq_true_2 by done. by rewrite Hrel.
    + rewrite !bool_decide_eq_false_2 by done. by rewrite Hrel.
  - symmetry. erewrite map_ext; [apply map_id|].
    intros d. simpl. by rewrite Hrel.
Qed.

Lemma relinkLoop_rows now o n chain acc :
  rows (snd (fold_left (relinkStep now o n) chain acc)) =
    map (relinkRow now o n chain) (rows (snd acc)).
Proof.
  revert acc. induction chain as [|c chain IH]; intros acc; simpl.
  - symmetry. apply map_id.
  - rewrite IH, relinkStep_rows, map_map.
    apply map_ext. intros d. unfold relinkRow. simpl.
    rewrite orb_false_r.
    destruct (relinked n c && bool_decide (id c = id d)) eqn:Hc; simpl.
    + destruct (existsb _ chain); reflexivity.
    + reflexivity.
Qed.

Lemma mergeContactChains_rows now o n st :
  rows (snd (mergeContactChains now o n st)) =
    map (λ d, relinkRow now o n (getAllLinkedContacts n st)
                (demoteRow now o n (getAllLinkedContacts n st) d))
      (rows st).
Proof.
  unfold mergeContactChains.
  set (chain := getAllLinkedContacts n st).
  set (start := match List.find _ chain with Some _ => _ | None => _ end).
  destruct (fold_left (relinkStep now o n) chain start) as [upd st''] eqn:Hloop.
  simpl.
  replace st'' with (snd (fold_left (relinkStep now o n) chain start))
    by (by rewrite Hloop).
  rewrite relinkLoop_rows.
  assert (Hstart : rows (snd start) = map (demoteRow now o n chain) (rows st)).
  { unfold start, demoteRow.
    destruct (List.find _ chain) as [c|] eqn:Hfind.
    - assert (Hex : existsb (λ c, bool_decide (id c = n)) chain = true).
      { apply existsb_exists. exists c.
        apply find_some in Hfind. exact Hfind. }
      rewrite Hex. simpl.
      unfold convertPrimaryToSecondary. fold (demoteUpdate o).
      destruct (updateContactLinkage now n (demoteUpdate o) st) as [r st'] eqn:Hupd.
      simpl.
      replace st' with (snd (updateContactLinkage now n (demoteUpdate o) st))
        by (by rewrite Hupd).
      by rewrite updateContactLinkage_rows.
    - assert (Hex : existsb (λ c, bool_decide (id c = n)) chain = false).
      { apply not_true_is_false. intros Hex.
        apply existsb_exists in Hex as (c & Hc & Hid).
        by rewrite (find_none _ _ Hfind c Hc) in Hid. }
      rewrite Hex. simpl. symmetry. apply map_id. }
  rewrite Hstart, map_map. reflexivity.
Qed.

(** ** Sorting keeps the elements *)

Lemma insertSorted_Permutation {A} (le : A → A → bool) x l :
  Permutation (insertSorted le x l) (x :: l).
Proof.
  induction l as [|y l IH]; simpl; [reflexivity|].
  destruct (le x y); [reflexivity|].
  rewrite IH. apply perm_swap.
Qed.

Lemma sortBy_Permutation {A} (le : A → A → bool) l :
  Permutation (sortBy le l) l.
Proof.
  induction l as [|x l IH]; simpl; [reflexivity|].
  rewrite insertSorted_Permutation. by constructor.
Qed.

Lemma In_sortBy {A} (le : A → A → bool) l x : In x (sortBy le l) ↔ In x l.
Proof.
  split; apply Permutation_in;
    [apply sortBy_Permutation | symmetry; apply sortBy_Permutation].
Qed.

(** ** Chains *)

Lemma findUnique_Some i st c :
  findUnique i st = Some c → In c (rows st) ∧ id c = i ∧ active c = true.
Proof.
  unfold findUnique. intros H. apply find_some in H as [Hin Hc].
  apply andb_true_iff in Hc as [Hid Hact].
  apply bool_decide_eq_true in Hid. done.
Qed.

Lemma chain_subset i st d :
  In d (getAllLinkedContacts i st) → In d (rows st).
Proof.
  unfold getAllLinkedContacts.
  destruct (findUnique i st) as [c|] eqn:Hc; [|done].
  apply findUnique_Some in Hc as (Hin & _ & _).
  assert (Hone : In d [c] → In d (rows st)) by (intros [<-|[]]; done).
  destruct (linkPrecedence c); simpl.
  - case_bool_decide; [done|].
    rewrite In_sortBy, filter_In. tauto.
  - destruct (linkedId c) as [p|]; [|done].
    case_bool_decide; [done|].
    rewrite In_sortBy, filter_In. tauto.
Qed.

Lemma chain_of_primary i st p d :
  findUnique i st = Some p → linkPrecedence p = PRIMARY → i ≠ 0 →
  In d (getAllLinkedContacts i st) ↔
    In d (rows st) ∧ active d = true ∧ (id d = i ∨ linkedId d = Some i).
Proof.
  intros Hp Hprim Hi. unfold getAllLinkedContacts. rewrite Hp, Hprim.
  apply findUnique_Some in Hp as (_ & Hid & _). simpl. rewrite Hid.
  rewrite bool_decide_eq_false_2 by done.
  rewrite In_sortBy, filter_In, andb_true_iff, orb_true_iff,
    !bool_decide_eq_true.
  tauto.
Qed.

Lemma primary_in_own_chain i st p :
  findUnique i st = Some p → linkPrecedence p = PRIMARY →
  In p (getAllLinkedContacts i st).
Proof.
  intros Hp Hprim.
  destruct (decide (i = 0)) as [Hi|Hi].
  - unfold getAllLinkedContacts. rewrite Hp, Hprim.
    apply findUnique_Some in Hp as (_ & Hid & _). simpl.
    rewrite bool_decide_eq_true_2 by congruence. by left.
  - rewrite (chain_of_primary i st p p Hp Hprim Hi).
    apply findUnique_Some in Hp. tauto.
Qed.

(** ** Rows and ids *)

Lemma uniqueIds_eq st c d :
  uniqueIds st → In c (rows st) → In d (rows st) → id c = id d → c = d.
Proof.
  unfold uniqueIds. induction (rows st) as [|x l IH]; simpl; [done|].
  intros Hnd [->|Hc] [->|Hd] Heq; inversion Hnd as [|? ? Hx Hl]; subst.
  - done.
  - exfalso. apply Hx. rewrite Heq. by apply list_elem_of_In, in_map.
  - exfalso. apply Hx. rewrite <- Heq. by apply list_elem_of_In, in_map.
  - by apply IH.
Qed.

Lemma lookupId_map (f : Contact → Contact) i st st' :
  (∀ d, id (f d) = id d) → rows st' = map f (rows st) →
  lookupId i st' = f <$> lookupId i st.
Proof.
  intros Hf Hrows. unfold lookupId. rewrite Hrows. clear Hrows.
  induction (rows st) as [|x l IH]; simpl; [done|].
  rewrite Hf. destruct (bool_decide (id x = i)); [done|apply IH].
Qed.

Lemma lookupId_unique st c :
  uniqueIds st → In c (rows st) → lookupId (id c) st = Some c.
Proof.
  intros Hu Hin. unfold lookupId.
  destruct (List.find _ (rows st)) as [d|] eqn:Hfind.
  - apply find_some in Hfind as [Hd Hid].
    apply bool_decide_eq_true in Hid.
    f_equal. by apply (uniqueIds_eq st).
  - pose proof (find_none _ _ Hfind c Hin) as Hnone. simpl in Hnone.
    by rewrite bool_decide_eq_true_2 in Hnone.
Qed.

Lemma mergeRow_id now o n chain d :
  id (relinkRow now o n chain (demoteRow now o n chain d)) = id d.
Proof.
  unfold relinkRow, demoteRow.
  repeat (match goal with |- context [if ?b then _ else _] => destruct b end);
    reflexivity.
Qed.

(** ** mergeContactChains: what is written *)

Lemma merged_lookup now o n st c :
  uniqueIds st → In c (rows st) →
  lookupId (id c) (snd (mergeContactChains now o n st)) =
    Some (relinkRow now o n (getAllLinkedContacts n st)
            (demoteRow now o n (getAllLinkedContacts n st) c)).
Proof.
  intros Hu Hin.
  rewrite (lookupId_map _ (id c) st _ (mergeRow_id now o n _)
             (mergeContactChains_rows now o n st)).
  by rewrite lookupId_unique.
Qed.

Lemma not_relinked_by_id now o n chain d :
  (∀ c, In c chain → id c = id d → relinked n c = false) →
  relinkRow now o n chain d = d.
Proof.
  intros H. unfold relinkRow.
  destruct (existsb _ chain) eqn:Hex; [|done].
  apply existsb_exists in Hex as (c & Hc & Hb).
  apply andb_true_iff in Hb as [Hrel Hid].
  apply bool_decide_eq_true in Hid.
  by rewrite (H c Hc Hid) in Hrel.
Qed.

Lemma not_demoted now o n chain d : id d ≠ n → demoteRow now o n chain d = d.
Proof.
  intros Hne. unfold demoteRow.
  rewrite (bool_decide_eq_false_2 _ Hne). by rewrite andb_false_r.
Qed.

(** C3, counterexample.  In [corruptedChain] the row 4 is linked to the newer
    Primary 2 and marked Primary: the merge of 2 into 1 leaves it linked to 2
    and marked Primary. *)
Lemma merge_does_not_force_secondary :
  ¬ mergeForcesSecondary 500 1 2 Examples.corruptedChain.
Proof.
  intros [_ H].
  destruct (H Examples.marked4) as (c' & Hlook & Hlink & _).
  - apply list_elem_of_In. simpl. tauto.
  - reflexivity.
  - reflexivity.
  - vm_compute in Hlook. inversion Hlook; subst c'. discriminate Hlink.
Qed.

(** C3, amended.  For [newerPrimaryId] the id of an active Primary,
    [mergeContactChains] demotes that contact to a Secondary with
    [linkedId = olderPrimaryId], keeping its other columns; it sets
    [linkedId = olderPrimaryId] on every active contact marked Secondary whose
    [linkedId] is [newerPrimaryId], keeping email and phone number; and it
    leaves every other contact marked Primary exactly as it was, so a record
    marked Primary is not forced to Secondary. *)
Theorem merge_demotes_and_repoints now o n st p :
  uniqueIds st →
  findUnique n st = Some p →
  linkPrecedence p = PRIMARY →
  n ≠ 0 →
  let st' := snd (mergeContactChains now o n st) in
  (∃ p', lookupId n st' = Some p'
         ∧ linkPrecedence p' = SECONDARY ∧ linkedId p' = Some o
         ∧ email p' = email p ∧ phoneNumber p' = phoneNumber p
         ∧ createdAt p' = createdAt p)
  ∧ (∀ c, c ∈ rows st → active c = true → linkPrecedence c = SECONDARY →
          linkedId c = Some n →
          ∃ c', lookupId (id c) st' = Some c' ∧ linkedId c' = Some o
                ∧ email c' = email c ∧ phoneNumber c' = phoneNumber c
                ∧ createdAt c' = createdAt c)
  ∧ (∀ c, c ∈ rows st → linkPrecedence c = PRIMARY → id c ≠ n →
          lookupId (id c) st' = Some c).
Proof.
  intros Hu Hp Hprim Hn st'.
  pose proof (findUnique_Some _ _ _ Hp) as (Hpin & Hpid & Hpact).
  pose proof (primary_in_own_chain _ _ _ Hp Hprim) as Hpchain.
  repeat split.
  - exists (applyUpdate now (demoteUpdate o) p).
    unfold st'. rewrite <- Hpid at 1.
    rewrite (merged_lookup now o n st p Hu Hpin).
    assert (Hdem : demoteRow now o n (getAllLinkedContacts n st) p
                   = applyUpdate now (demoteUpdate o) p).
    { unfold demoteRow.
      replace (existsb _ (getAllLinkedContacts n st)) with true.
      - by rewrite bool_decide_eq_true_2.
      - symmetry. apply existsb_exists. exists p. split; [done|].
        by apply bool_decide_eq_true. }
    rewrite Hdem, not_relinked_by_id; [done|].
    intros c _ Hid. unfold relinked.
    rewrite bool_decide_eq_true_2; [done|]. by rewrite Hid.
  - intros c Hc Hact Hsec Hlink. apply list_elem_of_In in Hc.
    assert (Hne : id c ≠ n).
    { intros Heq. rewrite <- Hpid in Heq.
      assert (c = p) by by apply (uniqueIds_eq st).
      congruence. }
    exists (applyUpdate now (relinkUpdate o) c).
    unfold st'. rewrite (merged_lookup now o n st c Hu Hc).
    rewrite not_demoted by done.
    unfold relinkRow.
    replace (existsb _ (getAllLinkedContacts n st)) with true; [done|].
    symmetry. apply existsb_exists. exists c. split.
    + apply (chain_of_primary n st p c Hp Hprim Hn). tauto.
    + unfold relinked, isSecondary.
      rewrite (bool_decide_eq_false_2 _ Hne).
      by rewrite !bool_decide_eq_true_2.
  - intros c Hc Hcprim Hne. apply list_elem_of_In in Hc.
    unfold st'. rewrite (merged_lookup now o n st c Hu Hc).
    rewrite not_demoted by done.
    rewrite not_relinked_by_id; [done|].
    intros d Hd Hid.
    assert (d = c) as ->.
    { apply (uniqueIds_eq st); [done| |done|done]. by apply chain_subset in Hd. }
    unfold relinked, isSecondary.
    rewrite (bool_decide_eq_false_2 (linkPrecedence c = SECONDARY)) by congruence.
    apply andb_false_r.
Qed.

Lemma merge_demotes_and_repoints_witness :
  let st' := snd (mergeContactChains 500 1 2 Examples.corruptedChain) in
  (∃ p', lookupId 2 st' = Some p'
         ∧ linkPrecedence p' = SECONDARY ∧ linkedId p' = Some 1
         ∧ email p' = Some "b" ∧ phoneNumber p' = Some "2"
         ∧ createdAt p' = 200)
  ∧ (∀ c, c ∈ rows Examples.corruptedChain → active c = true →
          linkPrecedence c = SECONDARY → linkedId c = Some 2 →
          ∃ c', lookupId (id c) st' = Some c' ∧ linkedId c' = Some 1
                ∧ email c' = email c ∧ phoneNumber c' = phoneNumber c
                ∧ createdAt c' = createdAt c)
  ∧ (∀ c, c ∈ rows Examples.corruptedChain → linkPrecedence c = PRIMARY →
          id c ≠ 2 → lookupId (id c) st' = Some c).
Proof.
  apply (merge_demotes_and_repoints 500 1 2 Examples.corruptedChain
           Examples.primary2).
  - apply (bool_decide_unpack _). vm_compute. exact I.
  - reflexivity.
  - reflexivity.
  - lia.
Defined.

(** ** mergeContactChains: what is left alone *)

Lemma merged_row_at now o n st k c :
  rows st !! k = Some c →
  rows (snd (mergeContactChains now o n st)) !! k =
    Some (relinkRow now o n (getAllLinkedContacts n st)
            (demoteRow now o n (getAllLinkedContacts n st) c)).
Proof.
  intros Hk. rewrite mergeContactChains_rows.
  rewrite list_lookup_fmap. by rewrite Hk.
Qed.

Lemma untouched_outside_chain now o n st c :
  uniqueIds st → In c (rows st) → ¬ In c (getAllLinkedContacts n st) →
  relinkRow now o n (getAllLinkedContacts n st)
    (demoteRow now o n (getAllLinkedContacts n st) c) = c.
Proof.
  intros Hu Hc Hout.
  assert (Hids : ∀ d, In d (getAllLinkedContacts n st) → id d ≠ id c).
  { intros d Hd Hid. apply Hout.
    replace c with d; [done|].
    apply (uniqueIds_eq st); [done| |done|done]. by apply chain_subset in Hd. }
  assert (Hdem : demoteRow now o n (getAllLinkedContacts n st) c = c).
  { unfold demoteRow.
    destruct (existsb _ (getAllLinkedContacts n st)) eqn:Hex; [|done].
    apply existsb_exists in Hex as (d & Hd & Hid).
    apply bool_decide_eq_true in Hid.
    rewrite bool_decide_eq_false_2; [done|].
    intros Heq. apply (Hids d Hd). congruence. }
  rewrite Hdem. apply not_relinked_by_id.
  intros d Hd Hid. by destruct (Hids d Hd).
Qed.

(** C9.  For distinct ids, [newerPrimaryId] being the id of an active
    Primary, [mergeContactChains] keeps the number of rows and writes only
    rows of the chain returned for the newer Primary: every row outside that
    chain is left as it was, and so are the older Primary's own record and
    every Secondary linked to the older Primary. *)
Theorem merge_writes_only_newer_chain now o n st p :
  uniqueIds st →
  findUnique n st = Some p →
  linkPrecedence p = PRIMARY →
  o ≠ n →
  let st' := snd (mergeContactChains now o n st) in
  length (rows st') = length (rows st)
  ∧ (∀ k c, rows st !! k = Some c → c ∉ getAllLinkedContacts n st →
            rows st' !! k = Some c)
  ∧ (∀ k c, rows st !! k = Some c → id c = o → linkPrecedence c = PRIMARY →
            rows st' !! k = Some c)
  ∧ (∀ k c, rows st !! k = Some c → linkPrecedence c = SECONDARY →
            linkedId c = Some o → rows st' !! k = Some c).
Proof.
  intros Hu Hp Hprim Hon st'.
  pose proof (findUnique_Some _ _ _ Hp) as (Hpin & Hpid & Hpact).
  assert (Hin : ∀ k c, rows st !! k = Some c → In c (rows st)).
  { intros k c Hk. apply list_elem_of_In. by eapply list_elem_of_lookup_2. }
  repeat split.
  - unfold st'. rewrite mergeContactChains_rows. apply length_map.
  - intros k c Hk Hout. unfold st'.
    rewrite (merged_row_at now o n st k c Hk).
    rewrite untouched_outside_chain; [done|done|by eapply Hin|].
    intros Hc. apply Hout. by apply list_elem_of_In.
  - intros k c Hk Hid Hcprim. unfold st'.
    rewrite (merged_row_at now o n st k c Hk).
    rewrite not_demoted by congruence.
    rewrite not_relinked_by_id; [done|].
    intros d Hd Hdid.
    assert (d = c) as ->.
    { apply (uniqueIds_eq st); [done| |by eapply Hin|done].
      by apply chain_subset in Hd. }
    unfold relinked, isSecondary.
    rewrite (bool_decide_eq_false_2 (linkPrecedence c = SECONDARY)) by congruence.
    apply andb_false_r.
  - intros k c Hk Hsec Hlink. unfold st'.
    rewrite (merged_row_at now o n st k c Hk).
    rewrite untouched_outside_chain; [done|done|by eapply Hin|].
    intros Hc.
    destruct (decide (n = 0)) as [Hn|Hn].
    + unfold getAllLinkedContacts in Hc. rewrite Hp, Hprim in Hc.
      simpl in Hc. rewrite bool_decide_eq_true_2 in Hc by congruence.
      destruct Hc as [<-|[]]. congruence.
    + apply (chain_of_primary n st p c Hp Hprim Hn) in Hc
        as (Hcin & _ & [Hid|Hl]).
      * assert (c = p) by (apply (uniqueIds_eq st); [done|done|done|congruence]).
        congruence.
      * congruence.
Qed.

Lemma merge_writes_only_newer_chain_witness :
  let st' := snd (mergeContactChains 500 1 2 Examples.bothChains) in
  length (rows st') = length (rows Examples.bothChains)
  ∧ (∀ k c, rows Examples.bothChains !! k = Some c →
            c ∉ getAllLinkedContacts 2 Examples.bothChains →
            rows st' !! k = Some c)
  ∧ (∀ k c, rows Examples.bothChains !! k = Some c → id c = 1 →
            linkPrecedence c = PRIMARY → rows st' !! k = Some c)
  ∧ (∀ k c, rows Examples.bothChains !! k = Some c →
            linkPrecedence c = SECONDARY → linkedId c = Some 1 →
            rows st' !! k = Some c).
Proof.
  apply (merge_writes_only_newer_chain 500 1 2 Examples.bothChains
           Examples.primary2).
  - apply (bool_decide_unpack _). vm_compute. exact I.
  - reflexivity.
  - reflexivity.
  - lia.
Defined.

(** ** Branch D: the Secondary appended after the merges *)

Lemma existsb_elem_of {A} (f : A → bool) (l : list A) :
  existsb f l = true ↔ ∃ x, x ∈ l ∧ f x = true.
Proof.
  rewrite existsb_exists. by setoid_rewrite list_elem_of_In.
Qed.

Lemma existsb_false_elem_of {A} (f : A → bool) (l : list A) :
  existsb f l = false ↔ ∀ x, x ∈ l → f x = false.
Proof.
  rewrite <- not_true_iff_false, existsb_elem_of. split.
  - intros H x Hx. apply not_true_is_false. intros Hf. apply H. eauto.
  - intros H (x & Hx & Hf). by rewrite (H x Hx) in Hf.
Qed.

Lemma has_field_spec (field : Contact → option string) v chain :
  existsb (λ c, bool_decide (field c = v)) chain = true
  ↔ ∃ c, c ∈ chain ∧ field c = v.
Proof.
  rewrite existsb_elem_of. by setoid_rewrite bool_decide_eq_true.
Qed.

Lemma lacks_field_spec (field : Contact → option string) v chain :
  existsb (λ c, bool_decide (field c = v)) chain = false
  ↔ ∀ c, c ∈ chain → field c ≠ v.
Proof.
  rewrite existsb_false_elem_of. by setoid_rewrite bool_decide_eq_false.
Qed.

Lemma checkIfNeedsNewSecondary_spec i e p st :
  checkIfNeedsNewSecondary i e p st = true ↔
    ¬ pairInChain e p (getAllLinkedContacts i st)
    ∧ (newValue e email (getAllLinkedContacts i st)
       ∨ newValue p phoneNumber (getAllLinkedContacts i st))
    ∧ (knownValue e email (getAllLinkedContacts i st)
       ∨ knownValue p phoneNumber (getAllLinkedContacts i st)).
Proof.
  unfold checkIfNeedsNewSecondary, getLinkedContactChain, pairInChain,
    newValue, knownValue.
  set (chain := getAllLinkedContacts i st).
  destruct (existsb (λ c, bool_decide (email c = e)
                          && bool_decide (phoneNumber c = p)) chain) eqn:Hexact.
  - split; [done|]. intros (Hno & _). exfalso. apply Hno.
    apply existsb_elem_of in Hexact as (c & Hc & Hb).
    apply andb_true_iff in Hb as [H1 H2].
    apply bool_decide_eq_true in H1, H2. eauto.
  - assert (Hno : ¬ ∃ c, c ∈ chain ∧ email c = e ∧ phoneNumber c = p).
    { intros (c & Hc & H1 & H2).
      rewrite existsb_false_elem_of in Hexact. specialize (Hexact c Hc).
      by rewrite !bool_decide_eq_true_2 in Hexact. }
    rewrite andb_true_iff, !orb_true_iff, !andb_true_iff, !negb_true_iff.
    rewrite !lacks_field_spec, !has_field_spec. tauto.
Qed.

(** C4, counterexample.  On [twoChains] the request (a,2) reaches branch D;
    after the merge no contact of the chain holds the pair (a,2), and no
    Secondary is appended: "a" and "2" are both in the chain already. *)
Lemma pair_absent_but_nothing_appended :
  ¬ appendsIffPairAbsent 500
      (contacts (findExistingContacts (Some "a") (Some "2") Examples.twoChains))
      (Some "a") (Some "2") Examples.twoChains.
Proof.
  intros H. destruct (H 1 eq_refl) as [_ Happ].
  destruct Happ as (older & _ & Hrows).
  - intros (c & Hc & He & Hp). vm_compute in Hc.
    apply list_elem_of_In in Hc. simpl in Hc.
    destruct Hc as [<-|[<-|[<-|[]]]]; discriminate.
  - vm_compute in Hrows. discriminate Hrows.
Qed.

(** C4, amended.  In branch D, after all merges, a new Secondary holding the
    requested pair is appended under the surviving Primary if and only if
    the pair is on no contact of the merged chain, at least one requested
    non-empty value is on no contact of the chain, and at least one
    requested non-empty value is on some contact of the chain; otherwise the
    store is the one left by the merges. *)
Theorem branchD_appends_iff_new_and_known now contacts' e p st older :
  survivingPrimaryId contacts' = Some older →
  let st1 := afterMerges now contacts' st in
  let chain := getAllLinkedContacts older st1 in
  let st2 := snd (handleMultiplePrimaryContacts now contacts' e p st) in
  (secondaryAppended now contacts' e p st ↔
     ¬ pairInChain (orNullS e) (orNullS p) chain
     ∧ (newValue (orNullS e) email chain ∨ newValue (orNullS p) phoneNumber chain)
     ∧ (knownValue (orNullS e) email chain
        ∨ knownValue (orNullS p) phoneNumber chain))
  ∧ (¬ secondaryAppended now contacts' e p st → st2 = st1)
  ∧ fst (handleMultiplePrimaryContacts now contacts' e p st)
    = consolidateAndReturn older st2.
Proof.
  unfold secondaryAppended, survivingPrimaryId, afterMerges,
    handleMultiplePrimaryContacts.
  destruct (sortBy byCreatedAt (List.filter isPrimary contacts'))
    as [|olderPrimary newerPrimaries]; [done|].
  simpl. intros [= <-].
  rewrite <- checkIfNeedsNewSecondary_spec.
  destruct (checkIfNeedsNewSecondary _ _ _ _) eqn:Hcheck; simpl.
  - match goal with |- (?A ↔ _) ∧ _ => assert (Happ : A) end.
    { eexists. split; reflexivity. }
    split; [done|]. split; [|reflexivity].
    intros Hnot. destruct (Hnot Happ).
  - match goal with |- (?A ↔ _) ∧ _ => assert (Hnot : ¬ A) end.
    { intros (older & _ & Hrows).
      apply (f_equal length) in Hrows. rewrite length_app in Hrows.
      simpl in Hrows. lia. }
    split; [|done]. split; [done|discriminate].
Qed.

Lemma branchD_appends_iff_new_and_known_witness :
  let contacts' :=
    contacts (findExistingContacts (Some "a") (Some "2") Examples.twoChains) in
  let st1 := afterMerges 500 contacts' Examples.twoChains in
  let chain := getAllLinkedContacts 1 st1 in
  let st2 := snd (handleMultiplePrimaryContacts 500 contacts'
                    (Some "a") (Some "2") Examples.twoChains) in
  (secondaryAppended 500 contacts' (Some "a") (Some "2") Examples.twoChains ↔
     ¬ pairInChain (Some "a") (Some "2") chain
     ∧ (newValue (Some "a") email chain ∨ newValue (Some "2") phoneNumber chain)
     ∧ (knownValue (Some "a") email chain
        ∨ knownValue (Some "2") phoneNumber chain))
  ∧ (¬ secondaryAppended 500 contacts' (Some "a") (Some "2") Examples.twoChains →
     st2 = st1)
  ∧ fst (handleMultiplePrimaryContacts 500 contacts' (Some "a") (Some "2")
           Examples.twoChains)
    = consolidateAndReturn 1 st2.
Proof.
  apply (branchD_appends_iff_new_and_known 500
           (contacts (findExistingContacts (Some "a") (Some "2") Examples.twoChains))
           (Some "a") (Some "2") Examples.twoChains 1).
  reflexivity.
Defined.

(** ** Branch B: exact duplicates *)

Lemma oldestOf_fold_spec (cs : list Contact) (c : Contact) :
  let r := fold_left (λ oldest current,
                        if createdAt oldest <? createdAt current
                        then oldest else current) cs c in
  In r (c :: cs) ∧ ∀ q, In q (c :: cs) → createdAt r ≤ createdAt q.
Proof.
  revert c. induction cs as [|d cs IH]; intros c; simpl.
  - split; [by left|]. intros q [<-|[]]. lia.
  - destruct (Z.ltb_spec (createdAt c) (createdAt d)) as [Hlt|Hge].
    + destruct (IH c) as [Hin Hmin]. split.
      * simpl in Hin. destruct Hin as [Heq|Hin];
          [left; exact Heq | right; right; exact Hin].
      * intros q [<-|[<-|Hq]].
        -- apply Hmin. by left.
        -- etrans; [apply Hmin; by left|lia].
        -- apply Hmin. by right.
    + destruct (IH d) as [Hin Hmin]. split.
      * by right.
      * intros q [<-|[<-|Hq]].
        -- etrans; [apply Hmin; by left|lia].
        -- apply Hmin. by left.
        -- apply Hmin. by right.
Qed.

Lemma oldestOf_Some l p :
  oldestOf l = Some p → In p l ∧ ∀ q, In q l → createdAt p ≤ createdAt q.
Proof.
  destruct l as [|c cs]; [done|]. simpl. intros [= <-].
  apply oldestOf_fold_spec.
Qed.

Lemma oldestOf_None l : oldestOf l = None → l = [].
Proof. by destruct l. Qed.

Lemma filter_nil_find {A} (f : A → bool) l :
  List.filter f l = [] → List.find f l = None.
Proof.
  induction l as [|x l IH]; simpl; [done|].
  destruct (f x); [done|apply IH].
Qed.

Lemma candidates_spec request st c :
  In c (contacts (candidates request st)) →
  In c (rows st) ∧ active c = true.
Proof.
  unfold candidates, findExistingContacts, findContactsByEmailOrPhone. simpl.
  destruct (negb _ && negb _); [done|].
  rewrite In_sortBy, filter_In, andb_true_iff. tauto.
Qed.

Lemma primaryContact_Some request st p :
  primaryContact (candidates request st) = Some p →
  In p (contacts (candidates request st)) ∧ linkPrecedence p = PRIMARY
  ∧ ∀ q, In q (contacts (candidates request st)) → linkPrecedence q = PRIMARY →
         createdAt p ≤ createdAt q.
Proof.
  unfold candidates, findExistingContacts. simpl. intros Hp.
  apply oldestOf_Some in Hp as [Hin Hmin].
  apply filter_In in Hin as [Hin Hprim].
  apply bool_decide_eq_true in Hprim.
  repeat split; [done|done|].
  intros q Hq Hqprim. apply Hmin, filter_In. split; [done|].
  by apply bool_decide_eq_true.
Qed.

Lemma primaryContact_None request st :
  primaryContact (candidates request st) = None →
  List.filter isPrimary (contacts (candidates request st)) = [].
Proof.
  unfold candidates, findExistingContacts. simpl. apply oldestOf_None.
Qed.

Lemma handleExactDuplicate_spec request st :
  handleExactDuplicate (candidates request st) st =
    match primaryContact (candidates request st) with
    | Some p => consolidateAndReturn (id p) st
    | None => Failure "No primary contact found in search results"
    end.
Proof.
  unfold handleExactDuplicate.
  destruct (primaryContact (candidates request st)) eqn:Hp; [done|].
  by rewrite (filter_nil_find _ _ (primaryContact_None _ _ Hp)).
Qed.

Lemma exact_duplicate_branch now request st :
  isExactDuplicate (contacts (candidates request st))
    (reqEmail request) (reqPhoneNumber request) = true →
  identifyContact now request st =
    (handleExactDuplicate (candidates request st) st, st).
Proof.
  intros Hdup. unfold identifyContact. fold (candidates request st).
  rewrite Hdup.
  destruct (contacts (candidates request st)) eqn:Hc; [done|].
  by rewrite bool_decide_eq_false_2.
Qed.

(** C5.  [Reached.demotedStore] is built by four [identify] calls from the
    empty table and satisfies the chain invariants.  Its contact 3 holds the
    pair (b,2) and is a Secondary of the Primary 1, whose chain consolidates.
    The request (b,2) is an exact duplicate with the contact 3 as only
    candidate: the call does not follow [linkedId] to the Primary 1 but fails
    with "No primary contact found in search results". *)
Theorem exact_duplicate_secondary_is_not_resolved now :
  rows Reached.demotedStore
  = [Reached.contact1; Reached.contact2; Reached.contact3]
  ∧ chainInvariants Reached.demotedStore = true
  ∧ contacts (candidates Examples.requestB2 Reached.demotedStore)
    = [Reached.contact3]
  ∧ isExactDuplicate [Reached.contact3] (Str "b") (Str "2") = true
  ∧ chainPrimaryId Reached.contact3 = Some 1
  ∧ (∃ r, consolidateAndReturn 1 Reached.demotedStore = Success r)
  ∧ identifyContact now Examples.requestB2 Reached.demotedStore
    = (Failure "No primary contact found in search results",
       Reached.demotedStore)
  ∧ ¬ resolvesToChainPrimary now Examples.requestB2 Reached.demotedStore.
Proof.
  assert (Hcall : identifyContact now Examples.requestB2 Reached.demotedStore
                  = (Failure "No primary contact found in search results",
                     Reached.demotedStore)).
  { rewrite exact_duplicate_branch by (vm_compute; reflexivity).
    vm_compute. reflexivity. }
  split_and!.
  - vm_compute. reflexivity.
  - vm_compute. reflexivity.
  - vm_compute. reflexivity.
  - vm_compute. reflexivity.
  - reflexivity.
  - eexists. vm_compute. reflexivity.
  - exact Hcall.
  - intros H. destruct (H Reached.contact3) as (pid & Hpid & Hres).
    + apply (bool_decide_unpack _). vm_compute. exact I.
    + reflexivity.
    + reflexivity.
    + injection Hpid as <-. rewrite Hcall in Hres.
      vm_compute in Hres. discriminate Hres.
Qed.

(** Branch B as it is implemented.  When some candidate equals the request
    on both fields, [identify] writes nothing and looks for a Primary among
    the candidates only: it answers with the consolidated view for the
    oldest candidate marked Primary, and when every candidate is marked
    Secondary it runs into the defect shown above and fails with
    "No primary contact found in search results". *)
Theorem exact_duplicate_resolves_to_candidate_primary now request st :
  isExactDuplicate (contacts (candidates request st))
    (reqEmail request) (reqPhoneNumber request) = true →
  snd (identifyContact now request st) = st
  ∧ (∀ p, primaryContact (candidates request st) = Some p →
          fst (identifyContact now request st) = consolidateAndReturn (id p) st
          ∧ p ∈ contacts (candidates request st)
          ∧ linkPrecedence p = PRIMARY
          ∧ ∀ q, q ∈ contacts (candidates request st) →
                 linkPrecedence q = PRIMARY → createdAt p ≤ createdAt q)
  ∧ ((∀ q, q ∈ contacts (candidates request st) → linkPrecedence q = SECONDARY) →
     fst (identifyContact now request st)
     = Failure "No primary contact found in search results").
Proof.
  intros Hdup. rewrite (exact_duplicate_branch now request st Hdup).
  rewrite handleExactDuplicate_spec. cbn [fst snd].
  split; [done|]. split.
  - intros p Hp. rewrite Hp.
    apply primaryContact_Some in Hp as (Hin & Hprim & Hmin).
    repeat split; [by apply list_elem_of_In|done|].
    intros q Hq. apply Hmin. by apply list_elem_of_In.
  - intros Hsec.
    destruct (primaryContact (candidates request st)) as [p|] eqn:Hp; [|done].
    apply primaryContact_Some in Hp as (Hin & Hprim & _).
    apply list_elem_of_In in Hin. specialize (Hsec p Hin). congruence.
Qed.

Lemma exact_duplicate_resolves_to_candidate_primary_witness :
  snd (identifyContact 500 Examples.requestB2 Examples.twoChains)
  = Examples.twoChains
  ∧ fst (identifyContact 500 Examples.requestB2 Examples.twoChains)
    = consolidateAndReturn 2 Examples.twoChains.
Proof.
  destruct (exact_duplicate_resolves_to_candidate_primary 500 Examples.requestB2
              Examples.twoChains) as (Hst & Hres & _).
  - reflexivity.
  - split; [exact Hst|].
    exact (proj1 (Hres Examples.primary2 eq_refl)).
Defined.

(** ** Idempotence on a stored pair *)

Lemma strictEq_orNull column v :
  strictEq column v = true → orNull v ≠ None → column = orNull v.
Proof.
  destruct column as [a|], v as [| |s]; simpl; try done.
  intros Heq. apply bool_decide_eq_true in Heq as ->.
  by case_bool_decide.
Qed.

Lemma orNull_truthy v : orNull v ≠ None → truthy (orNull v) = true.
Proof.
  destruct v as [| |s]; simpl; try done.
  case_bool_decide as Hs; [done|]. intros _. simpl.
  by rewrite bool_decide_eq_false_2.
Qed.

Lemma presentVerbatim_exact request st :
  presentVerbatim request st →
  orNull (reqEmail request) ≠ None ∨ orNull (reqPhoneNumber request) ≠ None →
  isExactDuplicate (contacts (candidates request st))
    (reqEmail request) (reqPhoneNumber request) = true.
Proof.
  intros (c & Hc & Hact & He & Hp) Hfield.
  apply existsb_exists. exists c. split; [|by rewrite He, Hp].
  apply list_elem_of_In in Hc.
  unfold candidates, findExistingContacts, findContactsByEmailOrPhone. simpl.
  destruct Hfield as [Hsome|Hsome].
  - rewrite (orNull_truthy _ Hsome). simpl.
    apply In_sortBy, filter_In. split; [done|].
    rewrite (strictEq_orNull _ _ He Hsome), bool_decide_eq_true_2 by done.
    by rewrite Hact.
  - rewrite (orNull_truthy _ Hsome), andb_false_r.
    apply In_sortBy, filter_In. split; [done|].
    rewrite (strictEq_orNull _ _ Hp Hsome).
    rewrite (bool_decide_eq_true_2 (orNull (reqPhoneNumber request) = _)) by done.
    by rewrite Hact, orb_true_r.
Qed.

Lemma findUnique_unique st c :
  uniqueIds st → In c (rows st) → active c = true →
  findUnique (id c) st = Some c.
Proof.
  intros Hu Hc Hact. unfold findUnique.
  destruct (List.find _ (rows st)) as [d|] eqn:Hfind.
  - apply find_some in Hfind as [Hd Hb].
    apply andb_true_iff in Hb as [Hid _]. apply bool_decide_eq_true in Hid.
    f_equal. by apply (uniqueIds_eq st).
  - pose proof (find_none _ _ Hfind c Hc) as Hnone. simpl in Hnone.
    by rewrite bool_decide_eq_true_2, Hact in Hnone.
Qed.

Lemma find_of_In {A} (f : A → bool) l x :
  In x l → f x = true → ∃ y, List.find f l = Some y.
Proof.
  intros Hin Hf. destruct (List.find f l) eqn:Hfind; [eauto|].
  by rewrite (find_none _ _ Hfind x Hin) in Hf.
Qed.

Lemma consolidate_primary_succeeds st p :
  uniqueIds st → In p (rows st) → active p = true → linkPrecedence p = PRIMARY →
  ∃ resp, consolidateAndReturn (id p) st = Success resp.
Proof.
  intros Hu Hp Hact Hprim.
  pose proof (findUnique_unique st p Hu Hp Hact) as Hfind.
  pose proof (primary_in_own_chain _ _ _ Hfind Hprim) as Hchain.
  unfold consolidateAndReturn, consolidateContactInfo.
  destruct (find_of_In isPrimary _ p Hchain) as [q Hq].
  { by apply bool_decide_eq_true. }
  rewrite Hq. eauto.
Qed.

(** C6.  In [Reached.demotedStore] the pair (b,2) is stored verbatim on the
    contact 3.  Two calls of [identify] in succession with this pair both
    fail with "No primary contact found in search results": no
    [primaryContactId] is returned, although the store satisfies the chain
    invariants and was built by [identify] alone. *)
Theorem stored_pair_without_primary_candidate_fails now1 now2 :
  chainInvariants Reached.demotedStore = true
  ∧ presentVerbatim Examples.requestB2 Reached.demotedStore
  ∧ (let first := identifyContact now1 Examples.requestB2 Reached.demotedStore in
     let second := identifyContact now2 Examples.requestB2 (snd first) in
     fst first = Failure "No primary contact found in search results"
     ∧ fst second = Failure "No primary contact found in search results"
     ∧ snd first = Reached.demotedStore ∧ snd second = Reached.demotedStore)
  ∧ ¬ twiceSamePrimaryId now1 now2 Examples.requestB2 Reached.demotedStore.
Proof.
  assert (Hcall : ∀ now,
            identifyContact now Examples.requestB2 Reached.demotedStore
            = (Failure "No primary contact found in search results",
               Reached.demotedStore)).
  { intros now. rewrite exact_duplicate_branch by (vm_compute; reflexivity).
    vm_compute. reflexivity. }
  assert (Hpresent : presentVerbatim Examples.requestB2 Reached.demotedStore).
  { exists Reached.contact3. split_and!; try reflexivity.
    apply (bool_decide_unpack _). vm_compute. exact I. }
  split_and!.
  - vm_compute. reflexivity.
  - exact Hpresent.
  - cbv zeta. rewrite (Hcall now1). cbn [fst snd]. rewrite (Hcall now2). done.
  - intros H. destruct H as (r1 & st1 & r2 & st2 & Hfirst & _).
    + exact Hpresent.
    + by left.
    + rewrite Hcall in Hfirst. discriminate Hfirst.
Qed.

(** Repeated calls as they are implemented.  For distinct ids and a request
    with at least one non-empty field whose pair is stored verbatim on an
    active contact, two calls of [identify] in succession leave the store as
    it was and give the same result: a response when some candidate is
    marked Primary, and the failure of the defect shown above when every
    candidate is marked Secondary. *)
Theorem identify_twice_on_stored_pair now1 now2 request st :
  uniqueIds st →
  presentVerbatim request st →
  orNull (reqEmail request) ≠ None ∨ orNull (reqPhoneNumber request) ≠ None →
  let first := identifyContact now1 request st in
  let second := identifyContact now2 request (snd first) in
  snd first = st ∧ snd second = st ∧ fst second = fst first
  ∧ ((∃ q, q ∈ contacts (candidates request st) ∧ linkPrecedence q = PRIMARY) →
     ∃ resp, fst first = Success resp)
  ∧ ((∀ q, q ∈ contacts (candidates request st) → linkPrecedence q = SECONDARY) →
     fst first = Failure "No primary contact found in search results").
Proof.
  intros Hu Hpresent Hfield first second.
  pose proof (presentVerbatim_exact request st Hpresent Hfield) as Hdup.
  assert (Hfirst : first = (handleExactDuplicate (candidates request st) st, st))
    by apply (exact_duplicate_branch now1 request st Hdup).
  assert (Hsecond : second = (handleExactDuplicate (candidates request st) st, st)).
  { unfold second. rewrite Hfirst. cbn [snd].
    apply (exact_duplicate_branch now2 request st Hdup). }
  rewrite Hfirst, Hsecond. cbn [fst snd].
  repeat split.
  - intros (q & Hq & Hprim). rewrite handleExactDuplicate_spec.
    destruct (primaryContact (candidates request st)) as [p|] eqn:Hp.
    + apply primaryContact_Some in Hp as (Hin & Hpprim & _).
      apply candidates_spec in Hin as [Hin Hact].
      by apply consolidate_primary_succeeds.
    + apply primaryContact_None in Hp.
      apply list_elem_of_In in Hq.
      assert (Hqf : In q (List.filter isPrimary (contacts (candidates request st)))).
      { apply filter_In. split; [done|]. by apply bool_decide_eq_true. }
      rewrite Hp in Hqf. destruct Hqf.
  - intros Hsec. rewrite handleExactDuplicate_spec.
    destruct (primaryContact (candidates request st)) as [p|] eqn:Hp; [|done].
    apply primaryContact_Some in Hp as (Hin & Hprim & _).
    apply list_elem_of_In in Hin. specialize (Hsec p Hin). congruence.
Qed.

Lemma identify_twice_on_stored_pair_witness :
  let first := identifyContact 500 Examples.requestB2 Examples.twoChains in
  let second := identifyContact 600 Examples.requestB2 (snd first) in
  snd first = Examples.twoChains ∧ snd second = Examples.twoChains
  ∧ fst second = fst first.
Proof.
  destruct (identify_twice_on_stored_pair 500 600 Examples.requestB2
              Examples.twoChains) as (H1 & H2 & H3 & _).
  - apply (bool_decide_unpack _). vm_compute. exact I.
  - exists Examples.primary2. repeat split.
    apply list_elem_of_In. simpl. tauto.
  - left. discriminate.
  - auto.
Defined.

(** ** The consolidated view: order and duplicates *)

Lemma insertSorted_sorted x l :
  StronglySorted createdBefore l →
  StronglySorted createdBefore (insertSorted byCreatedAt x l).
Proof.
  induction l as [|y l IH]; simpl; intros Hs.
  - repeat constructor.
  - apply StronglySorted_inv in Hs as [Hl Hy].
    unfold byCreatedAt at 1.
    destruct (Z.leb_spec (createdAt x) (createdAt y)) as [Hle|Hgt].
    + constructor; [by constructor|].
      constructor; [done|].
      eapply Forall_impl; [exact Hy|].
      intros z Hz. unfold createdBefore in *. simpl in *. lia.
    + constructor; [by apply IH|].
      eapply Permutation_Forall; [symmetry; apply insertSorted_Permutation|].
      constructor; [|done]. unfold createdBefore. lia.
Qed.

Lemma sortBy_sorted l : StronglySorted createdBefore (sortBy byCreatedAt l).
Proof.
  induction l as [|x l IH]; simpl; [constructor|].
  by apply insertSorted_sorted.
Qed.

Section Values.

Variable field : Contact → option string.

Lemma collect_snoc l c : collectValues field (l ++ [c]) = addIfTruthy (collectValues field l) (field c).
Proof. unfold collectValues. by rewrite fold_left_app. Qed.

Lemma addIfTruthy_cases s v :
  (addIfTruthy s v = s ∧ (truthy v = false ∨ ∃ x, v = Some x ∧ x ∈ s))
  ∨ (∃ x, v = Some x ∧ x ≠ EmptyString ∧ (x ∉ s) ∧ addIfTruthy s v = s ++ [x]).
Proof.
  destruct v as [x|]; simpl; [|left; split; [done|left; done]].
  case_bool_decide as Hx; simpl.
  - left. split; [done|by left].
  - unfold setAdd. case_bool_decide as Hin.
    + left. split; [done|]. right. eauto.
    + right. eauto.
Qed.

Lemma collect_elem_of l v :
  v ∈ collectValues field l ↔ v ≠ EmptyString ∧ ∃ c, c ∈ l ∧ field c = Some v.
Proof.
  induction l as [|c l IH] using rev_ind.
  - unfold collectValues. simpl. split.
    + intros H. by apply elem_of_nil in H.
    + intros (_ & c & Hc & _). by apply elem_of_nil in Hc.
  - rewrite collect_snoc.
    destruct (addIfTruthy_cases (collectValues field l) (field c))
      as [[-> Hskip]|(x & Hx & Hne & Hnew & ->)].
    + rewrite IH. split.
      * intros (Hv & d & Hd & Hf). split; [done|]. exists d.
        split; [|done]. apply elem_of_app. by left.
      * intros (Hv & d & Hd & Hf). split; [done|].
        apply elem_of_app in Hd as [Hd|Hd]; [eauto|].
        apply list_elem_of_singleton in Hd as ->.
        destruct Hskip as [Hfalse|(x & Hx & Hin)].
        -- rewrite Hf in Hfalse. simpl in Hfalse.
           by rewrite bool_decide_eq_false_2 in Hfalse.
        -- rewrite Hf in Hx. injection Hx as <-.
           apply IH in Hin. tauto.
    + rewrite elem_of_app, list_elem_of_singleton, IH. split.
      * intros [(Hv & d & Hd & Hf)| ->].
        -- split; [done|]. exists d. split; [|done]. apply elem_of_app. by left.
        -- split; [done|]. exists c. split; [|done].
           apply elem_of_app. right. by apply list_elem_of_singleton.
      * intros (Hv & d & Hd & Hf).
        apply elem_of_app in Hd as [Hd|Hd]; [left; eauto|].
        apply list_elem_of_singleton in Hd as ->.
        right. congruence.
Qed.

Lemma collect_NoDup l : NoDup (collectValues field l).
Proof.
  induction l as [|c l IH] using rev_ind; [constructor|].
  rewrite collect_snoc.
  destruct (addIfTruthy_cases (collectValues field l) (field c))
    as [[-> _]|(x & _ & _ & Hnew & ->)]; [done|].
  apply NoDup_app. repeat split; [done| |apply NoDup_singleton].
  intros y Hy Hy'. apply list_elem_of_singleton in Hy' as ->. done.
Qed.

(** The contact that introduces [v] stands in the list before every contact
    that holds a value listed behind [v]. *)
Lemma collect_order l (i j : nat) v w :
  (i < j)%nat → collectValues field l !! i = Some v → collectValues field l !! j = Some w →
  ∃ l1 c l2, l = l1 ++ c :: l2 ∧ field c = Some v
             ∧ ∀ c', c' ∈ l1 → field c' ≠ Some w.
Proof.
  revert i j v w. induction l as [|c l IH] using rev_ind; intros i j v w Hij Hi Hj.
  - change (collectValues field []) with (@nil string) in Hi. by rewrite lookup_nil in Hi.
  - rewrite collect_snoc in Hi, Hj.
    assert (Hold : (j < length (collectValues field l))%nat →
                   collectValues field l !! i = Some v → collectValues field l !! j = Some w →
                   ∃ l1 c0 l2, l ++ [c] = l1 ++ c0 :: l2 ∧ field c0 = Some v
                               ∧ ∀ c', c' ∈ l1 → field c' ≠ Some w).
    { intros _ Hi' Hj'.
      destruct (IH i j v w Hij Hi' Hj') as (l1 & c0 & l2 & -> & Hf & Hbefore).
      exists l1, c0, (l2 ++ [c]). by rewrite <- app_assoc. }
    destruct (addIfTruthy_cases (collectValues field l) (field c))
      as [[Heq _]|(x & Hx & Hne & Hnew & Heq)]; rewrite Heq in Hi, Hj.
    + apply Hold; [by eapply lookup_lt_Some|done|done].
    + destruct (decide (j < length (collectValues field l))%nat) as [Hlt|Hge].
      * rewrite lookup_app_l in Hi, Hj by lia. by apply Hold.
      * rewrite lookup_app_r in Hj by lia.
        apply list_lookup_singleton_Some in Hj as [Hj0 <-].
        rewrite lookup_app_l in Hi by lia.
        assert (Hv : v ∈ collectValues field l) by by eapply list_elem_of_lookup_2.
        apply collect_elem_of in Hv as (_ & c0 & Hc0 & Hf).
        apply list_elem_of_split in Hc0 as (l1 & l2 & ->).
        exists l1, c0, (l2 ++ [c]). split; [by rewrite <- app_assoc|].
        split; [done|].
        intros c' Hc' Hfx. apply Hnew, collect_elem_of.
        split; [done|]. exists c'. split; [|done].
        apply elem_of_app. by left.
Qed.

Lemma collect_introducedInOrder p secs :
  StronglySorted createdBefore secs →
  introducedInOrder (collectValues field (p :: secs)) field p secs.
Proof.
  intros Hsorted. split.
  - intros v. rewrite collect_elem_of. split.
    + intros (Hv & c & Hc & Hf). split; [done|].
      apply elem_of_cons in Hc as [->|Hc]; [by left|right; eauto].
    + intros (Hv & [Hp|(s & Hs & Hf)]); (split; [done|]).
      * exists p. split; [apply elem_of_cons; by left|done].
      * exists s. split; [apply elem_of_cons; by right|done].
  - intros i j v w Hij Hi Hj.
    assert (Hvw : v ≠ w).
    { intros <-. pose proof (collect_NoDup (p :: secs)) as Hnd.
      pose proof (NoDup_lookup _ _ _ _ Hnd Hi Hj). lia. }
    destruct (collect_order _ i j v w Hij Hi Hj)
      as (l1 & c & l2 & Hsplit & Hf & Hbefore).
    destruct l1 as [|q l1]; simpl in Hsplit; injection Hsplit as <- Hsecs.
    + split; [congruence|by left].
    + split; [apply Hbefore, elem_of_cons; by left|].
      right. exists c. subst secs. split; [|split; [done|]].
      * apply elem_of_app. right. apply elem_of_cons. by left.
      * intros s' Hs' Hfs'.
        apply elem_of_app in Hs' as [Hs'|Hs'].
        { exfalso. apply (Hbefore s'); [|done]. apply elem_of_cons. by right. }
        apply elem_of_cons in Hs' as [->|Hs']; [congruence|].
        apply StronglySorted_app_1_r in Hsorted.
        apply StronglySorted_inv in Hsorted as [_ Hall].
        rewrite Forall_forall in Hall. by apply Hall.
Qed.

End Values.

Lemma consolidateContactInfo_view root st r :
  consolidateContactInfo root st = Success r → consolidatedView st root r.
Proof.
  unfold consolidateContactInfo.
  destruct (List.find isPrimary (getAllLinkedContacts root st)) as [p|] eqn:Hp;
    [|done].
  intros [= <-]. simpl.
  apply find_some in Hp as [Hin Hprim].
  apply bool_decide_eq_true in Hprim.
  set (chain := getAllLinkedContacts root st) in *.
  exists p, (sortBy byCreatedAt (List.filter isSecondary chain)). simpl.
  pose proof (sortBy_sorted (List.filter isSecondary chain)) as Hsorted.
  split_and!.
  - by apply list_elem_of_In.
  - done.
  - done.
  - apply sortBy_Permutation.
  - done.
  - done.
  - apply (collect_NoDup email (p :: _)).
  - apply (collect_NoDup phoneNumber (p :: _)).
  - by apply (collect_introducedInOrder email p).
  - by apply (collect_introducedInOrder phoneNumber p).
Qed.

(** ** Every successful response is a consolidated view *)

Lemma consolidateAndReturn_Success root st resp :
  consolidateAndReturn root st = Success resp →
  consolidateContactInfo root st = Success (contact resp).
Proof.
  unfold consolidateAndReturn.
  destruct (consolidateContactInfo root st); [|done].
  by intros [= <-].
Qed.

Lemma find_app_last {A} (f : A → bool) l x :
  (∀ y, In y l → f y = false) → f x = true →
  List.find f (l ++ [x]) = Some x.
Proof.
  intros Hl Hx. induction l as [|y l IH]; simpl.
  - by rewrite Hx.
  - rewrite (Hl y) by by left. apply IH. intros z Hz. apply Hl. by right.
Qed.

Lemma filter_app_last {A} (f : A → bool) l x :
  (∀ y, In y l → f y = false) → f x = true →
  List.filter f (l ++ [x]) = [x].
Proof.
  intros Hl Hx. induction l as [|y l IH]; simpl.
  - by rewrite Hx.
  - rewrite (Hl y) by by left. apply IH. intros z Hz. apply Hl. by right.
Qed.

Lemma addIfTruthy_fresh v :
  addIfTruthy [] v = if truthy v then option_list v else [].
Proof.
  destruct v as [x|]; simpl; [|done].
  by destruct (negb (bool_decide (x = EmptyString))).
Qed.

Lemma no_match_is_consolidated now e p st resp st' :
  storeWf st →
  handleNoExistingContacts now e p st = (Success resp, st') →
  consolidateContactInfo (nextId st) st' = Success (contact resp).
Proof.
  intros Hwf. unfold handleNoExistingContacts, createPrimaryContact, createContact.
  simpl. intros [= <- <-].
  set (new := {| id := nextId st; phoneNumber := orNullS p; email := orNullS e;
                 linkedId := None; linkPrecedence := PRIMARY; createdAt := now;
                 updatedAt := now; deletedAt := None |}).
  assert (Hfind : findUnique (nextId st)
                    {| rows := rows st ++ [new]; nextId := nextId st + 1 |}
                  = Some new).
  { unfold findUnique. simpl. apply find_app_last.
    - intros y Hy. apply list_elem_of_In, Hwf in Hy as [Hid _].
      rewrite bool_decide_eq_false_2; [done|lia].
    - simpl. by rewrite bool_decide_eq_true_2. }
  assert (Hchain : getAllLinkedContacts (nextId st)
                     {| rows := rows st ++ [new]; nextId := nextId st + 1 |}
                   = [new]).
  { unfold getAllLinkedContacts. rewrite Hfind. simpl.
    case_bool_decide; [done|].
    rewrite filter_app_last; [done| |].
    - intros y Hy. apply list_elem_of_In, Hwf in Hy as [Hid Hlink].
      rewrite bool_decide_eq_false_2 by lia.
      rewrite bool_decide_eq_false_2; [done|].
      intros Hl. specialize (Hlink _ Hl). lia.
    - simpl. by rewrite bool_decide_eq_true_2. }
  unfold consolidateContactInfo. rewrite Hchain. simpl.
  by rewrite !addIfTruthy_fresh.
Qed.

Lemma updateContactLinkage_Failure now i u st e st' :
  updateContactLinkage now i u st = (Failure e, st') → st' = st.
Proof.
  unfold updateContactLinkage.
  destruct (List.find _ (rows st)); [done|]. by intros [= _ <-].
Qed.

Lemma identify_success_consolidated now request st resp st' :
  storeWf st →
  identifyContact now request st = (Success resp, st') →
  ∃ root, consolidateContactInfo root st' = Success (contact resp).
Proof.
  intros Hwf. unfold identifyContact. fold (candidates request st).
  set (e := orNull (reqEmail request)). set (p := orNull (reqPhoneNumber request)).
  case_bool_decide as Hnone.
  { intros H. exists (nextId st). by eapply no_match_is_consolidated. }
  destruct (isExactDuplicate _ _ _).
  { unfold handleExactDuplicate.
    destruct (match primaryContact (candidates request st) with
              | Some p0 => Some p0
              | None => List.find isPrimary (contacts (candidates request st))
              end) as [q|]; [|done].
    intros [= H <-]. exists (id q). by apply consolidateAndReturn_Success. }
  destruct (bool_decide _ && bool_decide _).
  { unfold handleSinglePrimaryContact.
    destruct (primaryContact (candidates request st)) as [q|]; [|done].
    destruct (needsSecondaryContact q e p).
    - unfold createSecondaryContact, createContact. simpl.
      intros [= H <-]. exists (id q). by apply consolidateAndReturn_Success.
    - intros [= H <-]. exists (id q). by apply consolidateAndReturn_Success. }
  destruct (hasMultiplePrimaryContacts _).
  { unfold handleMultiplePrimaryContacts.
    destruct (sortBy byCreatedAt _) as [|older newer]; [done|].
    intros [= H <-]. exists (id older). by apply consolidateAndReturn_Success. }
  unfold handleExistingChain.
  destruct (match primaryContact (candidates request st) with
            | Some p0 => Some p0
            | None => List.find isPrimary (contacts (candidates request st))
            end) as [q|].
  { intros [= H <-]. exists (id q). by apply consolidateAndReturn_Success. }
  destruct (oldestOf (contacts (candidates request st))) as [oldest|].
  - destruct (updateContactLinkage now (id oldest) _ st) as [[u|err] st1] eqn:Hupd.
    + intros [= H <-]. exists (id u). by apply consolidateAndReturn_Success.
    + apply updateContactLinkage_Failure in Hupd as ->.
      intros H. exists (nextId st). by eapply no_match_is_consolidated.
  - intros H. exists (nextId st). by eapply no_match_is_consolidated.
Qed.

(** C7.  For a store whose ids and links are below the next id of the
    sequence, every successful response of [identify] is the consolidated
    view of a chain of the resulting store: [emails] and [phoneNumbers] hold
    no value twice; the Primary's own value is never behind another value
    and the other values stand in the order of the creation times of the
    Secondaries that first hold them; and [secondaryContactIds] lists the
    ids of all the Secondaries of the chain by ascending [createdAt]. *)
Theorem identify_response_is_consolidated_view now request st resp st' :
  storeWf st →
  identifyContact now request st = (Success resp, st') →
  ∃ root, consolidatedView st' root (contact resp).
Proof.
  intros Hwf Hcall.
  destruct (identify_success_consolidated now request st resp st' Hwf Hcall)
    as [root Hroot].
  exists root. by apply consolidateContactInfo_view.
Qed.

Lemma identify_response_is_consolidated_view_witness :
  ∃ root,
    consolidatedView
      (snd (identifyContact 500 Examples.requestA2 Examples.twoChains)) root
      {| primaryContactId := 1; emails := ["a"; "b"];
         phoneNumbers := ["1"; "2"]; secondaryContactIds := [2] |}.
Proof.
  apply (identify_response_is_consolidated_view 500 Examples.requestA2
           Examples.twoChains
           {| contact := {| primaryContactId := 1; emails := ["a"; "b"];
                            phoneNumbers := ["1"; "2"];
                            secondaryContactIds := [2] |} |}).
  - intros c Hc. apply list_elem_of_In in Hc. simpl in Hc.
    destruct Hc as [<-|[<-|[<-|[]]]]; simpl; (split; [lia|]);
      intros i Hi; inversion Hi; lia.
  - reflexivity.
Defined.

(** ** Grouping: the traversal *)

Import ContactMatcher.

Lemma shouldLink_sym a b : shouldLink a b = shouldLink b a.
Proof.
  unfold shouldLink, hasSharedEmail, hasSharedPhone.
  rewrite (andb_comm (truthy (email a))), (andb_comm (truthy (phoneNumber a))).
  f_equal; f_equal; apply bool_decide_ext; split; congruence.
Qed.

Lemma linkedIn_sym l a b : linkedIn l a b → linkedIn l b a.
Proof. intros (Ha & Hb & Hl). split_and!; [done|done|]. by rewrite shouldLink_sym. Qed.

Lemma connectedIn_sym l a b : connectedIn l a b → connectedIn l b a.
Proof.
  unfold connectedIn. induction 1 as [|a b c Hab _ IH]; [done|].
  eapply rtc_r; [exact IH|]. by apply linkedIn_sym.
Qed.

Section Traversal.

Variable l : list Contact.
Hypothesis Hids : NoDup (map id l).

Lemma id_inj a b : a ∈ l → b ∈ l → id a = id b → a = b.
Proof.
  intros Ha Hb Heq.
  apply list_elem_of_lookup in Ha as [i Hi], Hb as [j Hj].
  assert (i = j) as ->.
  { eapply (NoDup_lookup (map id l)); [done| |].
    - rewrite list_lookup_fmap, Hi. done.
    - rewrite list_lookup_fmap, Hj. simpl. by rewrite Heq. }
  congruence.
Qed.

Lemma unprocessed_mono (P P' : gset Z) :
  P ⊆ P' → (unprocessed l P' ≤ unprocessed l P)%nat.
Proof. intros HP. apply subseteq_size. set_solver. Qed.

Lemma unprocessed_visit c (P : gset Z) :
  c ∈ l → id c ∉ P → (unprocessed l ({[ id c ]} ∪ P) < unprocessed l P)%nat.
Proof.
  intros Hc HP. apply subset_size.
  apply strict_spec_alt. split; [set_solver|].
  assert (id c ∈ (list_to_set (map id l) : gset Z)).
  { apply elem_of_list_to_set, list_elem_of_fmap. eauto. }
  intros Heq. assert (id c ∈ (list_to_set (map id l) ∖ P : gset Z)) as Hin
    by set_solver.
  rewrite <- Heq in Hin. set_solver.
Qed.

Lemma unprocessed_zero (P : gset Z) y :
  unprocessed l P = 0%nat → y ∈ l → id y ∈ P.
Proof.
  intros Hz Hy. apply size_empty_inv in Hz.
  assert (id y ∈ (list_to_set (map id l) : gset Z)).
  { apply elem_of_list_to_set, list_elem_of_fmap. eauto. }
  destruct (decide (id y ∈ P)) as [|Hn]; [done|]. set_solver.
Qed.

Lemma unprocessed_bound (P : gset Z) : (unprocessed l P ≤ length l)%nat.
Proof.
  unfold unprocessed.
  etrans; [apply (subseteq_size _ (list_to_set (map id l))); set_solver|].
  rewrite size_list_to_set by done. by rewrite length_map.
Qed.

Lemma extends_refl b v : extends l b v v.
Proof.
  exists []. split_and!.
  - by rewrite app_nil_r.
  - set_solver.
  - constructor.
  - intros x Hx. by apply elem_of_nil in Hx.
Qed.

Lemma extends_subseteq b v v' : extends l b v v' → snd v ⊆ snd v'.
Proof. intros (N & _ & -> & _). set_solver. Qed.

Lemma closedAt_mono x (P P' : gset Z) : P ⊆ P' → closedAt l x P → closedAt l x P'.
Proof. intros HP Hc y Hy Hl. apply HP. by apply Hc. Qed.

(** One more contact [c], linked to [b], and what its own call adds. *)
Lemma extends_step b c v v1 v3 :
  b ∈ l → c ∈ l → id c ∉ snd v1 → shouldLink b c = true →
  extends l b v v1 →
  extends l c (visit c v1) v3 →
  closedAt l c (snd v3) →
  extends l b v v3.
Proof.
  intros Hb Hc Hfresh Hlink (N1 & Hg1 & Hp1 & Hnd1 & HN1) (N3 & Hg3 & Hp3 & Hnd3 & HN3)
    Hclosed.
  unfold visit in *. simpl in *.
  exists (N1 ++ c :: N3). split_and!.
  - rewrite Hg3, Hg1. by rewrite <- !app_assoc.
  - rewrite Hp3, Hp1. rewrite map_app. simpl. set_solver.
  - rewrite map_app. simpl. apply NoDup_app. split_and!.
    + done.
    + intros i Hi Hi'.
      apply list_elem_of_fmap in Hi as (x & -> & Hx).
      apply elem_of_cons in Hi' as [Heq|Hi'].
      * apply Hfresh. rewrite Hp1, <- Heq.
        apply elem_of_union_l, elem_of_list_to_set, list_elem_of_fmap. eauto.
      * apply list_elem_of_fmap in Hi' as (y & Heq & Hy).
        destruct (HN3 y Hy) as (_ & Hny & _). apply Hny.
        rewrite Hp1, <- Heq.
        apply elem_of_union_r, elem_of_union_l, elem_of_list_to_set,
          list_elem_of_fmap. eauto.
    + apply NoDup_cons. split; [|done].
      intros Hi. apply list_elem_of_fmap in Hi as (y & Heq & Hy).
      destruct (HN3 y Hy) as (_ & Hny & _). apply Hny. rewrite Heq. set_solver.
  - assert (Hbc : connectedIn l b c) by (apply rtc_once; split_and!; done).
    intros x Hx. apply elem_of_app in Hx as [Hx|Hx].
    + destruct (HN1 x Hx) as (Hxl & Hxv & Hxc & Hxcl). split_and!; [done..|].
      eapply closedAt_mono; [|exact Hxcl]. rewrite Hp3. set_solver.
    + apply elem_of_cons in Hx as [->|Hx].
      * split_and!; [done| |done|done]. rewrite Hp1 in Hfresh. set_solver.
      * destruct (HN3 x Hx) as (Hxl & Hxv & Hxc & Hxcl).
        split_and!; [done| |by etrans|done].
        rewrite Hp1 in Hxv. set_solver.
Qed.

Lemma findLinkedContacts_spec fuel : ∀ b v,
  b ∈ l → (unprocessed l (snd v) ≤ fuel)%nat →
  extends l b v (findLinkedContacts fuel b l v)
  ∧ closedAt l b (snd (findLinkedContacts fuel b l v)).
Proof.
  induction fuel as [|fuel IHfuel]; intros b v Hb Hfuel.
  - simpl. split; [apply extends_refl|].
    intros y Hy _. apply unprocessed_zero; [lia|done].
  - simpl.
    set (step := λ (v' : Visit) (contact' : Contact),
           if bool_decide (id contact' ∈ snd v') then v'
           else if shouldLink b contact'
                then findLinkedContacts fuel contact' l (visit contact' v')
                else v').
    assert (Hloop : ∀ rest pre v1,
               pre ++ rest = l →
               extends l b v v1 →
               (∀ y, y ∈ pre → shouldLink b y = true → id y ∈ snd v1) →
               extends l b v (fold_left step rest v1)
               ∧ closedAt l b (snd (fold_left step rest v1))).
    { induction rest as [|c rest IHrest]; intros pre v1 Hsplit Hext Hpre.
      - simpl. split; [done|]. rewrite app_nil_r in Hsplit. subst pre.
        exact Hpre.
      - assert (Hc : c ∈ l).
        { rewrite <- Hsplit. apply elem_of_app. right. apply elem_of_cons. by left. }
        simpl. apply (IHrest (pre ++ [c])); [by rewrite <- app_assoc|..];
          unfold step; cbv beta; case_bool_decide as Hproc.
        + done.
        + destruct (shouldLink b c) eqn:Hlink; [|done].
          assert (Hfuel' : (unprocessed l (snd (visit c v1)) ≤ fuel)%nat).
          { pose proof (unprocessed_visit c (snd v1) Hc Hproc).
            pose proof (unprocessed_mono _ _ (extends_subseteq _ _ _ Hext)).
            simpl. lia. }
          destruct (IHfuel c (visit c v1) Hc Hfuel') as [Hext3 Hcl3].
          by eapply extends_step.
        + intros y Hy Hly. apply elem_of_app in Hy as [Hy|Hy]; [by apply Hpre|].
          apply list_elem_of_singleton in Hy as ->. done.
        + destruct (shouldLink b c) eqn:Hlink.
          * assert (Hfuel' : (unprocessed l (snd (visit c v1)) ≤ fuel)%nat).
            { pose proof (unprocessed_visit c (snd v1) Hc Hproc).
              pose proof (unprocessed_mono _ _ (extends_subseteq _ _ _ Hext)).
              simpl. lia. }
            destruct (IHfuel c (visit c v1) Hc Hfuel') as [Hext3 Hcl3].
            pose proof (extends_subseteq _ _ _ Hext3) as Hsub. simpl in Hsub.
            intros y Hy Hly. apply elem_of_app in Hy as [Hy|Hy].
            -- apply Hsub. apply elem_of_union_r. by apply Hpre.
            -- apply list_elem_of_singleton in Hy as ->.
               apply Hsub. set_solver.
          * intros y Hy Hly. apply elem_of_app in Hy as [Hy|Hy]; [by apply Hpre|].
            apply list_elem_of_singleton in Hy as ->. congruence. }
    apply (Hloop l []); [done|apply extends_refl|].
    intros y Hy. by apply elem_of_nil in Hy.
Qed.

End Traversal.

(** ** Grouping: the loop over the contacts *)

Lemma connectedIn_first_step l a b :
  connectedIn l a b → a ≠ b → ∃ y, y ≠ a ∧ linkedIn l a y.
Proof.
  induction 1 as [|a y b Hay _ IH]; intros Hne; [done|].
  destruct (decide (y = a)) as [->|Hy]; [by apply IH|eauto].
Qed.

Section Groups.

Variable l : list Contact.
Hypothesis Hids : NoDup (map id l).

Lemma groupStep_inv fuel scanned acc c :
  (length l ≤ fuel)%nat → c ∈ l →
  groupsInv l scanned acc →
  groupsInv l (scanned ++ [c]) (groupStep fuel l acc c).
Proof.
  intros Hfuel Hc (Hclosed & Hscanned & Hgroups & Hdisj & Hlinks).
  unfold groupStep. case_bool_decide as Hproc.
  { split_and!; try done.
    intros y Hy. apply elem_of_app in Hy as [Hy|Hy]; [by apply Hscanned|].
    by apply list_elem_of_singleton in Hy as ->. }
  set (P := snd acc) in *. set (groups := fst acc) in *.
  set (v := findLinkedContacts fuel c l ([c], {[id c]} ∪ P)).
  destruct (findLinkedContacts_spec l Hids fuel c ([c], {[id c]} ∪ P) Hc)
    as [Hext Hcl].
  { etrans; [apply (unprocessed_bound l Hids)|done]. }
  fold v in Hext, Hcl.
  destruct Hext as (N & Hg & Hp & HndN & HN). simpl in Hg, Hp.
  set (G := fst v) in *. set (P' := snd v) in *.
  assert (HPP' : P ⊆ P') by (rewrite Hp; set_solver).
  assert (HcP' : id c ∈ P') by (rewrite Hp; set_solver).
  assert (F1 : ∀ x, x ∈ G →
                    x ∈ l ∧ (id x ∉ P) ∧ connectedIn l c x ∧ closedAt l x P').
  { intros x Hx. rewrite Hg in Hx. apply elem_of_cons in Hx as [->|Hx].
    - split_and!; [done|done|apply rtc_refl|done].
    - destruct (HN x Hx) as (Hxl & Hxn & Hxc & Hxcl).
      split_and!; [done| |done|done]. set_solver. }
  assert (HidG : ∀ y, y ∈ l → id y ∈ P' → id y ∉ P → y ∈ G).
  { intros y Hy HyP' HyP. rewrite Hp in HyP'. rewrite Hg.
    apply elem_of_union in HyP' as [HyN|HyP'].
    - apply elem_of_list_to_set, list_elem_of_fmap in HyN as (z & Heq & Hz).
      apply elem_of_cons. right.
      replace y with z; [done|].
      apply (id_inj l Hids); [by apply HN|done|done].
    - apply elem_of_union in HyP' as [Hyc|?]; [|done].
      apply elem_of_singleton in Hyc. apply elem_of_cons. left.
      by apply (id_inj l Hids). }
  assert (F3 : ∀ x y, x ∈ G → y ∈ l → shouldLink x y = true → y ∈ G).
  { intros x y Hx Hy Hxy. destruct (F1 x Hx) as (Hxl & HxP & _ & Hxcl).
    apply HidG; [done|by apply Hxcl|].
    intros HyP. apply HxP.
    apply (Hclosed y Hy HyP x Hxl). by rewrite shouldLink_sym. }
  assert (F4 : ∀ x d, x ∈ G → connectedIn l x d → d ∈ G).
  { intros x d Hx Hxd. induction Hxd as [|x y d (_ & Hy & Hxy) _ IH]; [done|].
    apply IH. by eapply F3. }
  assert (F5 : ∀ x, x ∈ G → ∀ d, d ∈ G ↔ connectedIn l x d).
  { intros x Hx d. split; [|by apply F4].
    intros Hd. etrans; [apply connectedIn_sym; by apply F1|by apply F1]. }
  assert (HndG : NoDup G).
  { rewrite Hg. apply NoDup_cons. split.
    - intros HcN. destruct (HN c HcN) as (_ & Hn & _). set_solver.
    - by apply NoDup_fmap_1 in HndN. }
  assert (Hold : ∀ g x, g ∈ groups → x ∈ g → x ∉ G).
  { intros g x Hgx Hx HxG.
    destruct (Hgroups g Hgx) as (_ & _ & Hmem).
    destruct (Hmem x Hx) as (_ & HxP & _). by destruct (F1 x HxG) as (_ & ? & _). }
  assert (Hclosed' : ∀ x, x ∈ l → id x ∈ P' → closedAt l x P').
  { intros x Hx HxP'. destruct (decide (id x ∈ P)) as [HxP|HxP].
    - eapply closedAt_mono; [exact HPP'|by apply Hclosed].
    - apply F1. by apply HidG. }
  assert (Hscanned' : ∀ y, y ∈ scanned ++ [c] → id y ∈ P').
  { intros y Hy. apply elem_of_app in Hy as [Hy|Hy].
    - apply HPP'. by apply Hscanned.
    - by apply list_elem_of_singleton in Hy as ->. }
  assert (Hcomp_old : ∀ g, g ∈ groups → isComponent l P' g).
  { intros g Hgx. destruct (Hgroups g Hgx) as (Hlen & Hnd & Hmem).
    split_and!; [done|done|]. intros x Hx.
    destruct (Hmem x Hx) as (? & ? & ?). split_and!; [done| |done]. by apply HPP'. }
  destruct (Z.ltb_spec 1 (Z.of_nat (length G))) as [Hlen|Hlen]; simpl.
  - (* the group is pushed *)
    assert (Hcomp_new : isComponent l P' G).
    { split_and!; [lia|done|]. intros x Hx. split_and!.
      - by apply F1.
      - destruct (decide (x = c)) as [->|Hxc]; [done|].
        rewrite Hp. rewrite Hg in Hx. apply elem_of_cons in Hx as [?|Hx]; [done|].
        apply elem_of_union_l, elem_of_list_to_set, list_elem_of_fmap. eauto.
      - by apply F5. }
    split_and!; [done|done| | |].
    + intros g Hgx. apply elem_of_app in Hgx as [Hgx|Hgx]; [by apply Hcomp_old|].
      by apply list_elem_of_singleton in Hgx as ->.
    + intros k k' g g' x Hk Hk' Hx Hx'.
      apply lookup_snoc_Some in Hk as [[Hlt Hk]|[-> <-]];
        apply lookup_snoc_Some in Hk' as [[Hlt' Hk']|[-> <-]].
      * by eapply Hdisj.
      * destruct (Hold g x); [by eapply list_elem_of_lookup_2|done|done].
      * destruct (Hold g' x); [by eapply list_elem_of_lookup_2|done|done].
      * done.
    + intros x Hx HxP'. destruct (decide (id x ∈ P)) as [HxP|HxP].
      * rewrite <- (Hlinks x Hx HxP). split.
        -- intros (g & Hgx & Hxg). apply elem_of_app in Hgx as [Hgx|Hgx]; [eauto|].
           apply list_elem_of_singleton in Hgx as ->.
           by destruct (F1 x Hxg) as (_ & ? & _).
        -- intros (g & Hgx & Hxg). exists g. split; [|done].
           apply elem_of_app. by left.
      * assert (HxG : x ∈ G) by by apply HidG.
        split.
        -- intros _.
           assert (∃ z, z ∈ G ∧ z ≠ x) as (z & Hz & Hzx).
           { destruct G as [|a [|b G']]; simpl in Hlen; [lia|lia|].
             destruct (decide (a = x)) as [->|Ha].
             - exists b. split; [set_solver|].
               apply NoDup_cons in HndG as [Hnotin _]. set_solver.
             - exists a. split; [set_solver|done]. }
           destruct (connectedIn_first_step l x z) as (y & Hy & (_ & Hyl & Hxy));
             [by apply F5|done|].
           by exists y.
        -- intros _. exists G. split; [|done].
           apply elem_of_app. right. by apply list_elem_of_singleton.
  - (* a group of one contact is dropped *)
    assert (HG : G = [c]).
    { rewrite Hg in Hlen |- *. destruct N; [done|simpl in Hlen; lia]. }
    split_and!; [done|done|done|done|].
    intros x Hx HxP'. destruct (decide (id x ∈ P)) as [HxP|HxP].
    + by apply Hlinks.
    + assert (HxG : x ∈ G) by by apply HidG.
      rewrite HG in HxG. apply list_elem_of_singleton in HxG as ->.
      split.
      * intros (g & Hgx & Hcg). destruct (Hold g c Hgx Hcg).
        rewrite HG. by apply list_elem_of_singleton.
      * intros (d & Hd & Hdc & Hcd). exfalso. apply Hdc.
        assert (Hd' : d ∈ G).
        { apply (F3 c d); [|done|done]. rewrite HG. by apply list_elem_of_singleton. }
        rewrite HG in Hd'. by apply list_elem_of_singleton in Hd'.
Qed.

Lemma groupLoop_inv fuel : (length l ≤ fuel)%nat →
  ∀ rest scanned acc,
    scanned ++ rest = l →
    groupsInv l scanned acc →
    groupsInv l l (fold_left (groupStep fuel l) rest acc).
Proof.
  intros Hfuel. induction rest as [|c rest IH]; intros scanned acc Hsplit Hinv.
  - simpl. rewrite app_nil_r in Hsplit. by subst scanned.
  - simpl. apply (IH (scanned ++ [c])); [by rewrite <- app_assoc|].
    apply groupStep_inv; [done| |done].
    rewrite <- Hsplit. apply elem_of_app. right. apply elem_of_cons. by left.
Qed.

Lemma groupsInv_start : groupsInv l [] ([], ∅).
Proof.
  split_and!; simpl.
  - intros x _ Hx. set_solver.
  - intros y Hy. by apply elem_of_nil in Hy.
  - intros g Hg. by apply elem_of_nil in Hg.
  - intros k k' g g' c Hk. by rewrite lookup_nil in Hk.
  - intros x _ Hx. set_solver.
Qed.

Lemma groupLinkableContactsFuel_inv fuel :
  (length l ≤ fuel)%nat →
  groupsInv l l (fold_left (groupStep fuel l) l ([], ∅)).
Proof.
  intros Hfuel. apply (groupLoop_inv fuel Hfuel l []); [done|].
  apply groupsInv_start.
Qed.

End Groups.

(** ** Grouping: enough fuel *)

Section Fuel.

Variable l : list Contact.
Hypothesis Hids : NoDup (map id l).

Lemma skip_processed (step : Visit → Contact → Visit) rest v :
  (∀ v' c, id c ∈ snd v' → step v' c = v') →
  (∀ y, y ∈ rest → id y ∈ snd v) →
  fold_left step rest v = v.
Proof.
  intros Hstep. induction rest as [|c rest IH]; intros Hall; simpl; [done|].
  rewrite Hstep by (apply Hall, elem_of_cons; by left).
  apply IH. intros y Hy. apply Hall, elem_of_cons. by right.
Qed.

Lemma findLinkedContacts_all_processed fuel b v :
  unprocessed l (snd v) = 0%nat → findLinkedContacts fuel b l v = v.
Proof.
  intros Hz. destruct fuel as [|fuel]; simpl; [done|].
  apply skip_processed.
  - intros v' c Hc. by rewrite bool_decide_eq_true_2.
  - intros y Hy. by apply (unprocessed_zero l Hids).
Qed.

Lemma findLinkedContacts_fuel fuel1 : ∀ fuel2 b v,
  b ∈ l →
  (unprocessed l (snd v) ≤ fuel1)%nat →
  (unprocessed l (snd v) ≤ fuel2)%nat →
  findLinkedContacts fuel1 b l v = findLinkedContacts fuel2 b l v.
Proof.
  induction fuel1 as [|fuel1 IH]; intros fuel2 b v Hb H1 H2.
  { rewrite !findLinkedContacts_all_processed; [done|lia|lia]. }
  destruct fuel2 as [|fuel2].
  { rewrite !findLinkedContacts_all_processed; [done|lia|lia]. }
  simpl.
  assert (Hloop : ∀ rest v1,
             (∀ y, y ∈ rest → y ∈ l) →
             (unprocessed l (snd v1) ≤ S fuel1)%nat →
             (unprocessed l (snd v1) ≤ S fuel2)%nat →
             fold_left
               (λ v' contact',
                  if bool_decide (id contact' ∈ snd v') then v'
                  else if shouldLink b contact'
                       then findLinkedContacts fuel1 contact' l (visit contact' v')
                       else v') rest v1
             = fold_left
                 (λ v' contact',
                    if bool_decide (id contact' ∈ snd v') then v'
                    else if shouldLink b contact'
                         then findLinkedContacts fuel2 contact' l (visit contact' v')
                         else v') rest v1).
  { induction rest as [|c rest IHrest]; intros v1 Hrest Hv1 Hv2; simpl; [done|].
    assert (Hc : c ∈ l) by (apply Hrest, elem_of_cons; by left).
    assert (Hrest' : ∀ y, y ∈ rest → y ∈ l).
    { intros y Hy. apply Hrest, elem_of_cons. by right. }
    case_bool_decide as Hproc; [by apply IHrest|].
    destruct (shouldLink b c); [|by apply IHrest].
    pose proof (unprocessed_visit l Hids c (snd v1) Hc Hproc) as Hlt.
    rewrite (IH fuel2 c (visit c v1) Hc) by (simpl; lia).
    destruct (findLinkedContacts_spec l Hids fuel2 c (visit c v1) Hc)
      as [Hext _]; [simpl; lia|].
    pose proof (unprocessed_mono l Hids _ _ (extends_subseteq l Hids _ _ _ Hext))
      as Hmono.
    simpl in Hmono. apply IHrest; [done|lia|lia]. }
  by apply Hloop.
Qed.

Lemma groupStep_fuel fuel acc c :
  c ∈ l → (length l ≤ fuel)%nat →
  groupStep fuel l acc c = groupStep (length l) l acc c.
Proof.
  intros Hc Hfuel. unfold groupStep. case_bool_decide; [done|].
  rewrite (findLinkedContacts_fuel fuel (length l) c); [done|done|..].
  - etrans; [apply (unprocessed_bound l Hids)|done].
  - apply (unprocessed_bound l Hids).
Qed.

Lemma groupLinkableContactsFuel_enough fuel :
  (length l ≤ fuel)%nat →
  groupLinkableContactsFuel fuel l = groupLinkableContacts l.
Proof.
  intros Hfuel. unfold groupLinkableContacts, groupLinkableContactsFuel. f_equal.
  assert (Hloop : ∀ rest acc, (∀ y, y ∈ rest → y ∈ l) →
             fold_left (groupStep fuel l) rest acc
             = fold_left (groupStep (length l) l) rest acc).
  { induction rest as [|c rest IH]; intros acc Hrest; simpl; [done|].
    rewrite groupStep_fuel; [|apply Hrest, elem_of_cons; by left|done].
    apply IH. intros y Hy. apply Hrest, elem_of_cons. by right. }
  by apply Hloop.
Qed.

End Fuel.

(** ** Grouping: connected components *)

Lemma groupLinkableContacts_inv l :
  NoDup (map id l) →
  groupsInv l l (fold_left (groupStep (length l) l) l ([], ∅)).
Proof. intros Hids. by apply groupLinkableContactsFuel_inv. Qed.

Lemma connectedIn_Permutation l l' a b :
  Permutation l l' → connectedIn l a b → connectedIn l' a b.
Proof.
  intros Hperm. unfold connectedIn. apply rtc_subrel.
  intros x y (Hx & Hy & Hxy). split_and!; [| |done]; by rewrite <- Hperm.
Qed.

Lemma hasLink_Permutation l l' c : Permutation l l' → hasLink l c → hasLink l' c.
Proof.
  intros Hperm (d & Hd & Hne & Hcd). exists d. split_and!; [|done|done].
  by rewrite <- Hperm.
Qed.

Lemma sameGroup_spec l c d :
  NoDup (map id l) →
  sameGroup l c d ↔ c ∈ l ∧ hasLink l c ∧ connectedIn l c d.
Proof.
  intros Hids.
  destruct (groupLinkableContacts_inv l Hids)
    as (_ & Hscanned & Hgroups & _ & Hlinks).
  unfold sameGroup, groupLinkableContacts, groupLinkableContactsFuel.
  set (acc := fold_left (groupStep (length l) l) l ([], ∅)) in *.
  split.
  - intros (g & Hg & Hc & Hd).
    destruct (Hgroups g Hg) as (_ & _ & Hmem).
    destruct (Hmem c Hc) as (Hcl & HcP & Hcomp).
    split_and!; [done| |by apply Hcomp].
    apply (Hlinks c Hcl HcP). eauto.
  - intros (Hcl & Hlink & Hconn).
    apply (Hlinks c Hcl (Hscanned c Hcl)) in Hlink as (g & Hg & Hc).
    exists g. split_and!; [done|done|].
    destruct (Hgroups g Hg) as (_ & _ & Hmem).
    by apply (Hmem c Hc).
Qed.

(** C8, counterexample.  A single contact is linked to no other contact:
    its group of one is dropped, and it belongs to no group. *)
Lemma isolated_contact_is_in_no_group :
  ¬ inExactlyOneGroup [Examples.primary1].
Proof.
  intros H.
  destruct (H (NoDup_singleton _) Examples.primary1) as (k & g & Hk & _).
  - by apply list_elem_of_singleton.
  - vm_compute in Hk. discriminate Hk.
Qed.

(** C8, amended.  On contacts with distinct ids, [groupLinkableContacts]
    returns the connected components of the shared-attribute graph that
    have at least two members: each group is without repetition and holds,
    for any of its members, exactly the contacts connected to it; a contact
    belongs to at most one group, and to one exactly when it shares an
    attribute with another contact of the input; and which contacts are
    grouped together is the same for every order of the input list.  The
    recursion depth never exceeds the number of contacts. *)
Theorem groupLinkableContacts_components l :
  NoDup (map id l) →
  (∀ fuel, (length l ≤ fuel)%nat →
           groupLinkableContactsFuel fuel l = groupLinkableContacts l)
  ∧ (∀ g, g ∈ groupLinkableContacts l →
          (2 ≤ length g)%nat ∧ NoDup g
          ∧ ∀ c, c ∈ g → c ∈ l ∧ ∀ d, d ∈ g ↔ connectedIn l c d)
  ∧ (∀ (k k' : nat) g g' c,
        groupLinkableContacts l !! k = Some g →
        groupLinkableContacts l !! k' = Some g' →
        c ∈ g → c ∈ g' → k = k')
  ∧ (∀ c, c ∈ l → ((∃ g, g ∈ groupLinkableContacts l ∧ c ∈ g) ↔ hasLink l c))
  ∧ (∀ l', Permutation l l' → ∀ c d, sameGroup l c d ↔ sameGroup l' c d).
Proof.
  intros Hids.
  pose proof (groupLinkableContacts_inv l Hids)
    as (_ & Hscanned & Hgroups & Hdisj & Hlinks).
  split_and!.
  - intros fuel Hfuel. by apply groupLinkableContactsFuel_enough.
  - intros g Hg. destruct (Hgroups g Hg) as (Hlen & Hnd & Hmem).
    split_and!; [done|done|]. intros c Hc.
    destruct (Hmem c Hc) as (? & _ & ?). done.
  - exact Hdisj.
  - intros c Hc. apply (Hlinks c Hc). by apply Hscanned.
  - intros l' Hperm c d.
    assert (Hids' : NoDup (map id l')) by by rewrite <- Hperm.
    rewrite (sameGroup_spec l c d Hids), (sameGroup_spec l' c d Hids').
    split; intros (Hc & Hlink & Hconn).
    + split_and!; [by rewrite <- Hperm|by eapply hasLink_Permutation|
                   by eapply connectedIn_Permutation].
    + symmetry in Hperm.
      split_and!; [by rewrite <- Hperm|by eapply hasLink_Permutation|
                   by eapply connectedIn_Permutation].
Qed.

Lemma groupLinkableContacts_components_witness :
  NoDup (map id (rows Examples.bothChains))
  ∧ (∀ g, g ∈ groupLinkableContacts (rows Examples.bothChains) →
       (2 ≤ length g)%nat ∧ NoDup g
       ∧ ∀ c, c ∈ g →
           c ∈ rows Examples.bothChains
           ∧ ∀ d, d ∈ g ↔ connectedIn (rows Examples.bothChains) c d)
  ∧ (∀ c d, sameGroup (rows Examples.bothChains) c d
            ↔ sameGroup (rev (rows Examples.bothChains)) c d).
Proof.
  assert (Hids : NoDup (map id (rows Examples.bothChains))).
  { apply (bool_decide_unpack _). vm_compute. exact I. }
  split; [exact Hids|].
  destruct (groupLinkableContacts_components (rows Examples.bothChains) Hids)
    as (_ & Hgroups & _ & _ & Horder).
  split; [exact Hgroups|].
  apply Horder. apply Permutation_rev.
Defined.

(** * More properties *)

(** ** What the resolver writes *)

Lemma sameData_refl c : sameData c c.
Proof. by repeat split. Qed.

Lemma relinkedFrom_refl st c : relinkedFrom st c c.
Proof. split; [apply sameData_refl|by left]. Qed.

Lemma relinkedFrom_trans st a b c :
  relinkedFrom st a b → relinkedFrom st b c → relinkedFrom st a c.
Proof.
  intros [(H1 & H2 & H3 & H4 & H5) Hl] [(K1 & K2 & K3 & K4 & K5) Kl].
  split; [repeat split; congruence|].
  destruct Kl as [Kl|Kl]; [|by right].
  rewrite Kl. exact Hl.
Qed.

Lemma Forall2_map_self {A} (R : A → A → Prop) (f : A → A) l :
  (∀ x, R x (f x)) → Forall2 R l (map f l).
Proof. intros H. induction l; simpl; by constructor. Qed.

Lemma Forall2_relinkedFrom_trans st l1 l2 l3 :
  Forall2 (relinkedFrom st) l1 l2 → Forall2 (relinkedFrom st) l2 l3 →
  Forall2 (relinkedFrom st) l1 l3.
Proof.
  intros H12 H23. eapply Forall2_trans; [|exact H12|exact H23].
  intros a b c. apply relinkedFrom_trans.
Qed.

Lemma applyUpdate_relinkedFrom st now l prec c :
  linksInto st l →
  relinkedFrom st c
    (applyUpdate now {| u_phoneNumber := None; u_email := None;
                        u_linkedId := Some l; u_linkPrecedence := prec |} c).
Proof. intros Hl. split; [by repeat split|by right]. Qed.

Lemma updateContactLinkage_nextId now i u st :
  nextId (snd (updateContactLinkage now i u st)) = nextId st.
Proof. unfold updateContactLinkage. by destruct (List.find _ (rows st)). Qed.

Lemma updateContactLinkage_effect st0 now i l prec st :
  linksInto st0 l →
  Forall2 (relinkedFrom st0) (rows st)
    (rows (snd (updateContactLinkage now i
                  {| u_phoneNumber := None; u_email := None;
                     u_linkedId := Some l; u_linkPrecedence := prec |} st))).
Proof.
  intros Hl. rewrite updateContactLinkage_rows. apply Forall2_map_self.
  intros c. case_bool_decide; [by apply applyUpdate_relinkedFrom|].
  apply relinkedFrom_refl.
Qed.

Lemma relinkLoop_nextId now o n chain acc :
  nextId (snd (fold_left (relinkStep now o n) chain acc)) = nextId (snd acc).
Proof.
  revert acc. induction chain as [|c chain IH]; intros acc; simpl; [done|].
  rewrite IH. unfold relinkStep.
  destruct (negb _ && isSecondary c); [|done].
  destruct (updateContactLinkage now (id c) _ (snd acc)) as [r st'] eqn:Hupd.
  simpl. replace st' with (snd (updateContactLinkage now (id c)
    {| u_phoneNumber := None; u_email := None; u_linkedId := Some (Some o);
       u_linkPrecedence := Some PRIMARY |} (snd acc))) by (by rewrite Hupd).
  apply updateContactLinkage_nextId.
Qed.

Lemma mergeContactChains_nextId now o n st :
  nextId (snd (mergeContactChains now o n st)) = nextId st.
Proof.
  unfold mergeContactChains.
  set (start := match List.find _ _ with Some _ => _ | None => _ end).
  destruct (fold_left _ _ start) as [upd st''] eqn:Hloop. simpl.
  replace st'' with
    (snd (fold_left (relinkStep now o n) (getAllLinkedContacts n st) start))
    by (by rewrite Hloop).
  rewrite relinkLoop_nextId. unfold start.
  destruct (List.find _ _); [|done].
  unfold convertPrimaryToSecondary.
  destruct (updateContactLinkage now n _ st) as [r st'] eqn:Hupd. simpl.
  replace st' with (snd (updateContactLinkage now n
    {| u_phoneNumber := None; u_email := None; u_linkedId := Some (Some o);
       u_linkPrecedence := Some SECONDARY |} st)) by (by rewrite Hupd).
  apply updateContactLinkage_nextId.
Qed.

Lemma mergeContactChains_effect st0 now o n st :
  linksInto st0 (Some o) →
  Forall2 (relinkedFrom st0) (rows st)
    (rows (snd (mergeContactChains now o n st))).
Proof.
  intros Ho. rewrite mergeContactChains_rows. apply Forall2_map_self.
  intros c. unfold relinkRow, demoteRow.
  destruct (existsb _ _ && bool_decide (id c = n));
    destruct (existsb _ _);
    repeat first [ apply relinkedFrom_refl
                 | by apply applyUpdate_relinkedFrom
                 | eapply relinkedFrom_trans;
                   [by apply applyUpdate_relinkedFrom|] ].
Qed.

Lemma Forall2_relinkedFrom_refl st l : Forall2 (relinkedFrom st) l l.
Proof. induction l; constructor; [apply relinkedFrom_refl|done]. Qed.

Lemma mergeAll_effect st0 now o newer : ∀ st,
  linksInto st0 (Some o) →
  nextId (mergeAll now o newer st) = nextId st
  ∧ Forall2 (relinkedFrom st0) (rows st) (rows (mergeAll now o newer st)).
Proof.
  unfold mergeAll. induction newer as [|c newer IH]; intros st Ho; simpl.
  - split; [done|]. apply Forall2_relinkedFrom_refl.
  - destruct (IH (snd (mergeContactChains now o (id c) st)) Ho) as [Hn Hr].
    split; [by rewrite Hn, mergeContactChains_nextId|].
    eapply Forall2_relinkedFrom_trans; [|exact Hr].
    by apply mergeContactChains_effect.
Qed.

Lemma effect_linkage now st st1 :
  nextId st1 = nextId st →
  Forall2 (relinkedFrom st) (rows st) (rows st1) →
  identifyEffect now st st1.
Proof.
  intros Hn Hr. exists (rows st1), []. split_and!.
  - by rewrite app_nil_r.
  - done.
  - simpl. lia.
  - simpl. lia.
  - intros c Hc. by apply elem_of_nil in Hc.
Qed.

Lemma effect_create now st st1 data :
  nextId st1 = nextId st →
  Forall2 (relinkedFrom st) (rows st) (rows st1) →
  linksInto st (c_linkedId data) →
  identifyEffect now st (snd (createContact now data st1)).
Proof.
  intros Hn Hr Hl. unfold createContact. simpl.
  eexists (rows st1), [_]. split_and!.
  - reflexivity.
  - done.
  - simpl. lia.
  - simpl. lia.
  - intros c Hc. apply list_elem_of_singleton in Hc as ->. simpl.
    by rewrite Hn.
Qed.

Lemma effect_refl now st : identifyEffect now st st.
Proof. apply effect_linkage; [done|apply Forall2_relinkedFrom_refl]. Qed.

Lemma row_linksInto st c : In c (rows st) → linksInto st (Some (id c)).
Proof. intros Hc. right. exists c. split; [by apply list_elem_of_In|done]. Qed.

Lemma handleNoExistingContacts_effect now e p st :
  identifyEffect now st (snd (handleNoExistingContacts now e p st)).
Proof.
  unfold handleNoExistingContacts, createPrimaryContact.
  destruct (createContact now _ st) as [r st'] eqn:Hc.
  replace st' with (snd (createContact now
    {| c_phoneNumber := orNullS p; c_email := orNullS e; c_linkedId := None;
       c_linkPrecedence := PRIMARY |} st)) by (by rewrite Hc).
  assert (Heff : identifyEffect now st (snd (createContact now
    {| c_phoneNumber := orNullS p; c_email := orNullS e; c_linkedId := None;
       c_linkPrecedence := PRIMARY |} st))).
  { apply effect_create; [done|apply Forall2_relinkedFrom_refl|by left]. }
  by destruct r.
Qed.

Lemma chosen_primary_in_rows request st q :
  match primaryContact (candidates request st) with
  | Some p0 => Some p0
  | None => List.find isPrimary (contacts (candidates request st))
  end = Some q →
  In q (rows st).
Proof.
  destruct (primaryContact (candidates request st)) as [p0|] eqn:Hp.
  - intros [= <-]. apply primaryContact_Some in Hp as (Hin & _).
    by apply candidates_spec in Hin as [? _].
  - intros Hfind. apply find_some in Hfind as [Hin _].
    by apply candidates_spec in Hin as [? _].
Qed.

Lemma identifyContact_effect now request st :
  identifyEffect now st (snd (identifyContact now request st)).
Proof.
  unfold identifyContact. fold (candidates request st).
  set (e := orNull (reqEmail request)). set (p := orNull (reqPhoneNumber request)).
  case_bool_decide as Hnone; [apply handleNoExistingContacts_effect|].
  destruct (isExactDuplicate _ _ _); [apply effect_refl|].
  destruct (bool_decide _ && bool_decide _).
  { unfold handleSinglePrimaryContact.
    destruct (primaryContact (candidates request st)) as [q|] eqn:Hq;
      [|apply effect_refl].
    apply primaryContact_Some in Hq as (Hin & _).
    apply candidates_spec in Hin as [Hin _].
    destruct (needsSecondaryContact q e p); [|apply effect_refl].
    unfold createSecondaryContact.
    destruct (createContact now _ st) as [r st'] eqn:Hc.
    replace st' with (snd (createContact now
      {| c_phoneNumber := orNullS p; c_email := orNullS e;
         c_linkedId := Some (id q); c_linkPrecedence := SECONDARY |} st))
      by (by rewrite Hc).
    assert (Heff : identifyEffect now st (snd (createContact now
      {| c_phoneNumber := orNullS p; c_email := orNullS e;
         c_linkedId := Some (id q); c_linkPrecedence := SECONDARY |} st))).
    { apply effect_create; [done|apply Forall2_relinkedFrom_refl|].
      by apply row_linksInto. }
    by destruct r. }
  destruct (hasMultiplePrimaryContacts _).
  { unfold handleMultiplePrimaryContacts.
    destruct (sortBy byCreatedAt _) as [|older newer] eqn:Hsort;
      [apply effect_refl|].
    assert (Hin : In older (rows st)).
    { assert (Ho : In older (older :: newer)) by by left.
      rewrite <- Hsort in Ho. apply In_sortBy, filter_In in Ho as [Ho _].
      by apply candidates_spec in Ho as [? _]. }
    destruct (mergeAll_effect st now (id older) newer st (row_linksInto _ _ Hin))
      as [Hn Hr].
    cbv zeta. cbn [snd]. destruct (checkIfNeedsNewSecondary _ _ _ _).
    - unfold createSecondaryContact. apply effect_create; [done|done|].
      by apply row_linksInto.
    - by apply effect_linkage. }
  unfold handleExistingChain.
  destruct (match primaryContact (candidates request st) with
            | Some p0 => Some p0
            | None => List.find isPrimary (contacts (candidates request st))
            end) as [q|] eqn:Hq.
  { apply chosen_primary_in_rows in Hq. cbv zeta. cbn [snd].
    destruct (checkIfNeedsNewSecondary _ _ _ _); [|apply effect_refl].
    unfold createSecondaryContact.
    apply effect_create; [done|apply Forall2_relinkedFrom_refl|].
    by apply row_linksInto. }
  destruct (oldestOf (contacts (candidates request st))) as [oldest|];
    [|apply handleNoExistingContacts_effect].
  destruct (updateContactLinkage now (id oldest) _ st) as [[u|err] st1] eqn:Hupd.
  - cbn [snd]. replace st1 with (snd (updateContactLinkage now (id oldest)
      {| u_phoneNumber := None; u_email := None; u_linkedId := Some None;
         u_linkPrecedence := Some PRIMARY |} st)) by (by rewrite Hupd).
    apply effect_linkage; [apply updateContactLinkage_nextId|].
    apply updateContactLinkage_effect. by left.
  - apply updateContactLinkage_Failure in Hupd as ->.
    apply handleNoExistingContacts_effect.
Qed.

Lemma effect_wf now st st' :
  uniqueIds st → storeWf st → identifyEffect now st st' →
  uniqueIds st' ∧ storeWf st'.
Proof.
  intros Hu Hwf (kept & added & Hrows & Hkept & Hlen & Hnext & Hadded).
  assert (Hids : map id kept = map id (rows st)).
  { clear -Hkept. induction Hkept as [|c c' l l' [(Hid & _) _] _ IH]; simpl;
      [done|]. by rewrite Hid, IH. }
  assert (Hlink : ∀ l, linksInto st l → ∀ i, l = Some i → i < nextId st).
  { intros l [->|(r & Hr & ->)] i; [done|]. intros [= <-]. by apply Hwf. }
  assert (Hkeptwf : ∀ c', c' ∈ kept →
            id c' < nextId st ∧ ∀ i, linkedId c' = Some i → i < nextId st).
  { intros c' Hc'. apply list_elem_of_lookup in Hc' as [k Hk].
    destruct (Forall2_lookup_r _ _ _ _ _ Hkept Hk) as (c & Hc & (Hid & _) & Hl).
    apply list_elem_of_lookup_2 in Hc. destruct (Hwf c Hc) as [Hcid Hcl].
    split; [by rewrite Hid|].
    intros i Hi. destruct Hl as [Hl|Hl].
    - apply Hcl. by rewrite <- Hl.
    - by apply (Hlink _ Hl). }
  split.
  - unfold uniqueIds. rewrite Hrows, map_app, Hids. apply NoDup_app.
    split_and!; [done| |].
    + intros i Hi Hi'. apply list_elem_of_fmap in Hi as (c & -> & Hc).
      apply list_elem_of_fmap in Hi' as (a & Heq & Ha).
      destruct (Hadded a Ha) as (Haid & _). destruct (Hwf c Hc) as [Hcid _]. lia.
    + destruct added as [|a [|b added]]; [constructor|apply NoDup_singleton|].
      simpl in Hlen. lia.
  - intros c Hc. rewrite Hrows in Hc. apply elem_of_app in Hc as [Hc|Hc].
    + destruct (Hkeptwf c Hc) as [Hid Hl]. split; [lia|].
      intros i Hi. specialize (Hl i Hi). lia.
    + destruct (Hadded c Hc) as (Hid & _ & _ & Hl).
      assert (length added = 1%nat).
      { destruct added; [by apply elem_of_nil in Hc|simpl in *; lia]. }
      split; [lia|]. intros i Hi. specialize (Hlink _ Hl i Hi). lia.
Qed.

(** X1.  Distinct ids, ids below the sequence and links below the sequence
    are kept by every sequence of [identify] calls. *)
Theorem identify_sequence_keeps_keys calls : ∀ st,
  uniqueIds st → storeWf st →
  uniqueIds (identifySequence calls st) ∧ storeWf (identifySequence calls st).
Proof.
  unfold identifySequence.
  induction calls as [|[now request] calls IH]; intros st Hu Hwf; simpl; [done|].
  destruct (effect_wf now st _ Hu Hwf (identifyContact_effect now request st))
    as [Hu' Hwf'].
  by apply IH.
Qed.

Lemma storeWf_twoChains : storeWf Examples.twoChains.
Proof.
  intros c Hc. apply list_elem_of_In in Hc. simpl in Hc.
  destruct Hc as [<-|[<-|[<-|[]]]]; simpl; (split; [lia|]);
    intros i Hi; inversion Hi; lia.
Qed.

Lemma identify_sequence_keeps_keys_witness :
  uniqueIds (identifySequence [(500, Examples.requestA2); (600, Examples.requestB2)]
               Examples.twoChains)
  ∧ storeWf (identifySequence [(500, Examples.requestA2); (600, Examples.requestB2)]
               Examples.twoChains).
Proof.
  apply (identify_sequence_keeps_keys
           [(500, Examples.requestA2); (600, Examples.requestB2)]
           Examples.twoChains).
  - apply (bool_decide_unpack _). vm_compute. exact I.
  - exact storeWf_twoChains.
Defined.

(** X2.  A call of [identify] never removes a row and never changes the id,
    email, phone number, creation time or deletion mark of a row: at most
    one row is appended and the sequence advances by at most one. *)
Theorem identify_keeps_contact_data now request st :
  let st' := snd (identifyContact now request st) in
  (length (rows st) ≤ length (rows st') ≤ length (rows st) + 1)%nat
  ∧ nextId st ≤ nextId st' ≤ nextId st + 1
  ∧ ∀ (i : nat) c, rows st !! i = Some c →
      ∃ c', rows st' !! i = Some c' ∧ sameData c c'.
Proof.
  intros st'.
  destruct (identifyContact_effect now request st)
    as (kept & added & Hrows & Hkept & Hlen & Hnext & _).
  fold st' in Hrows, Hnext.
  pose proof (Forall2_length _ _ _ Hkept) as Hklen.
  split_and!.
  - rewrite Hrows, length_app. lia.
  - rewrite Hrows, length_app. lia.
  - lia.
  - lia.
  - intros i c Hi.
    destruct (Forall2_lookup_l _ _ _ _ _ Hkept Hi) as (c' & Hc' & Hdata & _).
    exists c'. split; [|done]. rewrite Hrows. by apply lookup_app_l_Some.
Qed.

(** ** The candidate query and the chain query *)

Lemma insertSorted_chain x l :
  StronglySorted chainBefore l →
  StronglySorted chainBefore (insertSorted byPrecedenceThenCreatedAt x l).
Proof.
  assert (Hspec : ∀ a b, byPrecedenceThenCreatedAt a b = true ↔ chainBefore a b).
  { intros a b. unfold byPrecedenceThenCreatedAt, chainBefore.
    rewrite orb_true_iff, andb_true_iff, Z.ltb_lt, Z.eqb_eq, Z.leb_le. tauto. }
  induction l as [|y l IH]; simpl; intros Hs.
  - repeat constructor.
  - apply StronglySorted_inv in Hs as [Hl Hy].
    destruct (byPrecedenceThenCreatedAt x y) eqn:Hxy.
    + apply Hspec in Hxy. constructor; [by constructor|].
      constructor; [done|].
      eapply Forall_impl; [exact Hy|].
      intros z Hz. unfold chainBefore in *. lia.
    + constructor; [by apply IH|].
      eapply Permutation_Forall; [symmetry; apply insertSorted_Permutation|].
      constructor; [|done].
      assert (Hn : ¬ chainBefore x y) by (rewrite <- Hspec; congruence).
      unfold chainBefore in *. lia.
Qed.

Lemma sortBy_chain l :
  StronglySorted chainBefore (sortBy byPrecedenceThenCreatedAt l).
Proof.
  induction l as [|x l IH]; simpl; [constructor|]. by apply insertSorted_chain.
Qed.

Lemma chain_active i st d :
  In d (getAllLinkedContacts i st) → active d = true.
Proof.
  unfold getAllLinkedContacts.
  destruct (findUnique i st) as [c|] eqn:Hc; [|done].
  apply findUnique_Some in Hc as (_ & _ & Hact).
  assert (Hone : In d [c] → active d = true) by (intros [<-|[]]; done).
  destruct (linkPrecedence c); simpl.
  - case_bool_decide; [done|].
    rewrite In_sortBy, filter_In, andb_true_iff. tauto.
  - destruct (linkedId c) as [p|]; [|done].
    case_bool_decide; [done|].
    rewrite In_sortBy, filter_In, andb_true_iff. tauto.
Qed.

(** X3.  On a store with distinct ids, [getAllLinkedContacts] lists active
    rows of the store, none of them twice, the rows marked Primary before
    the rows marked Secondary and each class by ascending creation time. *)
Theorem getAllLinkedContacts_sorted i st :
  uniqueIds st →
  StronglySorted chainBefore (getAllLinkedContacts i st)
  ∧ (∀ c, c ∈ getAllLinkedContacts i st → c ∈ rows st ∧ active c = true)
  ∧ NoDup (getAllLinkedContacts i st).
Proof.
  intros Hu. split_and!.
  - unfold getAllLinkedContacts.
    destruct (findUnique i st) as [c|]; [|constructor].
    assert (Hone : StronglySorted chainBefore [c]) by (repeat constructor).
    destruct (linkPrecedence c); simpl.
    + case_bool_decide; [done|apply sortBy_chain].
    + destruct (linkedId c); [|done].
      case_bool_decide; [done|apply sortBy_chain].
  - intros c Hc. apply list_elem_of_In in Hc. split.
    + by apply list_elem_of_In, (chain_subset i).
    + by apply (chain_active i st).
  - assert (Hrows : NoDup (rows st)) by by apply NoDup_fmap_1 in Hu.
    unfold getAllLinkedContacts.
    destruct (findUnique i st) as [c|]; [|constructor].
    assert (Hone : NoDup [c]) by apply NoDup_singleton.
    assert (Hsorted : ∀ f, NoDup (sortBy byPrecedenceThenCreatedAt
                                   (List.filter f (rows st)))).
    { intros f. rewrite sortBy_Permutation.
      apply NoDup_ListNoDup, List.NoDup_filter, NoDup_ListNoDup, Hrows. }
    destruct (linkPrecedence c); simpl.
    + case_bool_decide; [done|apply Hsorted].
    + destruct (linkedId c); [|done].
      case_bool_decide; [done|apply Hsorted].
Qed.

Lemma getAllLinkedContacts_sorted_witness :
  StronglySorted chainBefore (getAllLinkedContacts 3 Examples.bothChains)
  ∧ (∀ c, c ∈ getAllLinkedContacts 3 Examples.bothChains →
          c ∈ rows Examples.bothChains ∧ active c = true)
  ∧ NoDup (getAllLinkedContacts 3 Examples.bothChains).
Proof.
  apply (getAllLinkedContacts_sorted 3 Examples.bothChains).
  apply (bool_decide_unpack _). vm_compute. exact I.
Defined.

(** X4.  The candidate query agrees with the two single-field queries of the
    repository: for a non-empty email alone it returns the list of
    [findContactsByEmail], for a non-empty phone number alone the list of
    [findContactsByPhone], and for both fields exactly the contacts that one
    of the two returns.  For the empty string the queries differ: the
    candidate query returns nothing, the single-field queries return the
    rows that hold the empty string. *)
Theorem findContactsByEmailOrPhone_single_queries e p st :
  e ≠ EmptyString → p ≠ EmptyString →
  findContactsByEmailOrPhone (Some e) None st
  = Repository.findContactsByEmail e st
  ∧ findContactsByEmailOrPhone None (Some p) st
    = Repository.findContactsByPhone p st
  ∧ (∀ c, c ∈ findContactsByEmailOrPhone (Some e) (Some p) st ↔
          c ∈ Repository.findContactsByEmail e st
          ∨ c ∈ Repository.findContactsByPhone p st)
  ∧ findContactsByEmailOrPhone (Some EmptyString) None st = []
  ∧ (∀ c, c ∈ Repository.findContactsByEmail EmptyString st ↔
          c ∈ rows st ∧ active c = true ∧ email c = Some EmptyString).
Proof.
  intros He Hp.
  assert (Hte : truthy (Some e) = true).
  { cbn. by rewrite bool_decide_eq_false_2. }
  assert (Htp : truthy (Some p) = true).
  { cbn. by rewrite bool_decide_eq_false_2. }
  split_and!.
  - unfold findContactsByEmailOrPhone, Repository.findContactsByEmail.
    rewrite Hte. cbn [negb andb truthy]. f_equal. apply filter_ext.
    intros c. by rewrite orb_false_r.
  - unfold findContactsByEmailOrPhone, Repository.findContactsByPhone.
    rewrite Htp. cbn [negb andb truthy orb].
    f_equal.
  - intros c. unfold findContactsByEmailOrPhone, Repository.findContactsByEmail,
      Repository.findContactsByPhone.
    rewrite Hte, Htp. cbn [negb andb].
    rewrite !list_elem_of_In, !In_sortBy, !filter_In.
    destruct (bool_decide (email c = Some e)),
      (bool_decide (phoneNumber c = Some p)), (active c); cbn; tauto.
  - done.
  - intros c. unfold Repository.findContactsByEmail.
    rewrite !list_elem_of_In, In_sortBy, filter_In, andb_true_iff,
      bool_decide_eq_true. tauto.
Qed.

Lemma findContactsByEmailOrPhone_single_queries_witness :
  findContactsByEmailOrPhone (Some "a") None Examples.bothChains
  = Repository.findContactsByEmail "a" Examples.bothChains
  ∧ findContactsByEmailOrPhone None (Some "2") Examples.bothChains
    = Repository.findContactsByPhone "2" Examples.bothChains.
Proof.
  destruct (findContactsByEmailOrPhone_single_queries "a" "2"
              Examples.bothChains) as (H1 & H2 & _); [done|done|].
  split; [exact H1|exact H2].
Defined.

(** X5.  The chain returned for an active Secondary is the chain returned
    for the contact it is linked to, when that contact is an active Primary:
    one hop along [linkedId], and the same consolidated view. *)
Theorem chain_of_secondary st s l p :
  uniqueIds st →
  s ∈ rows st → active s = true → linkPrecedence s = SECONDARY →
  linkedId s = Some l → l ≠ 0 →
  findUnique l st = Some p → linkPrecedence p = PRIMARY →
  getAllLinkedContacts (id s) st = getAllLinkedContacts l st
  ∧ consolidateContactInfo (id s) st = consolidateContactInfo l st.
Proof.
  intros Hu Hs Hact Hsec Hlink Hl Hp Hprim.
  assert (Hchain : getAllLinkedContacts (id s) st = getAllLinkedContacts l st).
  { unfold getAllLinkedContacts.
    rewrite (findUnique_unique st s Hu) by (by apply list_elem_of_In || done).
    rewrite Hp, Hsec, Hprim, Hlink.
    apply findUnique_Some in Hp as (_ & -> & _).
    by rewrite !bool_decide_eq_false_2. }
  split; [done|]. unfold consolidateContactInfo. by rewrite Hchain.
Qed.

Lemma chain_of_secondary_witness :
  getAllLinkedContacts 3 Examples.twoChains = getAllLinkedContacts 2 Examples.twoChains
  ∧ consolidateContactInfo 3 Examples.twoChains
    = consolidateContactInfo 2 Examples.twoChains.
Proof.
  apply (chain_of_secondary Examples.twoChains Examples.secondary3 2
           Examples.primary2).
  - apply (bool_decide_unpack _). vm_compute. exact I.
  - apply list_elem_of_In. simpl. tauto.
  - reflexivity.
  - reflexivity.
  - reflexivity.
  - lia.
  - reflexivity.
  - reflexivity.
Defined.

(** ** The branches of [identifyContact] *)

Lemma filter_nil_of {A} (f : A → bool) l :
  (∀ x, In x l → f x = false) → List.filter f l = [].
Proof.
  intros H. induction l as [|x l IH]; simpl; [done|].
  rewrite (H x) by by left. apply IH. intros y Hy. apply H. by right.
Qed.

Lemma orNullS_orNull v : orNullS (orNull v) = orNull v.
Proof.
  destruct v as [| |s]; simpl; try done.
  case_bool_decide as Hs; [done|]. unfold orNullS. simpl.
  by rewrite bool_decide_eq_false_2.
Qed.

Lemma truthy_orNull v : truthy (orNull v) = bool_decide (orNull v ≠ None).
Proof.
  destruct v as [| |s]; simpl; try done.
  case_bool_decide as Hs; [done|]. simpl. by rewrite bool_decide_eq_false_2.
Qed.

Lemma option_list_orNull v :
  (if truthy (orNull v) then option_list (orNull v) else []) = option_list (orNull v).
Proof.
  destruct v as [| |s]; simpl; try done.
  case_bool_decide as Hs; [done|]. simpl. by rewrite bool_decide_eq_false_2.
Qed.

(** X6.  When no active row holds the request's non-empty email or its
    non-empty phone number, [identify] appends one Primary with the
    request's values (an empty or absent field stored as null) and answers
    with its id, its values and no Secondary. *)
Theorem identify_fresh_identity now request st :
  (∀ c, c ∈ rows st → active c = true →
        ¬ matchesRequest (orNull (reqEmail request))
            (orNull (reqPhoneNumber request)) c) →
  identifyContact now request st =
    (Success {| contact :=
                  {| primaryContactId := nextId st;
                     emails := option_list (orNull (reqEmail request));
                     phoneNumbers := option_list (orNull (reqPhoneNumber request));
                     secondaryContactIds := [] |} |},
     {| rows := rows st
                ++ [newRow now st (orNull (reqEmail request))
                      (orNull (reqPhoneNumber request)) None PRIMARY];
        nextId := nextId st + 1 |}).
Proof.
  intros Hnone.
  assert (Hcand : findContactsByEmailOrPhone (orNull (reqEmail request))
                    (orNull (reqPhoneNumber request)) st = []).
  { unfold findContactsByEmailOrPhone.
    destruct (negb _ && negb _); [done|].
    rewrite filter_nil_of; [done|].
    intros c Hc. apply not_true_is_false. intros Hb.
    apply andb_true_iff in Hb as [Hm Hact].
    apply (Hnone c); [by apply list_elem_of_In|done|].
    apply orb_true_iff in Hm as [Hm|Hm]; apply andb_true_iff in Hm as [Ht Heq];
      apply bool_decide_eq_true in Heq; [by left|by right]. }
  unfold identifyContact, findExistingContacts. rewrite Hcand. simpl.
  unfold handleNoExistingContacts, createPrimaryContact, createContact. simpl.
  rewrite !orNullS_orNull, !option_list_orNull. reflexivity.
Qed.

Lemma identify_fresh_identity_witness :
  identifyContact 500 {| reqEmail := Str "z"; reqPhoneNumber := Null |}
    Examples.twoChains =
    (Success {| contact := {| primaryContactId := 4; emails := ["z"];
                              phoneNumbers := []; secondaryContactIds := [] |} |},
     {| rows := rows Examples.twoChains
                ++ [newRow 500 Examples.twoChains (Some "z") None None PRIMARY];
        nextId := 5 |}).
Proof.
  apply (identify_fresh_identity 500
           {| reqEmail := Str "z"; reqPhoneNumber := Null |} Examples.twoChains).
  intros c Hc _ [[_ He]|[Ht _]]; [|discriminate Ht].
  apply list_elem_of_In in Hc. simpl in Hc.
  destruct Hc as [<-|[<-|[<-|[]]]]; discriminate He.
Defined.

(** X7.  [needsSecondaryContact] holds exactly when one field of the request
    equals the Primary's and the other is a non-null value that differs from
    the Primary's: the two rules about a null field of the Primary add no
    case.  So a request with one field only never needs a Secondary under a
    Primary that holds this field. *)
Theorem needsSecondaryContact_spec p e ph :
  (needsSecondaryContact p e ph = true ↔
     (email p = e ∧ phoneNumber p ≠ ph ∧ ph ≠ None)
     ∨ (phoneNumber p = ph ∧ email p ≠ e ∧ e ≠ None))
  ∧ (e = None ∧ phoneNumber p = ph ∨ ph = None ∧ email p = e →
     needsSecondaryContact p e ph = false).
Proof.
  assert (Hspec : needsSecondaryContact p e ph = true ↔
     (email p = e ∧ phoneNumber p ≠ ph ∧ ph ≠ None)
     ∨ (phoneNumber p = ph ∧ email p ≠ e ∧ e ≠ None)).
  { unfold needsSecondaryContact.
    repeat case_bool_decide; simpl; split; try done; try tauto;
      intros [(? & ? & ?)|(? & ? & ?)]; congruence. }
  split; [done|].
  intros Hnull. apply not_true_is_false. rewrite Hspec.
  intros [(He & Hp & Hn)|(Hp & He & Hn)];
    destruct Hnull as [[-> ?]|[-> ?]]; congruence.
Qed.

Lemma oldestOf_is_Some l : l ≠ [] → ∃ p, oldestOf l = Some p.
Proof. destruct l; [done|]. simpl. eauto. Qed.

(** X8.  When every candidate is marked Primary and none equals the request
    on both fields, [identify] writes no existing row, whatever the number
    of candidates: it appends a Secondary under the oldest candidate if
    [needsSecondaryContact] holds for that candidate, and otherwise leaves
    the store as it is; the answer is the consolidated view for that
    candidate. *)
Theorem primary_candidates_are_not_written now request st :
  contacts (candidates request st) ≠ [] →
  isExactDuplicate (contacts (candidates request st))
    (reqEmail request) (reqPhoneNumber request) = false →
  (∀ c, c ∈ contacts (candidates request st) → linkPrecedence c = PRIMARY) →
  ∃ p, primaryContact (candidates request st) = Some p
    ∧ snd (identifyContact now request st) =
        (if needsSecondaryContact p (orNull (reqEmail request))
              (orNull (reqPhoneNumber request))
         then {| rows := rows st
                         ++ [newRow now st (orNull (reqEmail request))
                               (orNull (reqPhoneNumber request))
                               (Some (id p)) SECONDARY];
                 nextId := nextId st + 1 |}
         else st)
    ∧ fst (identifyContact now request st) =
        consolidateAndReturn (id p) (snd (identifyContact now request st)).
Proof.
  intros Hne Hdup Hprim.
  assert (Hsec : secondaryContacts (candidates request st) = []).
  { change (secondaryContacts (candidates request st))
      with (List.filter isSecondary (contacts (candidates request st))).
    apply filter_nil_of. intros c Hc. apply list_elem_of_In, Hprim in Hc.
    unfold isSecondary. apply bool_decide_eq_false_2. congruence. }
  destruct (oldestOf_is_Some
              (List.filter isPrimary (contacts (candidates request st))))
    as [p Hp].
  { destruct (contacts (candidates request st)) as [|c l] eqn:Hc; [done|].
    simpl. assert (Hcp : isPrimary c = true).
    { apply bool_decide_eq_true, Hprim, elem_of_cons. by left. }
    by rewrite Hcp. }
  change (oldestOf (List.filter isPrimary (contacts (candidates request st))))
    with (primaryContact (candidates request st)) in Hp.
  exists p. split; [done|].
  unfold identifyContact. fold (candidates request st).
  rewrite Hdup, Hp, Hsec, (bool_decide_eq_false_2 _ Hne).
  rewrite !bool_decide_eq_true_2 by (done || eauto).
  cbn [andb]. unfold handleSinglePrimaryContact. rewrite Hp.
  destruct (needsSecondaryContact p _ _).
  - unfold createSecondaryContact, createContact. cbn [fst snd].
    rewrite !orNullS_orNull. done.
  - done.
Qed.

Lemma primary_candidates_are_not_written_witness :
  ∃ p, primaryContact (candidates Examples.requestA2 Examples.twoPrimaries) = Some p
    ∧ snd (identifyContact 500 Examples.requestA2 Examples.twoPrimaries) =
        (if needsSecondaryContact p (Some "a") (Some "2")
         then {| rows := rows Examples.twoPrimaries
                         ++ [newRow 500 Examples.twoPrimaries (Some "a")
                               (Some "2") (Some (id p)) SECONDARY];
                 nextId := 4 |}
         else Examples.twoPrimaries)
    ∧ fst (identifyContact 500 Examples.requestA2 Examples.twoPrimaries) =
        consolidateAndReturn (id p)
          (snd (identifyContact 500 Examples.requestA2 Examples.twoPrimaries)).
Proof.
  apply (primary_candidates_are_not_written 500 Examples.requestA2
           Examples.twoPrimaries).
  - discriminate.
  - reflexivity.
  - intros c Hc. vm_compute in Hc. apply list_elem_of_In in Hc. simpl in Hc.
    destruct Hc as [<-|[<-|[]]]; reflexivity.
Defined.

(** X9.  [mergeContactChains] with a newer id that the [id] column can hold
    but that no active row holds (the row is missing or soft-deleted) writes
    nothing and still reports success, with an empty list of updated
    contacts. *)
Theorem mergeContactChains_without_newer now o n st :
  validId n →
  (∀ c, c ∈ rows st → id c = n → active c = false) →
  mergeContactChains now o n st = (Success [], st).
Proof.
  intros _ Hgone.
  assert (Hfind : findUnique n st = None).
  { unfold findUnique. destruct (List.find _ (rows st)) as [c|] eqn:Hc; [|done].
    apply find_some in Hc as [Hin Hb]. apply andb_true_iff in Hb as [Hid Hact].
    apply bool_decide_eq_true in Hid. apply list_elem_of_In in Hin.
    by rewrite (Hgone c Hin Hid) in Hact. }
  unfold mergeContactChains, getAllLinkedContacts. by rewrite Hfind.
Qed.

Lemma mergeContactChains_without_newer_witness :
  validId 9
  ∧ mergeContactChains 500 1 9 Examples.twoChains
    = (Success [], Examples.twoChains).
Proof.
  assert (Hv : validId 9) by (unfold validId; lia).
  split; [exact Hv|].
  apply (mergeContactChains_without_newer 500 1 9 Examples.twoChains Hv).
  intros c Hc Hid. apply list_elem_of_In in Hc. simpl in Hc.
  destruct Hc as [<-|[<-|[<-|[]]]]; discriminate Hid.
Defined.

Lemma find_head_filter {A} (f : A → bool) l x xs :
  List.filter f l = x :: xs → List.find f l = Some x.
Proof.
  induction l as [|y l IH]; cbn [List.filter List.find]; [done|].
  destruct (f y); [by intros [= ->]|exact IH].
Qed.

Lemma chainOk_spec chain :
  chainOk chain = true →
  ∃ p, List.filter isPrimary chain = [p] ∧ List.find isPrimary chain = Some p
       ∧ ∀ s, In s chain → linkPrecedence s = SECONDARY →
              linkedId s = Some (id p).
Proof.
  unfold chainOk.
  destruct (List.filter isPrimary chain) as [|p [|q l]] eqn:Hf; try done.
  intros Hall. exists p. split_and!; [done|by apply (find_head_filter _ _ p [])|].
  intros s Hs Hsec. rewrite forallb_forall in Hall. specialize (Hall s Hs).
  unfold isSecondary in Hall. rewrite bool_decide_eq_true_2 in Hall by done.
  by apply bool_decide_eq_true in Hall.
Qed.

(** X10.  On a store with distinct ids that satisfies the chain invariants,
    [consolidateContactInfo] succeeds for every active contact; the
    [primaryContactId] of the view is the id of the Primary that owns the
    contact (its own id for a Primary, its [linkedId] for a Secondary), and
    every contact of the chain has the same view. *)
Theorem healthy_store_consolidates st c :
  uniqueIds st → chainInvariants st = true →
  c ∈ rows st → active c = true →
  ∃ r, consolidateContactInfo (id c) st = Success r
       ∧ chainPrimaryId c = Some (primaryContactId r)
       ∧ ∀ d, d ∈ getAllLinkedContacts (id c) st →
              consolidateContactInfo (id d) st = Success r.
Proof.
  intros Hu Hinv Hc Ha. apply list_elem_of_In in Hc.
  pose proof (findUnique_unique st c Hu Hc Ha) as Hfind.
  assert (Hok : chainOk (getAllLinkedContacts (id c) st) = true).
  { unfold chainInvariants in Hinv. rewrite forallb_forall in Hinv.
    apply Hinv, filter_In. done. }
  apply chainOk_spec in Hok as (p & Hfilter & Hp & Hlinks).
  assert (Hpin : In p (getAllLinkedContacts (id c) st)
                 ∧ linkPrecedence p = PRIMARY).
  { apply find_some in Hp as [Hin Hprim]. split; [done|].
    by apply bool_decide_eq_true in Hprim. }
  destruct Hpin as [Hpin Hpp].
  assert (Honly : ∀ q, In q (getAllLinkedContacts (id c) st) →
                       linkPrecedence q = PRIMARY → q = p).
  { intros q Hq Hqp.
    assert (Hqf : In q (List.filter isPrimary (getAllLinkedContacts (id c) st))).
    { apply filter_In. split; [done|]. by apply bool_decide_eq_true. }
    rewrite Hfilter in Hqf. by destruct Hqf as [->|[]]. }
  assert (Hcin : In c (getAllLinkedContacts (id c) st)).
  { unfold getAllLinkedContacts. rewrite Hfind.
    destruct (linkPrecedence c) eqn:Hlp.
    - case_bool_decide; [by left|].
      apply In_sortBy, filter_In. split; [done|].
      apply andb_true_iff. split; [|done].
      apply orb_true_iff. left. by apply bool_decide_eq_true.
    - destruct (linkedId c) as [l|] eqn:Hl; [|by left].
      case_bool_decide; [by left|].
      apply In_sortBy, filter_In. split; [done|].
      apply andb_true_iff. split; [|done].
      apply orb_true_iff. right. by apply bool_decide_eq_true. }
  assert (Hroot : chainPrimaryId c = Some (id p)).
  { unfold chainPrimaryId. destruct (linkPrecedence c) eqn:Hlp.
    - by rewrite (Honly c Hcin Hlp).
    - by apply Hlinks. }
  assert (Hsame : ∀ d, In d (getAllLinkedContacts (id c) st) →
            getAllLinkedContacts (id d) st = getAllLinkedContacts (id c) st).
  { intros d Hd.
    pose proof (chain_subset _ _ _ Hd) as Hdin.
    pose proof (chain_active _ _ _ Hd) as Hda.
    pose proof (findUnique_unique st d Hu Hdin Hda) as Hfd.
    assert (Hrd : chainPrimaryId d = Some (id p)).
    { unfold chainPrimaryId. destruct (linkPrecedence d) eqn:Hlp.
      - by rewrite (Honly d Hd Hlp).
      - by apply Hlinks. }
    unfold getAllLinkedContacts. rewrite Hfd, Hfind.
    unfold chainPrimaryId in Hrd, Hroot. rewrite Hrd, Hroot.
    case_bool_decide as Hz; [|done].
    (* the root has id 0: both chains are singletons of the same contact *)
    assert (Hc1 : getAllLinkedContacts (id c) st = [c]).
    { unfold getAllLinkedContacts. rewrite Hfind, Hroot.
      by rewrite bool_decide_eq_true_2. }
    rewrite Hc1 in Hd. destruct Hd as [->|[]]. done. }
  exists {| primaryContactId := id p;
            emails :=
              fold_left (λ s c, addIfTruthy s (email c))
                (sortBy byCreatedAt
                   (List.filter isSecondary (getAllLinkedContacts (id c) st)))
                (addIfTruthy [] (email p));
            phoneNumbers :=
              fold_left (λ s c, addIfTruthy s (phoneNumber c))
                (sortBy byCreatedAt
                   (List.filter isSecondary (getAllLinkedContacts (id c) st)))
                (addIfTruthy [] (phoneNumber p));
            secondaryContactIds :=
              map id (sortBy byCreatedAt
                        (List.filter isSecondary
                           (getAllLinkedContacts (id c) st))) |}.
  split_and!.
  - unfold consolidateContactInfo. by rewrite Hp.
  - done.
  - intros d Hd. apply list_elem_of_In in Hd.
    unfold consolidateContactInfo. rewrite (Hsame d Hd). by rewrite Hp.
Qed.

Lemma healthy_store_consolidates_witness :
  chainInvariants Examples.twoChains = true
  ∧ ∃ r, consolidateContactInfo 3 Examples.twoChains = Success r
         ∧ primaryContactId r = 2.
Proof.
  split; [reflexivity|].
  destruct (healthy_store_consolidates Examples.twoChains Examples.secondary3)
    as (r & Hr & Hroot & _).
  - apply (bool_decide_unpack _). vm_compute. exact I.
  - reflexivity.
  - apply (bool_decide_unpack _). vm_compute. exact I.
  - reflexivity.
  - exists r. split; [exact Hr|]. by injection Hroot as <-.
Defined.

(** ** Scoring and best match *)

Lemma strictEq_truthy column v :
  strictEq column v = true → truthy column = truthyField v.
Proof.
  destruct column as [a|], v as [| |s]; simpl; try done.
  intros Heq. by apply bool_decide_eq_true in Heq as ->.
Qed.

(** X11.  [scoreContactMatch] gives 100 exactly for a contact that equals the
    request on both fields, and otherwise one of 0, 30, 50 and 80: the two
    50-point rules never add up.  A positive score means that the contact
    equals the request on at least one field. *)
Theorem scoreContactMatch_range c e p :
  let m := Matcher.scoreContactMatch c e p in
  Matcher.score m ∈ [0; 30; 50; 80; 100]
  ∧ (Matcher.isExactMatch m = true ↔ Matcher.score m = 100)
  ∧ (Matcher.isExactMatch m = true ↔
       strictEq (email c) e = true ∧ strictEq (phoneNumber c) p = true)
  ∧ (0 < Matcher.score m →
       strictEq (email c) e = true ∨ strictEq (phoneNumber c) p = true).
Proof.
  unfold Matcher.scoreContactMatch.
  destruct (strictEq (email c) e) eqn:He;
    destruct (strictEq (phoneNumber c) p) eqn:Hp;
    try (pose proof (strictEq_truthy _ _ He) as Hte; rewrite Hte);
    try (pose proof (strictEq_truthy _ _ Hp) as Htp; rewrite Htp);
    destruct (truthyField e); destruct (truthyField p);
    try destruct (truthy (email c)); try destruct (truthy (phoneNumber c));
    simpl; (split_and!; [set_solver|split; (done || lia)|
                         split; (done || tauto || (intros [? ?]; done))|
                         (intros ?; (tauto || lia))]).
Qed.

Lemma score_nonneg c e p : 0 ≤ Matcher.score (Matcher.scoreContactMatch c e p).
Proof.
  unfold Matcher.scoreContactMatch.
  destruct (strictEq (email c) e); destruct (strictEq (phoneNumber c) p);
    destruct (truthyField e); destruct (truthyField p);
    destruct (truthy (email c)); destruct (truthy (phoneNumber c));
    simpl; lia.
Qed.

Lemma betterMatch_loop e p cs : ∀ best,
  let r := fold_left (Matcher.betterMatch e p) cs best in
  Matcher.bestScore best ≤ Matcher.bestScore r
  ∧ (∀ c, c ∈ cs →
          Matcher.score (Matcher.scoreContactMatch c e p) ≤ Matcher.bestScore r)
  ∧ (r = best
     ∨ ∃ b, b ∈ cs ∧ Matcher.bestMatch r = Some b
            ∧ Matcher.bestScore r = Matcher.score (Matcher.scoreContactMatch b e p)
            ∧ Matcher.bestFactors r
              = Matcher.factors (Matcher.scoreContactMatch b e p)
            ∧ Matcher.bestScore best < Matcher.bestScore r).
Proof.
  induction cs as [|c cs IH]; intros best; simpl.
  - split_and!; [lia| |by left]. intros c Hc. by apply elem_of_nil in Hc.
  - destruct (IH (Matcher.betterMatch e p best c)) as (Hle & Hall & Hres).
    unfold Matcher.betterMatch in *.
    destruct (Z.ltb_spec (Matcher.bestScore best)
                (Matcher.score (Matcher.scoreContactMatch c e p))) as [Hlt|Hge];
      simpl in *.
    + split_and!; [lia| |].
      * intros d Hd. apply elem_of_cons in Hd as [->|Hd]; [done|by apply Hall].
      * right. destruct Hres as [->|(b & Hb & Hm & Hs & Hf & Hlt')].
        -- exists c. simpl. split_and!; [set_solver|done..].
        -- exists b. split_and!; [set_solver|done|done|done|lia].
    + split_and!; [done| |].
      * intros d Hd. apply elem_of_cons in Hd as [->|Hd]; [lia|by apply Hall].
      * destruct Hres as [->|(b & Hb & Hm & Hs & Hf & Hlt')]; [by left|].
        right. exists b. split_and!; [set_solver|done..].
Qed.

(** X12.  [findBestMatch] returns a score that no contact of the list
    exceeds; it returns no contact, with score 0, exactly when every contact
    scores 0 (in particular for the empty list), and otherwise a contact of
    the list together with its own score and factors. *)
Theorem findBestMatch_spec cs e p :
  let r := Matcher.findBestMatch cs e p in
  (∀ c, c ∈ cs →
        Matcher.score (Matcher.scoreContactMatch c e p) ≤ Matcher.bestScore r)
  ∧ (Matcher.bestMatch r = None ↔
       ∀ c, c ∈ cs → Matcher.score (Matcher.scoreContactMatch c e p) = 0)
  ∧ (Matcher.bestMatch r = None → Matcher.bestScore r = 0)
  ∧ (∀ b, Matcher.bestMatch r = Some b →
          b ∈ cs
          ∧ Matcher.bestScore r = Matcher.score (Matcher.scoreContactMatch b e p)
          ∧ Matcher.bestFactors r
            = Matcher.factors (Matcher.scoreContactMatch b e p)
          ∧ 0 < Matcher.bestScore r).
Proof.
  intros r.
  assert (Hr : r = fold_left (Matcher.betterMatch e p) cs
                     {| Matcher.bestMatch := None; Matcher.bestScore := 0;
                        Matcher.bestFactors := [] |}).
  { unfold r, Matcher.findBestMatch. by destruct cs. }
  destruct (betterMatch_loop e p cs
              {| Matcher.bestMatch := None; Matcher.bestScore := 0;
                 Matcher.bestFactors := [] |}) as (Hle & Hall & Hres).
  rewrite <- Hr in Hle, Hall, Hres. simpl in Hle, Hres.
  split_and!.
  - done.
  - split.
    + intros Hnone c Hc.
      destruct Hres as [Heq|(b & _ & Hm & _)]; [|congruence].
      pose proof (Hall c Hc) as Hc'. rewrite Heq in Hc'. simpl in Hc'.
      pose proof (score_nonneg c e p). lia.
    + intros Hzero. destruct Hres as [->|(b & Hb & Hm & Hs & _ & Hlt)]; [done|].
      rewrite (Hzero b Hb) in Hs. lia.
  - intros Hnone. destruct Hres as [->|(b & _ & Hm & _)]; [done|congruence].
  - intros b Hb. destruct Hres as [Heq|(b' & Hb' & Hm & Hs & Hf & Hlt)].
    + rewrite Heq in Hb. done.
    + rewrite Hm in Hb. injection Hb as <-. done.
Qed.

(** ** Validation of a chain *)

Lemma validateContactChain_isValid l :
  Matcher.isValid (Matcher.validateContactChain l) = true ↔
    (length (List.filter isPrimary l) ≤ 1)%nat
    ∧ List.filter (Matcher.isOrphaned l) (List.filter isSecondary l) = []
    ∧ List.filter (Matcher.isInvalidSecondary l) (List.filter isSecondary l) = [].
Proof.
  unfold Matcher.validateContactChain. simpl.
  rewrite bool_decide_eq_true.
  destruct (Z.ltb_spec 1 (Z.of_nat (length (List.filter isPrimary l))));
    destruct (List.filter (Matcher.isOrphaned l) _) as [|o os];
    destruct (List.filter (Matcher.isInvalidSecondary l) _) as [|i is'];
    simpl; split; try done; try (intros (? & ? & ?); first [lia|done]);
    try (intros _; split_and!; first [lia|done]);
    try (intros H'; by apply app_nil in H' as [_ ?]).
Qed.

Lemma invalid_is_orphaned l s :
  Matcher.isInvalidSecondary l s = true → Matcher.isOrphaned l s = true.
Proof.
  unfold Matcher.isInvalidSecondary, Matcher.isOrphaned.
  destruct (Matcher.findLinked l s) as [c|]; [|done].
  unfold isSecondary, isPrimary. intros H. apply bool_decide_eq_true in H.
  rewrite bool_decide_eq_false_2; [done|congruence].
Qed.

Lemma findLinked_unique l s p :
  NoDup (map id l) → p ∈ l → linkedId s = Some (id p) →
  Matcher.findLinked l s = Some p.
Proof.
  intros Hnd Hp Hlink. unfold Matcher.findLinked.
  destruct (List.find _ l) as [c|] eqn:Hc.
  - apply find_some in Hc as [Hin Hid]. apply bool_decide_eq_true in Hid.
    f_equal. apply (id_inj l Hnd); [by apply list_elem_of_In|done|congruence].
  - apply list_elem_of_In in Hp. pose proof (find_none _ _ Hc p Hp) as Hn.
    simpl in Hn. by rewrite bool_decide_eq_true_2 in Hn.
Qed.

(** X13.  [validateContactChain] accepts the empty list, and it accepts a
    non-empty list of contacts with distinct ids exactly when the list holds
    one contact marked Primary and every contact marked Secondary is linked
    to it.  A Secondary linked to a Secondary is always counted as orphaned
    too. *)
Theorem validateContactChain_spec l :
  NoDup (map id l) →
  (l ≠ [] →
   Matcher.isValid (Matcher.validateContactChain l) = true ↔ chainOk l = true)
  ∧ Matcher.isValid (Matcher.validateContactChain []) = true
  ∧ (∀ s, s ∈ l → linkPrecedence s = SECONDARY →
          Matcher.isInvalidSecondary l s = true →
          s ∈ Matcher.orphanedSecondaries (Matcher.validateContactChain l)).
Proof.
  intros Hnd. split_and!.
  - intros Hne. rewrite validateContactChain_isValid. unfold chainOk. split.
    + intros (Hcount & Horph & _).
      assert (Hlinked : ∀ s, s ∈ l → linkPrecedence s = SECONDARY →
                ∃ q, q ∈ l ∧ linkPrecedence q = PRIMARY ∧ linkedId s = Some (id q)).
      { intros s Hs Hsec.
        assert (Hno : Matcher.isOrphaned l s = false).
        { apply not_true_is_false. intros Ho.
          assert (Hin : In s (List.filter (Matcher.isOrphaned l)
                               (List.filter isSecondary l))).
          { apply filter_In. split; [|done]. apply filter_In.
            split; [by apply list_elem_of_In|by apply bool_decide_eq_true]. }
          rewrite Horph in Hin. destruct Hin. }
        unfold Matcher.isOrphaned, Matcher.findLinked in Hno.
        destruct (List.find _ l) as [q|] eqn:Hq; [|done].
        apply find_some in Hq as [Hqin Hid]. apply bool_decide_eq_true in Hid.
        apply negb_false_iff, bool_decide_eq_true in Hno.
        exists q. split_and!; [by apply list_elem_of_In|done|done]. }
      destruct (List.filter isPrimary l) as [|p [|p' ps]] eqn:Hprim;
        [|clear Hcount|simpl in Hcount; lia].
      * exfalso. destruct l as [|c l']; [done|].
        assert (Hc : c ∈ c :: l') by (apply elem_of_cons; by left).
        destruct (linkPrecedence c) eqn:Hmark.
        -- assert (Hin : In c (List.filter isPrimary (c :: l'))).
           { apply filter_In. split; [by left|by apply bool_decide_eq_true]. }
           rewrite Hprim in Hin. destruct Hin.
        -- destruct (Hlinked c Hc Hmark) as (q & Hq & Hqprim & _).
           assert (Hin : In q (List.filter isPrimary (c :: l'))).
           { apply filter_In. split; [by apply list_elem_of_In|].
             by apply bool_decide_eq_true. }
           rewrite Hprim in Hin. destruct Hin.
      * apply forallb_forall. intros s Hs. apply list_elem_of_In in Hs.
        unfold isSecondary. case_bool_decide as Hsec; [|done]. simpl.
        destruct (Hlinked s Hs Hsec) as (q & Hq & Hqprim & Hlink).
        assert (Hin : In q (List.filter isPrimary l)).
        { apply filter_In. split; [by apply list_elem_of_In|].
          by apply bool_decide_eq_true. }
        rewrite Hprim in Hin. destruct Hin as [<-|[]].
        by apply bool_decide_eq_true.
    + destruct (List.filter isPrimary l) as [|p [|p' ps]] eqn:Hprim; try done.
      intros Hall. rewrite forallb_forall in Hall.
      assert (Hp : In p (List.filter isPrimary l)) by (rewrite Hprim; by left).
      apply filter_In in Hp as [Hpin Hpprim].
      assert (Horph : List.filter (Matcher.isOrphaned l)
                        (List.filter isSecondary l) = []).
      { apply filter_nil_of. intros s Hs. apply filter_In in Hs as [Hs Hsec].
        specialize (Hall s Hs). rewrite Hsec in Hall. simpl in Hall.
        apply bool_decide_eq_true in Hall.
        unfold Matcher.isOrphaned.
        rewrite (findLinked_unique l s p Hnd) by (by apply list_elem_of_In || done).
        by rewrite Hpprim. }
      split_and!; [simpl; lia|done|].
      apply filter_nil_of. intros s Hs. apply not_true_is_false. intros Hinv.
      apply invalid_is_orphaned in Hinv.
      assert (Hin : In s (List.filter (Matcher.isOrphaned l)
                            (List.filter isSecondary l)))
        by (apply filter_In; done).
      rewrite Horph in Hin. destruct Hin.
  - reflexivity.
  - intros s Hs Hsec Hinv. simpl. apply list_elem_of_In, filter_In. split.
    + apply filter_In. split; [by apply list_elem_of_In|].
      by apply bool_decide_eq_true.
    + by apply invalid_is_orphaned.
Qed.

Lemma validateContactChain_spec_witness :
  NoDup (map id (getAllLinkedContacts 2 Examples.twoChains))
  ∧ (Matcher.isValid
       (Matcher.validateContactChain (getAllLinkedContacts 2 Examples.twoChains))
     = true
     ↔ chainOk (getAllLinkedContacts 2 Examples.twoChains) = true).
Proof.
  assert (Hnd : NoDup (map id (getAllLinkedContacts 2 Examples.twoChains))).
  { apply (bool_decide_unpack _). vm_compute. exact I. }
  split; [exact Hnd|].
  apply (proj1 (validateContactChain_spec _ Hnd)).
  intros H. vm_compute in H. discriminate.
Defined.

(** ** Linkage analysis *)

Lemma addIds_spec (g : list Contact) : ∀ (ids : gset Z) i,
  i ∈ fold_left (λ ids' c, {[ id c ]} ∪ ids') g ids ↔
    i ∈ ids ∨ ∃ c, c ∈ g ∧ id c = i.
Proof.
  induction g as [|c g IH]; intros ids i; simpl.
  - split; [by left|]. intros [?|(c & Hc & _)]; [done|].
    by apply elem_of_nil in Hc.
  - rewrite IH. split.
    + intros [Hi|(d & Hd & Hid)].
      * apply elem_of_union in Hi as [Hi|Hi]; [|by left].
        apply elem_of_singleton in Hi. right. exists c. split; [set_solver|done].
      * right. exists d. split; [set_solver|done].
    + intros [Hi|(d & Hd & Hid)]; [left; set_solver|].
      apply elem_of_cons in Hd as [->|Hd]; [left; set_solver|right; eauto].
Qed.

Lemma linkedContactIds_fold groups : ∀ (ids : gset Z) i,
  i ∈ fold_left (λ ids group, fold_left (λ ids' c, {[ id c ]} ∪ ids') group ids)
        groups ids ↔
    i ∈ ids ∨ ∃ g c, g ∈ groups ∧ c ∈ g ∧ id c = i.
Proof.
  induction groups as [|g groups IH]; intros ids i; simpl.
  - split; [by left|]. intros [?|(g & c & Hg & _)]; [done|].
    by apply elem_of_nil in Hg.
  - rewrite IH, addIds_spec. split.
    + intros [[Hi|(c & Hc & Hid)]|(g' & c & Hg' & Hc & Hid)].
      * by left.
      * right. exists g, c. split_and!; [set_solver|done|done].
      * right. exists g', c. split_and!; [set_solver|done|done].
    + intros [Hi|(g' & c & Hg' & Hc & Hid)]; [by left; left|].
      apply elem_of_cons in Hg' as [->|Hg']; [left; right; eauto|right; eauto].
Qed.

(** X14.  On contacts with distinct ids, [analyzeContactLinkage] reports as
    isolated exactly the contacts of the input that are in no linkable
    group, which are the contacts sharing no attribute with another contact;
    every contact is either isolated or in a group, never both. *)
Theorem analyzeContactLinkage_isolated l :
  NoDup (map id l) →
  let a := Matcher.analyzeContactLinkage l in
  ∀ c, c ∈ l →
    (c ∈ Matcher.isolatedContacts a ↔
       ¬ ∃ g, g ∈ Matcher.linkableGroups a ∧ c ∈ g)
    ∧ (c ∈ Matcher.isolatedContacts a ↔ ¬ hasLink l c).
Proof.
  intros Hids a c Hc.
  destruct (groupLinkableContacts_inv l Hids)
    as (_ & Hscanned & Hgroups & _ & Hlinks).
  assert (Hiso : c ∈ Matcher.isolatedContacts a ↔
                 ¬ ∃ g, g ∈ groupLinkableContacts l ∧ c ∈ g).
  { unfold a, Matcher.analyzeContactLinkage. simpl.
    rewrite list_elem_of_In, filter_In, negb_true_iff, bool_decide_eq_false.
    unfold Matcher.linkedContactIds. rewrite linkedContactIds_fold. split.
    - intros [_ Hno] (g & Hg & Hcg). apply Hno. right. eauto.
    - intros Hno. split; [by apply list_elem_of_In|].
      intros [Hin|(g & d & Hg & Hd & Hid)]; [set_solver|].
      apply Hno. exists g. split; [done|].
      replace c with d; [done|].
      apply (id_inj l Hids); [|done|done].
      destruct (Hgroups g Hg) as (_ & _ & Hmem). by apply Hmem. }
  split; [done|].
  rewrite Hiso. unfold groupLinkableContacts, groupLinkableContactsFuel.
  by rewrite (Hlinks c Hc (Hscanned c Hc)).
Qed.

Lemma analyzeContactLinkage_isolated_witness :
  NoDup (map id (rows Examples.bothChains))
  ∧ ∀ c, c ∈ rows Examples.bothChains →
      (c ∈ Matcher.isolatedContacts
             (Matcher.analyzeContactLinkage (rows Examples.bothChains)) ↔
         ¬ ∃ g, g ∈ Matcher.linkableGroups
                      (Matcher.analyzeContactLinkage (rows Examples.bothChains))
                ∧ c ∈ g)
      ∧ (c ∈ Matcher.isolatedContacts
               (Matcher.analyzeContactLinkage (rows Examples.bothChains)) ↔
           ¬ hasLink (rows Examples.bothChains) c).
Proof.
  assert (Hids : NoDup (map id (rows Examples.bothChains))).
  { apply (bool_decide_unpack _). vm_compute. exact I. }
  split; [exact Hids|].
  exact (analyzeContactLinkage_isolated (rows Examples.bothChains) Hids).
Defined.

(** ** Choosing a primary, added value and matching criteria *)

(** X15.  [determinePrimary] fails only on the empty list.  It returns a
    contact of the list: the first one marked Primary when there is one, and
    otherwise a contact whose creation time no contact of the list
    precedes. *)
Theorem determinePrimary_spec l :
  (Matcher.determinePrimary l = None ↔ l = [])
  ∧ ∀ p, Matcher.determinePrimary l = Some p →
      p ∈ l
      ∧ ((∃ q, q ∈ l ∧ linkPrecedence q = PRIMARY) →
         linkPrecedence p = PRIMARY ∧ List.find isPrimary l = Some p)
      ∧ ((∀ q, q ∈ l → linkPrecedence q = SECONDARY) →
         ∀ q, q ∈ l → createdAt p ≤ createdAt q).
Proof.
  unfold Matcher.determinePrimary.
  destruct (List.find isPrimary l) as [f|] eqn:Hf.
  - apply find_some in Hf as Hf'. destruct Hf' as [Hin Hprim].
    apply bool_decide_eq_true in Hprim. split.
    + split; [done|]. intros ->. destruct Hin.
    + intros p [= <-]. split_and!; [by apply list_elem_of_In|done|].
      intros Hall. apply list_elem_of_In in Hin. specialize (Hall f Hin).
      congruence.
  - split.
    + split; [apply oldestOf_None|by intros ->].
    + intros p Hp. apply oldestOf_Some in Hp as [Hin Hmin]. split_and!.
      * by apply list_elem_of_In.
      * intros (q & Hq & Hprim). apply list_elem_of_In in Hq.
        pose proof (find_none _ _ Hf q Hq) as Hn.
        apply bool_decide_eq_false in Hn. done.
      * intros _ q Hq. apply Hmin. by apply list_elem_of_In.
Qed.

Lemma strictEq_ofOption column o :
  strictEq column (ofOption o) = bool_decide (column = o).
Proof.
  destruct column as [a|], o as [b|]; simpl; try done.
  apply bool_decide_ext. split; congruence.
Qed.

Lemma truthyField_ofOption o : truthyField (ofOption o) = truthy o.
Proof. by destruct o. Qed.

Lemma existsb_ext_eq {A} (f g : A → bool) l :
  (∀ x, f x = g x) → existsb f l = existsb g l.
Proof. intros H. induction l as [|x l IH]; simpl; [done|]. by rewrite H, IH. Qed.

(** X16.  [checkIfNeedsNewSecondary] of the resolver is [wouldAddValue] of
    the matcher on the chain, together with the condition that a requested
    non-empty value is already on a contact of the chain. *)
Theorem checkIfNeedsNewSecondary_wouldAddValue i e p st :
  checkIfNeedsNewSecondary i e p st =
    Matcher.wouldAddValue (getAllLinkedContacts i st) (ofOption e) (ofOption p)
    && ((truthy e
         && existsb (λ c, bool_decide (email c = e)) (getAllLinkedContacts i st))
        || (truthy p
            && existsb (λ c, bool_decide (phoneNumber c = p))
                 (getAllLinkedContacts i st))).
Proof.
  unfold checkIfNeedsNewSecondary, Matcher.wouldAddValue, Matcher.hasExactMatch,
    getLinkedContactChain.
  rewrite !truthyField_ofOption.
  rewrite (existsb_ext_eq
             (λ c, strictEq (email c) (ofOption e)
                   && strictEq (phoneNumber c) (ofOption p))
             (λ c, bool_decide (email c = e) && bool_decide (phoneNumber c = p)))
    by (intros c; by rewrite !strictEq_ofOption).
  rewrite (existsb_ext_eq (λ c, strictEq (email c) (ofOption e))
             (λ c, bool_decide (email c = e)))
    by (intros c; by rewrite strictEq_ofOption).
  rewrite (existsb_ext_eq (λ c, strictEq (phoneNumber c) (ofOption p))
             (λ c, bool_decide (phoneNumber c = p)))
    by (intros c; by rewrite strictEq_ofOption).
  by destruct (existsb _ _).
Qed.

Lemma setAdd_const s l :
  (∀ x, x ∈ l → x = s) → fold_left setAdd l [s] = [s].
Proof.
  induction l as [|x l IH]; intros Hall; simpl; [done|].
  rewrite (Hall x) by (apply elem_of_cons; by left).
  unfold setAdd at 2. rewrite bool_decide_eq_true_2 by (apply elem_of_cons; by left).
  apply IH. intros y Hy. apply Hall, elem_of_cons. by right.
Qed.

Lemma pushMatches_spec field v cs :
  (∀ x, x ∈ Matcher.pushMatches field v cs → Some x = orNull v)
  ∧ (Matcher.pushMatches field v cs ≠ [] ↔
       truthyField v = true ∧ ∃ c, c ∈ cs ∧ strictEq (field c) v = true).
Proof.
  unfold Matcher.pushMatches.
  assert (Hgen : ∀ acc,
    let r := fold_left
               (λ acc c, if truthyField v && strictEq (field c) v
                         then acc ++ option_list (field c) else acc) cs acc in
    (∀ x, x ∈ r → x ∈ acc ∨ Some x = orNull v)
    ∧ (r ≠ acc → truthyField v = true ∧ ∃ c, c ∈ cs ∧ strictEq (field c) v = true)
    ∧ ((truthyField v = true ∧ ∃ c, c ∈ cs ∧ strictEq (field c) v = true) →
       r ≠ [])
    ∧ (acc ≠ [] → r ≠ [])).
  { induction cs as [|c cs IH]; intros acc; simpl.
    - split_and!; [by left|done| |done].
      intros (_ & c & Hc & _). by apply elem_of_nil in Hc.
    - destruct (truthyField v && strictEq (field c) v) eqn:Hm.
      + apply andb_true_iff in Hm as [Ht Hs].
        destruct (IH (acc ++ option_list (field c))) as (H1 & H2 & H3 & H4).
        assert (Hval : ∃ x, field c = Some x ∧ Some x = orNull v).
        { destruct (field c) as [a|], v as [| |s]; simpl in *; try done.
          apply bool_decide_eq_true in Hs as ->. exists s. split; [done|].
          apply negb_true_iff in Ht. by rewrite Ht. }
        destruct Hval as (x & Hx & Hxv).
        pose proof Hs as Hs'.
        rewrite Hx in Hs', H1, H2, H3, H4 |- *.
        cbn [option_list] in H1, H2, H3, H4 |- *.
        split_and!.
        * intros y Hy. destruct (H1 y Hy) as [Hin|?]; [|by right].
          apply elem_of_app in Hin as [?|Hin]; [by left|].
          apply list_elem_of_singleton in Hin as ->. by right.
        * intros _. split; [done|]. exists c. split; [set_solver|done].
        * intros _. apply H4. by destruct acc.
        * intros _. apply H4. by destruct acc.
      + destruct (IH acc) as (H1 & H2 & H3 & H4). split_and!; [done| | |done].
        * intros Hne. destruct (H2 Hne) as (Ht & c' & Hc' & Hs).
          split; [done|]. exists c'. split; [set_solver|done].
        * intros (Ht & c' & Hc' & Hs). apply H3. split; [done|].
          apply elem_of_cons in Hc' as [->|Hc']; [|eauto].
          by rewrite Ht, Hs in Hm. }
  destruct (Hgen []) as (H1 & H2 & H3 & _). split.
  - intros x Hx. destruct (H1 x Hx) as [Hin|?]; [|done].
    by apply elem_of_nil in Hin.
  - split; [apply H2|apply H3].
Qed.

Lemma dedupe_matches l s :
  (∀ x, x ∈ l → x = s) →
  fold_left setAdd l [] = match l with [] => [] | _ => [s] end.
Proof.
  destruct l as [|x l]; [done|]. intros Hall. simpl.
  rewrite (Hall x) by (apply elem_of_cons; by left).
  unfold setAdd at 2. simpl.
  apply setAdd_const. intros y Hy. apply Hall, elem_of_cons. by right.
Qed.

(** X17.  [findMatchingCriteria] reports an email match exactly when the
    requested email is non-empty and some contact holds it, and then
    [matchingEmails] is the requested email alone; without a match it is
    empty.  The same holds for the phone number. *)
Theorem findMatchingCriteria_spec cs e p :
  let r := Matcher.findMatchingCriteria cs e p in
  (Matcher.hasEmailMatch r = true ↔
     truthyField e = true ∧ ∃ c, c ∈ cs ∧ strictEq (email c) e = true)
  ∧ Matcher.matchingEmails r
    = (if Matcher.hasEmailMatch r then option_list (orNull e) else [])
  ∧ (Matcher.hasPhoneMatch r = true ↔
       truthyField p = true ∧ ∃ c, c ∈ cs ∧ strictEq (phoneNumber c) p = true)
  ∧ Matcher.matchingPhones r
    = (if Matcher.hasPhoneMatch r then option_list (orNull p) else []).
Proof.
  assert (Hfield : ∀ field v,
    let l := Matcher.pushMatches field v cs in
    ((0 <? Z.of_nat (length l)) = true ↔
       truthyField v = true ∧ ∃ c, c ∈ cs ∧ strictEq (field c) v = true)
    ∧ fold_left setAdd l []
      = (if (0 <? Z.of_nat (length l)) then option_list (orNull v) else [])).
  { intros field v l.
    destruct (pushMatches_spec field v cs) as [Hval Hne]. fold l in Hval, Hne.
    split.
    - rewrite <- Hne, Z.ltb_lt. destruct l; simpl; [split; [lia|done]|].
      split; [done|lia].
    - destruct l as [|x l'] eqn:Hl; [done|].
      assert (Hx : Some x = orNull v) by (apply Hval, elem_of_cons; by left).
      rewrite (dedupe_matches (x :: l') x).
      * rewrite <- Hx. done.
      * intros y Hy. specialize (Hval y Hy). congruence. }
  intros r. unfold r, Matcher.findMatchingCriteria. simpl.
  destruct (Hfield email e) as [He1 He2].
  destruct (Hfield phoneNumber p) as [Hp1 Hp2].
  split_and!; done.
Qed.

(** ** The repository: create, read back, soft delete *)

Lemma find_app_first {A} (f : A → bool) l l' x :
  List.find f l = Some x → List.find f (l ++ l') = Some x.
Proof.
  induction l as [|y l IH]; simpl; [done|].
  destruct (f y); [done|]. exact IH.
Qed.

Lemma find_app_none {A} (f : A → bool) l l' :
  List.find f l = None → List.find f (l ++ l') = List.find f l'.
Proof.
  induction l as [|y l IH]; simpl; [done|].
  destruct (f y); [done|]. exact IH.
Qed.

Lemma find_none_iff {A} (f : A → bool) l :
  List.find f l = None ↔ ∀ x, In x l → f x = false.
Proof.
  split; [apply find_none|].
  induction l as [|y l IH]; simpl; [done|]. intros H.
  rewrite (H y) by (by left). apply IH. intros x Hx. apply H. by right.
Qed.

Lemma length_sortBy {A} (le : A → A → bool) l :
  length (sortBy le l) = length l.
Proof. apply Permutation_length, sortBy_Permutation. Qed.

(** X18.  A Secondary created with [createSecondaryContact] under an active
    Primary (non-zero id, distinct ids) shows in the consolidated view of
    that Primary: the consolidation succeeds, [secondaryContactIds] holds the
    new id, and the non-empty email and phone number of the new contact are
    among [emails] and [phoneNumbers]. *)
Theorem created_secondary_is_consolidated now p e ph st :
  uniqueIds st →
  p ∈ rows st → active p = true → linkPrecedence p = PRIMARY → id p ≠ 0 →
  let st' := snd (createSecondaryContact now (id p) e ph st) in
  ∃ r, consolidateContactInfo (id p) st' = Success r
       ∧ nextId st ∈ secondaryContactIds r
       ∧ (∀ v, e = Some v → v ≠ EmptyString → v ∈ emails r)
       ∧ (∀ v, ph = Some v → v ≠ EmptyString → v ∈ phoneNumbers r).
Proof.
  intros Hu Hp Ha Hpp H0 st'. apply list_elem_of_In in Hp.
  set (row := newRow now st e ph (Some (id p)) SECONDARY).
  assert (Hst' : st' = {| rows := rows st ++ [row]; nextId := nextId st + 1 |})
    by done.
  assert (Hf : findUnique (id p) st' = Some p).
  { rewrite Hst'. unfold findUnique. cbn [rows].
    assert (Hf0 := findUnique_unique st p Hu Hp Ha). unfold findUnique in Hf0.
    revert Hf0. generalize (rows st). intros l.
    induction l as [|y l IH]; cbn [List.find app]; [done|].
    destruct (bool_decide (id y = id p) && active y); [done|exact IH]. }
  assert (Hrow : In row (getAllLinkedContacts (id p) st')).
  { apply (chain_of_primary (id p) st' p row Hf Hpp H0). split_and!.
    - rewrite Hst'. cbn [rows]. apply in_app_iff. right. by left.
    - done.
    - by right. }
  assert (Hpc : In p (getAllLinkedContacts (id p) st'))
    by by apply (primary_in_own_chain (id p) st' p).
  destruct (consolidateContactInfo (id p) st') as [r|err] eqn:Hr.
  - exists r. split; [done|].
    apply consolidateContactInfo_view in Hr
      as (q & secs & _ & _ & _ & Hperm & _ & Hids & _ & _ & [He _] & [Hph _]).
    assert (Hsec : row ∈ secs).
    { apply list_elem_of_In. eapply Permutation_in; [symmetry; exact Hperm|].
      apply filter_In. split; [done|]. reflexivity. }
    split_and!.
    + rewrite Hids. apply list_elem_of_fmap. by exists row.
    + intros v -> Hv. apply He. split; [done|]. right. by exists row.
    + intros v -> Hv. apply Hph. split; [done|]. right. by exists row.
  - exfalso. unfold consolidateContactInfo in Hr.
    destruct (List.find isPrimary (getAllLinkedContacts (id p) st'))
      as [q|] eqn:Hq; [done|].
    assert (Hfp : isPrimary p = false) by apply (find_none _ _ Hq p Hpc).
    unfold isPrimary in Hfp. by rewrite bool_decide_eq_true_2 in Hfp.
Qed.

Lemma created_secondary_is_consolidated_witness :
  let st' := snd (createSecondaryContact 500 1 (Some "z") None
                    Examples.twoChains) in
  uniqueIds Examples.twoChains
  ∧ ∃ r, consolidateContactInfo 1 st' = Success r
         ∧ 4 ∈ secondaryContactIds r.
Proof.
  assert (Hu : uniqueIds Examples.twoChains).
  { apply (bool_decide_unpack _). vm_compute. exact I. }
  split; [exact Hu|].
  destruct (created_secondary_is_consolidated 500 Examples.primary1
              (Some "z") None Examples.twoChains Hu) as (r & Hr & Hid & _).
  - apply (bool_decide_unpack _). vm_compute. exact I.
  - reflexivity.
  - reflexivity.
  - simpl. lia.
  - exists r. split; [exact Hr|exact Hid].
Defined.

(** The rows after [softDeleteContact]. *)
Lemma softDeleteContact_rows now i st :
  rows (snd (Repository.softDeleteContact now i st)) =
    map (λ d, if bool_decide (id d = i) then Repository.markDeleted now d else d)
      (rows st).
Proof.
  unfold Repository.softDeleteContact.
  destruct (List.find _ (rows st)) as [c|] eqn:Hf; [done|]. cbn [snd].
  rewrite find_none_iff in Hf.
  induction (rows st) as [|d l IH]; [done|]. cbn [map].
  rewrite (Hf d) by (by left). f_equal. apply IH.
  intros x Hx. apply Hf. by right.
Qed.

Lemma softDeleted_row now i st d :
  In d (rows (snd (Repository.softDeleteContact now i st))) →
  (id d = i ∧ active d = false) ∨ (id d ≠ i ∧ In d (rows st)).
Proof.
  rewrite softDeleteContact_rows, in_map_iff. intros (c & <- & Hc).
  case_bool_decide; [left|right]; done.
Qed.

Lemma softDeleted_find_other now i j st :
  j ≠ i →
  findUnique j (snd (Repository.softDeleteContact now i st)) = findUnique j st.
Proof.
  intros Hj. unfold findUnique. rewrite softDeleteContact_rows.
  induction (rows st) as [|d l IH]; [done|]. cbn [map List.find].
  rewrite IH. destruct (bool_decide (id d = i)) eqn:Hd; [|done].
  apply bool_decide_eq_true in Hd. cbn [Repository.markDeleted id].
  rewrite !bool_decide_eq_false_2 by congruence. done.
Qed.


(** X20.  Soft-deleting a Primary leaves its Secondaries without a Primary:
    the chain of such a Secondary still holds the Secondary itself, no row
    marked Primary, and its consolidation fails. *)
Theorem softDelete_primary_orphans_chain now p s st :
  uniqueIds st →
  p ∈ rows st → linkPrecedence p = PRIMARY → id p ≠ 0 →
  s ∈ rows st → active s = true →
  linkPrecedence s = SECONDARY → linkedId s = Some (id p) →
  (∀ d, d ∈ rows st → linkedId d = Some (id p) → linkPrecedence d = SECONDARY) →
  let st' := snd (Repository.softDeleteContact now (id p) st) in
  s ∈ getAllLinkedContacts (id s) st'
  ∧ (∀ d, d ∈ getAllLinkedContacts (id s) st' → linkPrecedence d = SECONDARY)
  ∧ consolidateContactInfo (id s) st' = Failure "Primary contact not found".
Proof.
  intros Hu Hp Hpp Hp0 Hs Hsa Hss Hsl Hall st'.
  apply list_elem_of_In in Hp, Hs.
  assert (Hne : id s ≠ id p).
  { intros Heq. apply (uniqueIds_eq st s p Hu Hs Hp) in Heq. congruence. }
  assert (Hfind : findUnique (id s) st' = Some s).
  { subst st'. rewrite softDeleted_find_other by done.
    by apply findUnique_unique. }
  assert (Hchain : getAllLinkedContacts (id s) st' =
            sortBy byPrecedenceThenCreatedAt
              (List.filter
                 (λ d, (bool_decide (id d = id p)
                        || bool_decide (linkedId d = Some (id p))) && active d)
                 (rows st'))).
  { unfold getAllLinkedContacts. rewrite Hfind, Hss, Hsl.
    by rewrite bool_decide_eq_false_2. }
  assert (Hsec : ∀ d, d ∈ getAllLinkedContacts (id s) st' →
                      linkPrecedence d = SECONDARY).
  { intros d Hd. rewrite Hchain in Hd.
    apply list_elem_of_In, In_sortBy, filter_In in Hd as [Hin Hd].
    apply andb_true_iff in Hd as [Hd Hact].
    apply softDeleted_row in Hin as [[_ Ha]|[Hid Hin]]; [congruence|].
    apply orb_true_iff in Hd as [Hd|Hd]; apply bool_decide_eq_true in Hd;
      [done|].
    apply (Hall d); [by apply list_elem_of_In|done]. }
  split_and!.
  - rewrite Hchain. apply list_elem_of_In, In_sortBy, filter_In. split.
    + apply findUnique_Some in Hfind. tauto.
    + rewrite Hsa, andb_true_r. apply orb_true_iff. right.
      by apply bool_decide_eq_true.
  - exact Hsec.
  - unfold consolidateContactInfo.
    destruct (List.find isPrimary _) as [q|] eqn:Hq; [|done].
    apply find_some in Hq as [Hin Hq]. apply bool_decide_eq_true in Hq.
    apply list_elem_of_In, Hsec in Hin. congruence.
Qed.

Lemma softDelete_primary_orphans_chain_witness :
  let st' := snd (Repository.softDeleteContact 500 2 Examples.twoChains) in
  uniqueIds Examples.twoChains
  ∧ Examples.secondary3 ∈ getAllLinkedContacts 3 st'
  ∧ consolidateContactInfo 3 st' = Failure "Primary contact not found".
Proof.
  assert (Hu : uniqueIds Examples.twoChains).
  { apply (bool_decide_unpack _). vm_compute. exact I. }
  split; [exact Hu|].
  destruct (softDelete_primary_orphans_chain 500 Examples.primary2
              Examples.secondary3 Examples.twoChains) as (H1 & _ & H3).
  - exact Hu.
  - apply (bool_decide_unpack _). vm_compute. exact I.
  - reflexivity.
  - simpl. lia.
  - apply (bool_decide_unpack _). vm_compute. exact I.
  - reflexivity.
  - reflexivity.
  - reflexivity.
  - intros d Hd Hl. apply list_elem_of_In in Hd. simpl in Hd.
    destruct Hd as [<-|[<-|[<-|[]]]]; simpl in Hl; (done || discriminate).
  - split; [exact H1|exact H3].
Defined.

Lemma filter_split_length (f g h : Contact → bool) l :
  (∀ c, f c = g c || h c) → (∀ c, g c && h c = false) →
  (length (List.filter g l) + length (List.filter h l)
   = length (List.filter f l))%nat.
Proof.
  intros Hf Hgh. induction l as [|c l IH]; [done|]. cbn [List.filter].
  specialize (Hf c). specialize (Hgh c).
  destruct (f c), (g c), (h c); cbn [length]; cbn in Hf, Hgh; try done; lia.
Qed.

Lemma filter_length_le (f g : Contact → bool) l :
  (∀ c, f c = true → g c = true) →
  (length (List.filter f l) ≤ length (List.filter g l))%nat.
Proof.
  intros Hfg. induction l as [|c l IH]; [done|]. cbn [List.filter].
  specialize (Hfg c).
  destruct (f c), (g c); cbn [length];
    first [lia | by specialize (Hfg eq_refl)].
Qed.

(** X21.  In [getContactStatistics] the number of secondary contacts, which
    the code obtains by subtraction, is the number of active rows marked
    Secondary; it is never negative and bounds the number of Secondaries
    that [findSecondaryContacts] returns for any id. *)
Theorem getContactStatistics_spec st :
  let s := Service.getContactStatistics st in
  Service.secondaryContactsCount s
  = Z.of_nat (length (List.filter (λ c, isSecondary c && active c) (rows st)))
  ∧ Service.primaryContactsCount s
    = Z.of_nat (length (List.filter (λ c, isPrimary c && active c) (rows st)))
  ∧ Service.totalContacts s
    = Service.primaryContactsCount s + Service.secondaryContactsCount s
  ∧ 0 ≤ Service.secondaryContactsCount s
  ∧ ∀ i, Z.of_nat (length (Repository.findSecondaryContacts i st))
         ≤ Service.secondaryContactsCount s.
Proof.
  intros s.
  assert (Hsplit :
    (length (List.filter (λ c, isPrimary c && active c) (rows st))
     + length (List.filter (λ c, isSecondary c && active c) (rows st))
     = length (List.filter active (rows st)))%nat).
  { apply filter_split_length; intros c; unfold isPrimary, isSecondary;
      by destruct (linkPrecedence c), (active c). }
  assert (Hsec : Service.secondaryContactsCount s
    = Z.of_nat (length (List.filter (λ c, isSecondary c && active c) (rows st)))).
  { subst s. unfold Service.getContactStatistics, Repository.countContacts,
      Repository.findPrimaryContacts. cbn [Service.secondaryContactsCount].
    rewrite length_sortBy. lia. }
  assert (Hprim : Service.primaryContactsCount s
    = Z.of_nat (length (List.filter (λ c, isPrimary c && active c) (rows st)))).
  { subst s. unfold Service.getContactStatistics, Repository.findPrimaryContacts.
    cbn [Service.primaryContactsCount]. by rewrite length_sortBy. }
  split_and!; [done|done| | |].
  - subst s. unfold Service.getContactStatistics.
    cbn [Service.totalContacts Service.primaryContactsCount
         Service.secondaryContactsCount]. lia.
  - rewrite Hsec. lia.
  - intros i. rewrite Hsec. unfold Repository.findSecondaryContacts.
    rewrite length_sortBy. apply inj_le, filter_length_le.
    intros c Hc. apply andb_true_iff in Hc as [Hc Ha].
    apply andb_true_iff in Hc as [_ Hc]. by rewrite Hc, Ha.
Qed.

(** X22.  The two link predicates of the code base agree:
    [ContactService.shouldContactsBeLinked] is [ContactMatcher.shouldLink].
    Both are symmetric, and [shouldMergePrimaryContacts] proposes a merge
    exactly for two contacts with different ids that are linked; a contact
    is linked to itself as soon as it holds a non-empty value. *)
Theorem link_predicates_agree a b :
  Service.shouldContactsBeLinked a b = shouldLink a b
  ∧ Service.shouldContactsBeLinked a b = Service.shouldContactsBeLinked b a
  ∧ Matcher.shouldMerge (Matcher.shouldMergePrimaryContacts a b)
    = negb (bool_decide (id a = id b)) && Service.shouldContactsBeLinked a b
  ∧ Matcher.shouldMerge (Matcher.shouldMergePrimaryContacts a b)
    = Matcher.shouldMerge (Matcher.shouldMergePrimaryContacts b a)
  ∧ Service.shouldContactsBeLinked a a
    = truthy (email a) || truthy (phoneNumber a).
Proof.
  assert (Hagree : ∀ x y, Service.shouldContactsBeLinked x y = shouldLink x y).
  { intros x y. unfold Service.shouldContactsBeLinked, shouldLink,
      hasSharedEmail, hasSharedPhone.
    destruct (truthy (email x) && truthy (email y)
              && bool_decide (email x = email y)); [done|].
    by destruct (truthy (phoneNumber x) && truthy (phoneNumber y)
                 && bool_decide (phoneNumber x = phoneNumber y)). }
  assert (Hmerge : ∀ x y,
    Matcher.shouldMerge (Matcher.shouldMergePrimaryContacts x y)
    = negb (bool_decide (id x = id y)) && shouldLink x y).
  { intros x y. unfold Matcher.shouldMergePrimaryContacts, shouldLink,
      Matcher.hasSharedEmail, Matcher.hasSharedPhone.
    destruct (bool_decide (id x = id y)); [done|].
    destruct (hasSharedEmail x y); [done|].
    by destruct (hasSharedPhone x y). }
  split_and!.
  - apply Hagree.
  - rewrite !Hagree. apply shouldLink_sym.
  - by rewrite Hmerge, Hagree.
  - rewrite !Hmerge, (shouldLink_sym a b).
    f_equal. f_equal. apply bool_decide_ext. split; congruence.
  - rewrite Hagree. unfold shouldLink, hasSharedEmail, hasSharedPhone.
    rewrite !bool_decide_eq_true_2 by done.
    by destruct (truthy (email a)), (truthy (phoneNumber a)).
Qed.

(** X23.  [isContactDataDuplicate] holds exactly when the request has a
    non-empty field and some contact equals the request on every non-empty
    field of the request, whatever the contact holds in the other column.
    For a request with two non-empty fields this is [hasExactMatch], and an
    exact match of a request with a non-empty field is always a duplicate. *)
Theorem isContactDataDuplicate_spec cs e p :
  (Service.isContactDataDuplicate cs e p = true ↔
     (truthyField e = true ∨ truthyField p = true)
     ∧ ∃ c, c ∈ cs
          ∧ (truthyField e = true → strictEq (email c) e = true)
          ∧ (truthyField p = true → strictEq (phoneNumber c) p = true))
  ∧ (truthyField e = true → truthyField p = true →
     Service.isContactDataDuplicate cs e p = Matcher.hasExactMatch cs e p)
  ∧ (truthyField e = true ∨ truthyField p = true →
     Matcher.hasExactMatch cs e p = true →
     Service.isContactDataDuplicate cs e p = true).
Proof.
  assert (Hspec : Service.isContactDataDuplicate cs e p = true ↔
     (truthyField e = true ∨ truthyField p = true)
     ∧ ∃ c, c ∈ cs
          ∧ (truthyField e = true → strictEq (email c) e = true)
          ∧ (truthyField p = true → strictEq (phoneNumber c) p = true)).
  { unfold Service.isContactDataDuplicate. rewrite existsb_elem_of. split.
    - intros (c & Hc & H). split.
      + destruct (truthyField e), (truthyField p); cbn in H; auto.
        all: try (by rewrite ?andb_false_r in H).
      + exists c. split; [done|].
        destruct (truthyField e), (truthyField p),
          (strictEq (email c) e), (strictEq (phoneNumber c) p); cbn in H; done.
    - intros (Ht & c & Hc & He & Hp). exists c. split; [done|].
      destruct (truthyField e), (truthyField p);
        try rewrite (He eq_refl); try rewrite (Hp eq_refl); cbn; try done.
      all: try (by destruct (strictEq (email c) e)).
      all: try (by destruct Ht). }
  split_and!.
  - exact Hspec.
  - intros He Hp. apply eq_true_iff_eq. rewrite Hspec.
    unfold Matcher.hasExactMatch. rewrite existsb_elem_of. split.
    + intros (_ & c & Hc & H1 & H2). exists c. split; [done|].
      by rewrite H1, H2.
    + intros (c & Hc & H). apply andb_true_iff in H as [H1 H2].
      split; [by left|]. by exists c.
  - intros Ht Hex. apply Hspec. split; [done|].
    unfold Matcher.hasExactMatch in Hex. apply existsb_elem_of in Hex
      as (c & Hc & H). apply andb_true_iff in H as [H1 H2]. by exists c.
Qed.

(** ** Chains and the queries on Secondaries *)

(** A filter commutes with the stable sort when the order of the kept
    elements is the order used after the filter. *)
Lemma filter_insertSorted {A} (le le' : A → A → bool) (f : A → bool) x l :
  (f x = true → ∀ y, (le x y = true → f y = true)
                     ∧ (f y = true → le x y = le' x y)) →
  List.filter f (insertSorted le x l)
  = if f x then insertSorted le' x (List.filter f l) else List.filter f l.
Proof.
  intros H. induction l as [|y l IH]; cbn [insertSorted List.filter].
  - by destruct (f x).
  - destruct (le x y) eqn:Hle; cbn [List.filter].
    + destruct (f x) eqn:Hx.
      * destruct (H eq_refl y) as [H1 H2]. rewrite (H1 Hle).
        cbn [insertSorted]. by rewrite <- (H2 (H1 Hle)), Hle.
      * done.
    + rewrite IH. destruct (f x) eqn:Hx; [|done].
      destruct (f y) eqn:Hy; [|done].
      destruct (H eq_refl y) as [_ H2]. cbn [insertSorted].
      by rewrite <- (H2 Hy), Hle.
Qed.

Lemma filter_sortBy {A} (le le' : A → A → bool) (f : A → bool) l :
  (∀ x y, f x = true → (le x y = true → f y = true)
                       ∧ (f y = true → le x y = le' x y)) →
  List.filter f (sortBy le l) = sortBy le' (List.filter f l).
Proof.
  intros H. induction l as [|x l IH]; [done|].
  unfold sortBy in *. cbn [foldr List.filter].
  rewrite (filter_insertSorted le le') by (intros Hx y; by apply H).
  rewrite IH. by destruct (f x).
Qed.

(** Sorting a sorted list again changes nothing. *)
Lemma sortBy_of_sorted l :
  StronglySorted createdBefore l → sortBy byCreatedAt l = l.
Proof.
  induction 1 as [|x l Hs IH Hx]; [done|].
  unfold sortBy in *. cbn [foldr]. rewrite IH.
  destruct l as [|y l']; [done|]. cbn [insertSorted].
  apply Forall_cons in Hx as [Hxy _]. unfold createdBefore in Hxy.
  unfold byCreatedAt. by rewrite (proj2 (Z.leb_le _ _) Hxy).
Qed.

Lemma filter_filter_and {A} (f g : A → bool) l :
  List.filter f (List.filter g l) = List.filter (λ x, f x && g x) l.
Proof.
  induction l as [|x l IH]; [done|]. cbn [List.filter].
  destruct (g x); cbn [List.filter]; rewrite ?andb_true_r, ?andb_false_r.
  - destruct (f x); by rewrite IH.
  - exact IH.
Qed.

(** X24.  For an active Primary of a store with distinct ids, the chain is
    the Primary, the contacts of [findSecondaryContacts] and the active rows
    linked to it but marked Primary; and [secondaryContactIds] of the
    consolidated view lists the ids of [findSecondaryContacts] in the same
    order. *)
Theorem chain_secondaries_are_findSecondaryContacts st p :
  uniqueIds st →
  p ∈ rows st → active p = true → linkPrecedence p = PRIMARY → id p ≠ 0 →
  (∀ c, c ∈ getAllLinkedContacts (id p) st ↔
        c = p ∨ c ∈ Repository.findSecondaryContacts (id p) st
        ∨ (c ∈ rows st ∧ active c = true ∧ linkedId c = Some (id p)
           ∧ linkPrecedence c = PRIMARY))
  ∧ List.filter isSecondary (getAllLinkedContacts (id p) st)
    = Repository.findSecondaryContacts (id p) st
  ∧ ∃ r, consolidateContactInfo (id p) st = Success r
         ∧ secondaryContactIds r
           = map id (Repository.findSecondaryContacts (id p) st).
Proof.
  intros Hu Hp Ha Hpp H0. apply list_elem_of_In in Hp.
  pose proof (findUnique_unique st p Hu Hp Ha) as Hfind.
  assert (Hchain : getAllLinkedContacts (id p) st =
            sortBy byPrecedenceThenCreatedAt
              (List.filter
                 (λ d, (bool_decide (id d = id p)
                        || bool_decide (linkedId d = Some (id p))) && active d)
                 (rows st))).
  { unfold getAllLinkedContacts. rewrite Hfind, Hpp.
    by rewrite bool_decide_eq_false_2. }
  assert (Hsecs : List.filter isSecondary (getAllLinkedContacts (id p) st)
                  = Repository.findSecondaryContacts (id p) st).
  { rewrite Hchain. unfold Repository.findSecondaryContacts.
    rewrite (filter_sortBy _ byCreatedAt).
    - f_equal. rewrite filter_filter_and. apply filter_ext_in.
      intros c Hc. unfold isSecondary.
      destruct (bool_decide (linkPrecedence c = SECONDARY)) eqn:Hs;
        [|by rewrite andb_false_r].
      apply bool_decide_eq_true in Hs.
      rewrite bool_decide_eq_false_2.
      + cbn. by rewrite andb_true_r.
      + intros Hid. apply (uniqueIds_eq st c p Hu Hc Hp) in Hid. congruence.
    - intros x y Hx. unfold isSecondary in *. apply bool_decide_eq_true in Hx.
      unfold byPrecedenceThenCreatedAt, byCreatedAt. rewrite Hx. split.
      + destruct (linkPrecedence y); cbn; [done|].
        intros _. by apply bool_decide_eq_true.
      + intros Hy. apply bool_decide_eq_true in Hy. by rewrite Hy. }
  split_and!.
  - intros c. rewrite list_elem_of_In.
    rewrite (chain_of_primary (id p) st p c Hfind Hpp H0).
    unfold Repository.findSecondaryContacts.
    rewrite !list_elem_of_In, In_sortBy, filter_In. split.
    + intros (Hc & Hca & [Hid|Hl]).
      * left. by apply (uniqueIds_eq st c p Hu Hc Hp).
      * destruct (linkPrecedence c) eqn:Hlp.
        -- right. right. done.
        -- right. left. split; [done|]. unfold isSecondary.
           rewrite Hca, !bool_decide_eq_true_2; done.
    + intros [->|[[Hc H]|(Hc & Hca & Hl & _)]].
      * split_and!; [done|done|by left].
      * apply andb_true_iff in H as [H Hca]. apply andb_true_iff in H as [H _].
        apply bool_decide_eq_true in H. split_and!; [done|done|by right].
      * split_and!; [done|done|by right].
  - exact Hsecs.
  - unfold consolidateContactInfo.
    destruct (List.find isPrimary (getAllLinkedContacts (id p) st))
      as [q|] eqn:Hq.
    + eexists. split; [done|]. cbn [secondaryContactIds].
      rewrite Hsecs. f_equal. apply sortBy_of_sorted.
      unfold Repository.findSecondaryContacts. apply sortBy_sorted.
    + exfalso.
      assert (Hf : isPrimary p = false).
      { apply (find_none _ _ Hq p).
        by apply (primary_in_own_chain (id p) st p). }
      unfold isPrimary in Hf. by rewrite bool_decide_eq_true_2 in Hf.
Qed.

Lemma chain_secondaries_are_findSecondaryContacts_witness :
  uniqueIds Examples.twoChains
  ∧ List.filter isSecondary (getAllLinkedContacts 2 Examples.twoChains)
    = Repository.findSecondaryContacts 2 Examples.twoChains.
Proof.
  assert (Hu : uniqueIds Examples.twoChains).
  { apply (bool_decide_unpack _). vm_compute. exact I. }
  split; [exact Hu|].
  apply (chain_secondaries_are_findSecondaryContacts Examples.twoChains
           Examples.primary2 Hu).
  - apply (bool_decide_unpack _). vm_compute. exact I.
  - reflexivity.
  - reflexivity.
  - simpl. lia.
Defined.

(** ** The cross-primary scenario of the edge-case handler *)

Lemma merge_keeps_ids now o n st :
  map id (rows (snd (mergeContactChains now o n st))) = map id (rows st).
Proof.
  rewrite mergeContactChains_rows, map_map. apply map_ext.
  intros d. apply mergeRow_id.
Qed.

(** A Primary with another id than the newer one is not written by a merge. *)
Lemma merge_keeps_other_primary now o n st c :
  uniqueIds st → In c (rows st) → linkPrecedence c = PRIMARY → id c ≠ n →
  In c (rows (snd (mergeContactChains now o n st))).
Proof.
  intros Hu Hc Hp Hn. rewrite mergeContactChains_rows. apply in_map_iff.
  exists c. split; [|done].
  rewrite not_demoted by done. apply not_relinked_by_id.
  intros d Hd Hid. apply chain_subset in Hd.
  apply (uniqueIds_eq st d c Hu Hd Hc) in Hid as ->.
  unfold relinked, isSecondary. rewrite Hp.
  by rewrite andb_false_r.
Qed.

(** X25.  [handleCrossPrimaryScenario], called with two different active
    Primaries of a store with distinct ids, demotes the newer one under the
    older one and then appends a Secondary with the requested pair exactly
    when no contact of the merged chain holds this pair: afterwards the pair
    is on a contact of the chain of the older Primary. *)
Theorem handleCrossPrimaryScenario_spec now p1 p2 e ph st :
  uniqueIds st →
  p1 ∈ rows st → p2 ∈ rows st → active p1 = true → active p2 = true →
  linkPrecedence p1 = PRIMARY → linkPrecedence p2 = PRIMARY →
  id p1 ≠ id p2 → id p1 ≠ 0 → id p2 ≠ 0 →
  let older := if createdAt p1 <=? createdAt p2 then p1 else p2 in
  let newer := if createdAt p1 <=? createdAt p2 then p2 else p1 in
  let merged := snd (mergeContactChains now (id older) (id newer) st) in
  let r := EdgeCaseHandler.handleCrossPrimaryScenario now p1 p2 e ph st in
  let pairIn (l : list Contact) :=
    ∃ c, c ∈ l ∧ email c = Some e ∧ phoneNumber c = Some ph in
  pairIn (getAllLinkedContacts (id older) (snd r))
  ∧ (pairIn (getAllLinkedContacts (id older) merged) → snd r = merged)
  ∧ (¬ pairIn (getAllLinkedContacts (id older) merged) →
     snd r = {| rows := rows merged
                        ++ [newRow now merged (Some e) (Some ph)
                              (Some (id older)) SECONDARY];
                nextId := nextId merged + 1 |})
  ∧ (∃ d, lookupId (id newer) (snd r) = Some d
          ∧ linkPrecedence d = SECONDARY ∧ linkedId d = Some (id older))
  ∧ fst r = consolidateContactInfo (id older) (snd r).
Proof.
  intros Hu H1 H2 Ha1 Ha2 Hp1 Hp2 Hne H01 H02 older newer merged r pairIn.
  apply list_elem_of_In in H1, H2.
  assert (Hold : In older (rows st) ∧ active older = true
                 ∧ linkPrecedence older = PRIMARY ∧ id older ≠ 0
                 ∧ In newer (rows st) ∧ active newer = true
                 ∧ linkPrecedence newer = PRIMARY ∧ id newer ≠ 0
                 ∧ id older ≠ id newer).
  { subst older newer. destruct (createdAt p1 <=? createdAt p2);
      split_and!; done || congruence. }
  destruct Hold as (Ho & Hoa & Hop & Ho0 & Hn & Hna & Hnp & Hn0 & Hon).
  assert (Hr : r = (consolidateContactInfo (id older)
                      (if EdgeCaseHandler.checkIfSpecificCombinationExists
                            (id older) e ph merged
                       then snd (createSecondaryContact now (id older)
                                   (Some e) (Some ph) merged)
                       else merged),
                    if EdgeCaseHandler.checkIfSpecificCombinationExists
                         (id older) e ph merged
                    then snd (createSecondaryContact now (id older)
                                (Some e) (Some ph) merged)
                    else merged)).
  { subst r merged. unfold EdgeCaseHandler.handleCrossPrimaryScenario.
    assert (Hsel :
      (if bool_decide
            (id (if createdAt p1 <=? createdAt p2 then p1 else p2) = id p1)
       then p2 else p1) = newer).
    { subst newer. destruct (createdAt p1 <=? createdAt p2).
      - by rewrite bool_decide_eq_true_2.
      - rewrite bool_decide_eq_false_2; [done|congruence]. }
    rewrite Hsel. fold older.
    unfold mergeContactChains at 1.
    destruct (fold_left _ _ _) as [u s'] eqn:Hfold. cbn [snd].
    unfold mergeContactChains. rewrite Hfold. done. }
  assert (Hum : uniqueIds merged).
  { unfold uniqueIds. subst merged. by rewrite merge_keeps_ids. }
  assert (Hom : In older (rows merged)).
  { subst merged. apply merge_keeps_other_primary; done. }
  pose proof (findUnique_unique merged older Hum Hom Hoa) as Hfm.
  assert (Hcheck : EdgeCaseHandler.checkIfSpecificCombinationExists
                     (id older) e ph merged = false
                   ↔ pairIn (getAllLinkedContacts (id older) merged)).
  { unfold EdgeCaseHandler.checkIfSpecificCombinationExists.
    rewrite negb_false_iff, existsb_elem_of. subst pairIn. cbv beta.
    split; intros (c & Hc & H); exists c; (split; [done|]).
    - apply andb_true_iff in H as [He Hp].
      by apply bool_decide_eq_true in He, Hp.
    - destruct H as [He Hp]. by rewrite !bool_decide_eq_true_2. }
  assert (Hlook : ∃ d, lookupId (id newer) merged = Some d
                       ∧ linkPrecedence d = SECONDARY
                       ∧ linkedId d = Some (id older)).
  { subst merged. rewrite (merged_lookup now (id older) (id newer) st newer Hu Hn).
    eexists. split; [done|].
    assert (Hnew : In newer (getAllLinkedContacts (id newer) st)).
    { apply (primary_in_own_chain (id newer) st newer); [|done].
      by apply findUnique_unique. }
    assert (Hdem : demoteRow now (id older) (id newer)
                     (getAllLinkedContacts (id newer) st) newer
                   = applyUpdate now (demoteUpdate (id older)) newer).
    { unfold demoteRow. rewrite bool_decide_eq_true_2 by done.
      rewrite andb_true_r.
      rewrite (proj2 (existsb_elem_of _ _)); [done|].
      exists newer. split; [by apply list_elem_of_In|].
      by apply bool_decide_eq_true. }
    rewrite Hdem. rewrite not_relinked_by_id.
    - done.
    - intros c _ Hid. unfold relinked. cbn [applyUpdate id] in Hid.
      rewrite bool_decide_eq_true_2 by done. done. }
  rewrite Hr. cbn [fst snd].
  destruct (EdgeCaseHandler.checkIfSpecificCombinationExists (id older) e ph merged)
    eqn:Hc.
  - assert (Hnp' : ¬ pairIn (getAllLinkedContacts (id older) merged)).
    { intros Hin. apply Hcheck in Hin. congruence. }
    cbn [createSecondaryContact createContact snd].
    set (row := {| id := nextId merged; phoneNumber := Some ph;
                   email := Some e; linkedId := Some (id older);
                   linkPrecedence := SECONDARY; createdAt := now;
                   updatedAt := now; deletedAt := None |}).
    set (st2 := {| rows := rows merged ++ [row]; nextId := nextId merged + 1 |}).
    assert (Hf2 : findUnique (id older) st2 = Some older).
    { unfold findUnique. subst st2. cbn [rows]. by apply find_app_first. }
    split_and!.
    + exists row. split; [|done].
      apply list_elem_of_In.
      apply (chain_of_primary (id older) st2 older row Hf2 Hop Ho0).
      split_and!; [|done|by right].
      subst st2. cbn [rows]. apply in_app_iff. right. by left.
    + intros Hin. by destruct Hnp'.
    + intros _. done.
    + destruct Hlook as (d & Hd & Hd1 & Hd2). exists d. split; [|done].
      unfold lookupId. subst st2. cbn [rows]. by apply find_app_first.
    + done.
  - assert (Hin : pairIn (getAllLinkedContacts (id older) merged))
      by by apply Hcheck.
    split_and!; [done|done| |done|done].
    intros Hn'. by destruct Hn'.
Qed.

Lemma handleCrossPrimaryScenario_spec_witness :
  let r := EdgeCaseHandler.handleCrossPrimaryScenario 500 Examples.primary1
             Examples.primary2 "a" "2" Examples.twoChains in
  uniqueIds Examples.twoChains
  ∧ ∃ c, c ∈ getAllLinkedContacts 1 (snd r)
         ∧ email c = Some "a" ∧ phoneNumber c = Some "2".
Proof.
  assert (Hu : uniqueIds Examples.twoChains).
  { apply (bool_decide_unpack _). vm_compute. exact I. }
  split; [exact Hu|].
  pose proof (handleCrossPrimaryScenario_spec 500 Examples.primary1
                Examples.primary2 "a" "2" Examples.twoChains Hu) as H.
  cbv zeta in H. apply H.
  - apply (bool_decide_unpack _). vm_compute. exact I.
  - apply (bool_decide_unpack _). vm_compute. exact I.
  - reflexivity.
  - reflexivity.
  - reflexivity.
  - reflexivity.
  - simpl. lia.
  - simpl. lia.
  - simpl. lia.
Defined.

(** ** Circular references *)

(** The least argument at which a test holds. *)
Lemma least_true (f : nat → bool) n :
  f n = true → ∃ m, f m = true ∧ ∀ k, (k < m)%nat → f k = false.
Proof.
  induction n as [n IH] using lt_wf_ind. intros Hn.
  assert (Hdec : ∀ b, (∀ k, (k < b)%nat → f k = false)
                      ∨ ∃ k, (k < b)%nat ∧ f k = true).
  { induction b as [|b [Hb|(k & Hk & Hf)]].
    - left. lia.
    - destruct (f b) eqn:Hfb.
      + right. exists b. split; [lia|done].
      + left. intros k Hk. destruct (decide (k = b)) as [->|]; [done|].
        apply Hb. lia.
    - right. exists k. split; [lia|done]. }
  destruct (Hdec n) as [Hall|(k & Hk & Hf)].
  - by exists n.
  - by apply (IH k).
Qed.

Section Walk.

Variable allContacts : list Contact.
Variable contact : Contact.

Lemma linkedOf_Some o d :
  linkedOf allContacts o = Some d →
  o = Some (id d) ∧ id d ≠ 0
  ∧ List.find (λ c, bool_decide (id c = id d)) allContacts = Some d.
Proof.
  destruct o as [i|]; [|done]. cbn. case_bool_decide as H0; [done|].
  intros Hf. pose proof (find_some _ _ Hf) as [_ Hid].
  apply bool_decide_eq_true in Hid. by subst i.
Qed.

Lemma walk_unfold n start :
  walk allContacts n start =
    match linkedOf allContacts start with
    | None => None
    | Some d =>
        match n with
        | O => Some d
        | S n' => walk allContacts n' (linkedId d)
        end
    end.
Proof. by destruct n. Qed.

Lemma walk_found n : ∀ start d,
  walk allContacts n start = Some d →
  id d ≠ 0 ∧ List.find (λ c, bool_decide (id c = id d)) allContacts = Some d.
Proof.
  induction n as [|n IH]; intros start d; rewrite walk_unfold;
    destruct (linkedOf allContacts start) as [d0|] eqn:Hl; try done.
  - intros [= <-]. apply linkedOf_Some in Hl. tauto.
  - apply IH.
Qed.

Lemma walk_shift a : ∀ start d,
  walk allContacts a start = Some d →
  ∀ t, walk allContacts (a + S t) start = walk allContacts t (linkedId d).
Proof.
  induction a as [|a IH]; intros start d Hw t;
    rewrite walk_unfold in Hw; rewrite (walk_unfold (_ + _));
    destruct (linkedOf allContacts start) as [d0|]; try done.
  - by injection Hw as ->.
  - cbn [Nat.add]. by apply IH.
Qed.

Lemma walk_prefix a : ∀ start b,
  (b ≤ a)%nat → is_Some (walk allContacts a start) →
  is_Some (walk allContacts b start).
Proof.
  induction a as [|a IH]; intros start b Hb;
    rewrite walk_unfold, (walk_unfold b);
    destruct (linkedOf allContacts start) as [d0|]; try done.
  - by assert (b = 0%nat) as -> by lia.
  - destruct b as [|b]; [by eexists|]. apply IH. lia.
Qed.

Lemma followLinks_sound fuel : ∀ visited currentId,
  EdgeCaseHandler.followLinks fuel contact allContacts visited currentId = true →
  ∃ n d, walk allContacts n currentId = Some d ∧ id d = id contact.
Proof.
  induction fuel as [|fuel IH]; [done|]. intros V cur.
  cbn [EdgeCaseHandler.followLinks].
  destruct cur as [i|]; [|done].
  destruct (bool_decide (i = 0)) eqn:H0; [done|]. cbn [orb].
  destruct (bool_decide (i ∈ V)); [done|].
  destruct (List.find _ allContacts) as [d|] eqn:Hf; [|done].
  destruct (bool_decide (id d = id contact)) eqn:Hd.
  - intros _. exists 0%nat, d. rewrite walk_unfold. cbn [linkedOf].
    rewrite H0, Hf. split; [done|by apply bool_decide_eq_true in Hd].
  - intros H. apply IH in H as (n & d' & Hw & Hid). exists (S n), d'.
    rewrite walk_unfold. cbn [linkedOf]. by rewrite H0, Hf.
Qed.

Variable start : option Z.
Variable n : nat.
Variable last : Contact.
Hypothesis Hlast : walk allContacts n start = Some last.
Hypothesis Hback : id last = id contact.
Hypothesis Hleast : ∀ m d, (m < n)%nat →
  walk allContacts m start = Some d → id d ≠ id contact.

(** Before the walk comes back, no id is met twice. *)
Lemma walk_distinct a b da db :
  (a < b ≤ n)%nat →
  walk allContacts a start = Some da → walk allContacts b start = Some db →
  id da ≠ id db.
Proof.
  intros Hab Ha Hb Hid.
  assert (da = db) as ->.
  { apply walk_found in Ha as [_ Ha], Hb as [_ Hb].
    rewrite Hid in Ha. congruence. }
  destruct (n - b)%nat as [|t] eqn:Ht.
  - assert (b = n) as -> by lia.
    apply (Hleast a db); [lia|done|congruence].
  - apply (Hleast (a + S t)%nat last); [lia| |done].
    rewrite (walk_shift a start db Ha), <- (walk_shift b start db Hb).
    by replace (b + S t)%nat with n by lia.
Qed.

Lemma followLinks_complete j : ∀ k cur (visited : gset Z) fuel,
  (∀ t, walk allContacts t cur = walk allContacts (k + t) start) →
  (k + j = n)%nat → (j < fuel)%nat →
  (∀ v, v ∈ visited →
        ∃ a d, (a < k)%nat ∧ walk allContacts a start = Some d ∧ id d = v) →
  EdgeCaseHandler.followLinks fuel contact allContacts visited cur = true.
Proof.
  induction j as [|j IH]; intros k cur V fuel Hcur Hk Hfuel HV;
    (destruct fuel as [|fuel]; [lia|]).
  all: destruct (walk_prefix n start k ltac:(lia) ltac:(by rewrite Hlast))
         as [dk Hdk].
  all: pose proof (Hcur 0%nat) as H0;
       rewrite Nat.add_0_r, Hdk, walk_unfold in H0.
  all: destruct (linkedOf allContacts cur) as [d0|] eqn:Hl; [|done].
  all: injection H0 as ->.
  all: apply linkedOf_Some in Hl as (-> & Hz & Hf).
  all: cbn [EdgeCaseHandler.followLinks].
  all: rewrite (bool_decide_eq_false_2 (id dk = 0)) by done; cbn [orb].
  all: rewrite (bool_decide_eq_false_2 (id dk ∈ V));
       [|intros Hin; apply HV in Hin as (a & d & Ha & Hw & Hid);
         by apply (walk_distinct a k d dk ltac:(lia) Hw Hdk)].
  all: rewrite Hf.
  - assert (k = n) as -> by lia.
    rewrite Hlast in Hdk. injection Hdk as <-.
    by rewrite bool_decide_eq_true_2.
  - destruct (bool_decide (id dk = id contact)); [done|].
    apply (IH (S k)).
    + intros t. rewrite <- (walk_shift k start dk Hdk).
      f_equal. lia.
    + lia.
    + lia.
    + intros v Hv. apply elem_of_union in Hv as [Hv|Hv].
      * apply elem_of_singleton in Hv as ->. exists k, dk. split; [lia|done].
      * apply HV in Hv as (a & d & Ha & Hw & Hid). exists a, d.
        split; [lia|done].
Qed.

(** The walk comes back within as many hops as there are contacts. *)
Lemma walk_length : (n < length allContacts)%nat.
Proof.
  set (ids := (λ k, default 0 (id <$> walk allContacts k start)) <$> seq 0 (S n)).
  assert (Hnd : NoDup ids).
  { subst ids. apply NoDup_fmap_2_strong; [|apply NoDup_seq].
    intros a b Ha Hb Heq.
    apply elem_of_seq in Ha, Hb.
    destruct (walk_prefix n start a ltac:(lia) ltac:(by rewrite Hlast))
      as [da Hda].
    destruct (walk_prefix n start b ltac:(lia) ltac:(by rewrite Hlast))
      as [db Hdb].
    rewrite Hda, Hdb in Heq. cbn in Heq.
    destruct (Nat.lt_trichotomy a b) as [Hlt|[->|Hgt]]; [|done|].
    - by destruct (walk_distinct a b da db ltac:(lia) Hda Hdb).
    - by destruct (walk_distinct b a db da ltac:(lia) Hdb Hda). }
  assert (Hsub : ids ⊆+ (id <$> allContacts)).
  { apply NoDup_submseteq; [done|]. intros v Hv. subst ids.
    apply list_elem_of_fmap in Hv as (k & -> & Hk). apply elem_of_seq in Hk.
    destruct (walk_prefix n start k ltac:(lia) ltac:(by rewrite Hlast))
      as [dk Hdk].
    rewrite Hdk. cbn. apply list_elem_of_fmap. exists dk. split; [done|].
    apply walk_found in Hdk as [_ Hf]. apply find_some in Hf as [Hin _].
    by apply list_elem_of_In. }
  apply submseteq_length in Hsub. subst ids.
  rewrite !length_fmap, length_seq in Hsub. lia.
Qed.

End Walk.

(** X26.  [hasCircularReference] holds exactly when following [linkedId]
    from the contact through [allContacts] leads back to a contact with its
    id; the loop needs no more turns than there are contacts. *)
Theorem hasCircularReference_spec contact allContacts :
  EdgeCaseHandler.hasCircularReference contact allContacts = true
  ↔ leadsBack allContacts contact.
Proof.
  unfold EdgeCaseHandler.hasCircularReference, leadsBack. split.
  - destruct (linkedId contact) as [l|]; [|done].
    destruct (bool_decide (l = 0)); [done|]. apply followLinks_sound.
  - intros (n0 & d0 & Hw & Hid).
    set (hits := λ m, match walk allContacts m (linkedId contact) with
                      | Some d => bool_decide (id d = id contact)
                      | None => false
                      end).
    destruct (least_true hits n0) as (n & Hn & Hmin).
    { subst hits. cbv beta. rewrite Hw. by apply bool_decide_eq_true. }
    subst hits. cbv beta in Hn, Hmin.
    destruct (walk allContacts n (linkedId contact)) as [last|] eqn:Hlast;
      [|done].
    apply bool_decide_eq_true in Hn.
    assert (Hleast : ∀ m d, (m < n)%nat →
              walk allContacts m (linkedId contact) = Some d →
              id d ≠ id contact).
    { intros m d Hm Hd. specialize (Hmin m Hm). rewrite Hd in Hmin.
      by apply bool_decide_eq_false in Hmin. }
    pose proof (walk_length allContacts contact (linkedId contact) n last
                  Hlast Hn Hleast) as Hlen.
    assert (Hdef : is_Some (walk allContacts 0 (linkedId contact))).
    { apply (walk_prefix allContacts n); [lia|by rewrite Hlast]. }
    destruct Hdef as [d1 Hd1]. rewrite walk_unfold in Hd1.
    destruct (linkedOf allContacts (linkedId contact)) as [d2|] eqn:Hl2; [|done].
    apply linkedOf_Some in Hl2 as (Hl & Hz & _). rewrite Hl.
    rewrite bool_decide_eq_false_2 by done. rewrite <- Hl.
    apply (followLinks_complete allContacts contact (linkedId contact) n last
             Hlast Hn Hleast n 0%nat).
    + done.
    + lia.
    + lia.
    + intros v Hv. by apply elem_of_empty in Hv.
Qed.

(** X27.  [handleCircularReferences] never finds a circular reference and
    writes nothing, whatever the store holds: [getAllContacts] returns the
    Primaries only, so the list of Secondaries that it examines is empty. *)
Theorem handleCircularReferences_finds_nothing now st :
  EdgeCaseHandler.handleCircularReferences now st =
    (Success {| EdgeCaseHandler.circularReferencesFound := 0;
                EdgeCaseHandler.circularReferencesFixed := 0 |}, st).
Proof.
  unfold EdgeCaseHandler.handleCircularReferences.
  replace (List.filter isSecondary (EdgeCaseHandler.getAllContacts st))
    with (@nil Contact); [done|].
  symmetry. apply filter_nil_of. intros c Hc.
  unfold EdgeCaseHandler.getAllContacts, Repository.findPrimaryContacts in Hc.
  apply In_sortBy, filter_In in Hc as [_ Hc].
  apply andb_true_iff in Hc as [Hc _].
  unfold isPrimary, isSecondary in *. apply bool_decide_eq_true in Hc.
  rewrite Hc. done.
Qed.

(** ** Conflicting information *)

(** X28.  [handleConflictingInformation] answers "no_conflict" and writes
    nothing exactly when no non-empty field of the request differs from a
    non-empty field of the contact.  On a conflict for an active contact of
    a store with distinct ids, it appends one Secondary with the request's
    fields under the contact that [findPrimaryInChain] returns, and this
    Secondary belongs to the chain of the contact; without such a contact
    it fails and writes nothing. *)
Theorem handleConflictingInformation_spec now c e ph st :
  uniqueIds st → c ∈ rows st → active c = true → id c ≠ 0 →
  let r := EdgeCaseHandler.handleConflictingInformation now c e ph st in
  let conflict :=
    EdgeCaseHandler.emailConflict c e || EdgeCaseHandler.phoneConflict c ph in
  (conflict = false →
   r = (Success {| EdgeCaseHandler.conflictResolved := true;
                   EdgeCaseHandler.strategy := "no_conflict";
                   EdgeCaseHandler.resultingContact := c |}, st))
  ∧ (conflict = true → EdgeCaseHandler.findPrimaryInChain c st = None →
     r = (Failure "Cannot find primary contact for conflict resolution", st))
  ∧ (conflict = true →
     ∀ p, EdgeCaseHandler.findPrimaryInChain c st = Some p →
       let row := newRow now st (orNullish e) (orNullish ph) (Some (id p))
                    SECONDARY in
       r = (Success {| EdgeCaseHandler.conflictResolved := true;
                       EdgeCaseHandler.strategy := "secondary_contact_created";
                       EdgeCaseHandler.resultingContact := row |},
            {| rows := rows st ++ [row]; nextId := nextId st + 1 |})
       ∧ row ∈ getAllLinkedContacts (id c) (snd r)
       ∧ c ∈ getAllLinkedContacts (id c) (snd r)).
Proof.
  intros Hu Hc Ha H0 r conflict. apply list_elem_of_In in Hc.
  subst r conflict. split_and!.
  - intros Hconf. unfold EdgeCaseHandler.handleConflictingInformation.
    by rewrite <- negb_orb, Hconf.
  - intros Hconf Hnone. unfold EdgeCaseHandler.handleConflictingInformation.
    by rewrite <- negb_orb, Hconf, Hnone.
  - intros Hconf p Hp row.
    set (st' := {| rows := rows st ++ [row]; nextId := nextId st + 1 |}).
    assert (Hr : EdgeCaseHandler.handleConflictingInformation now c e ph st =
              (Success {| EdgeCaseHandler.conflictResolved := true;
                          EdgeCaseHandler.strategy := "secondary_contact_created";
                          EdgeCaseHandler.resultingContact := row |}, st')).
    { unfold EdgeCaseHandler.handleConflictingInformation.
      by rewrite <- negb_orb, Hconf, Hp. }
    rewrite Hr. split; [done|]. cbn [snd].
    assert (Hf : findUnique (id c) st' = Some c).
    { unfold findUnique. subst st'. cbn [rows]. apply find_app_first.
      by apply findUnique_unique. }
    assert (Hrow : In row (rows st')).
    { subst st'. cbn [rows]. apply in_app_iff. right. by left. }
    assert (Hc' : In c (rows st')).
    { subst st'. cbn [rows]. apply in_app_iff. by left. }
    unfold EdgeCaseHandler.findPrimaryInChain in Hp.
    unfold getAllLinkedContacts. rewrite Hf.
    unfold isPrimary in Hp. destruct (linkPrecedence c) eqn:Hlp.
    + rewrite bool_decide_eq_true_2 in Hp by done. injection Hp as <-.
      rewrite bool_decide_eq_false_2 by done.
      split; apply list_elem_of_In, In_sortBy, filter_In; (split; [done|]).
      * apply andb_true_iff. split; [|done].
        apply orb_true_iff. right. by apply bool_decide_eq_true.
      * apply andb_true_iff. split; [|done].
        apply orb_true_iff. left. by apply bool_decide_eq_true.
    + rewrite bool_decide_eq_false_2 in Hp by done.
      destruct (linkedId c) as [l|] eqn:Hl; [|done].
      destruct (bool_decide (l = 0)) eqn:Hl0; [done|].
      unfold Repository.findContactById in Hp.
      apply findUnique_Some in Hp as (_ & Hid & _).
      split; apply list_elem_of_In, In_sortBy, filter_In; (split; [done|]).
      * apply andb_true_iff. split; [|done].
        apply orb_true_iff. right. apply bool_decide_eq_true.
        subst row. cbn. by rewrite Hid.
      * apply andb_true_iff. split; [|done].
        apply orb_true_iff. right. by apply bool_decide_eq_true.
Qed.

Lemma handleConflictingInformation_spec_witness :
  let r := EdgeCaseHandler.handleConflictingInformation 500 Examples.secondary3
             (Str "z") Undefined Examples.twoChains in
  uniqueIds Examples.twoChains
  ∧ newRow 500 Examples.twoChains (Some "z") None (Some 2) SECONDARY
    ∈ getAllLinkedContacts 3 (snd r).
Proof.
  assert (Hu : uniqueIds Examples.twoChains).
  { apply (bool_decide_unpack _). vm_compute. exact I. }
  split; [exact Hu|].
  pose proof (handleConflictingInformation_spec 500 Examples.secondary3
                (Str "z") Undefined Examples.twoChains Hu) as H.
  cbv zeta in H. destruct H as (_ & _ & H).
  - apply (bool_decide_unpack _). vm_compute. exact I.
  - reflexivity.
  - simpl. lia.
  - destruct (H eq_refl Examples.primary2 eq_refl) as (_ & Hrow & _).
    exact Hrow.
Defined.

(** ** The integrity checks of the database utilities *)

Lemma validateDatabaseIntegrity_isValid st :
  DatabaseUtils.isValid (DatabaseUtils.validateDatabaseIntegrity st) = true ↔
    List.filter (DatabaseUtils.isOrphanedSecondary st) (rows st) = []
    ∧ List.filter (DatabaseUtils.isLinkedToSecondary st) (rows st) = []
    ∧ List.filter DatabaseUtils.isEmptyContact (rows st) = [].
Proof.
  unfold DatabaseUtils.validateDatabaseIntegrity.
  cbn [DatabaseUtils.isValid]. rewrite bool_decide_eq_true.
  destruct (List.filter (DatabaseUtils.isOrphanedSecondary st) _) as [|o os];
    destruct (List.filter (DatabaseUtils.isLinkedToSecondary st) _) as [|i is'];
    destruct (List.filter DatabaseUtils.isEmptyContact _) as [|e es];
    cbn; split; try done; try (intros (? & ? & ?); done).
Qed.

Lemma promoted_id now st c : id (promoted now st c) = id c.
Proof. unfold promoted. by destruct (DatabaseUtils.isOrphanedSecondary st c). Qed.

Lemma find_map_id (f : Contact → Contact) i l :
  (∀ d, id (f d) = id d) →
  List.find (λ d, bool_decide (id d = i)) (map f l)
  = f <$> List.find (λ d, bool_decide (id d = i)) l.
Proof.
  intros Hf. induction l as [|d l IH]; [done|]. cbn [map List.find].
  rewrite Hf. by destruct (bool_decide (id d = i)).
Qed.

Lemma fixed_rows now st :
  rows (snd (DatabaseUtils.fixOrphanedSecondaryContacts now st)) = map (promoted now st) (rows st).
Proof. done. Qed.

Lemma linkedContact_kept now st c :
  DatabaseUtils.isOrphanedSecondary st c = false →
  DatabaseUtils.linkedContact
    (snd (DatabaseUtils.fixOrphanedSecondaryContacts now st)) c
  = promoted now st <$> DatabaseUtils.linkedContact st c.
Proof.
  intros _. unfold DatabaseUtils.linkedContact.
  destruct (linkedId c) as [l|]; [|done].
  rewrite fixed_rows. apply find_map_id, promoted_id.
Qed.

Lemma promoted_not_orphaned now st c :
  DatabaseUtils.isOrphanedSecondary
    (snd (DatabaseUtils.fixOrphanedSecondaryContacts now st))
    (promoted now st c) = false.
Proof.
  unfold promoted.
  destruct (DatabaseUtils.isOrphanedSecondary st c) eqn:Ho.
  - done.
  - unfold DatabaseUtils.isOrphanedSecondary in *.
    rewrite linkedContact_kept by done.
    destruct (isSecondary c && active c); [|done]. cbn in *.
    apply bool_decide_eq_false in Ho. apply bool_decide_eq_false.
    by destruct (DatabaseUtils.linkedContact st c).
Qed.

Lemma promoted_linked_to_secondary now st c :
  DatabaseUtils.isLinkedToSecondary
    (snd (DatabaseUtils.fixOrphanedSecondaryContacts now st))
    (promoted now st c) = true →
  DatabaseUtils.isLinkedToSecondary st c = true.
Proof.
  unfold promoted at 1.
  destruct (DatabaseUtils.isOrphanedSecondary st c) eqn:Ho; [done|].
  unfold DatabaseUtils.isLinkedToSecondary.
  rewrite linkedContact_kept by done.
  destruct (isSecondary c && active c); [|done]. cbn.
  destruct (DatabaseUtils.linkedContact st c) as [d|]; [|done]. cbn.
  unfold promoted. by destruct (DatabaseUtils.isOrphanedSecondary st d).
Qed.

Lemma promoted_empty now st c :
  DatabaseUtils.isEmptyContact (promoted now st c)
  = DatabaseUtils.isEmptyContact c.
Proof. unfold promoted. by destruct (DatabaseUtils.isOrphanedSecondary st c). Qed.


Lemma filter_map_length {A} (f : A → A) (g' g : A → bool) l :
  (∀ x, g' (f x) = true → g x = true) →
  (length (List.filter g' (map f l)) ≤ length (List.filter g l))%nat.
Proof.
  intros H. induction l as [|x l IH]; [done|]. cbn [map List.filter].
  specialize (H x). destruct (g' (f x)), (g x); cbn [length];
    first [lia | by specialize (H eq_refl)].
Qed.

(** X29.  [fixOrphanedSecondaryContacts] answers with the number of orphaned
    Secondaries that [validateDatabaseIntegrity] reports and leaves none: a
    second run writes nothing and answers 0.  It keeps the id, the email, the
    phone number and the times of every row, adds no Secondary linked to a
    Secondary and no empty contact; so a database whose only issue are
    orphaned Secondaries is valid afterwards. *)
Theorem fixOrphanedSecondaryContacts_spec now st :
  let r := DatabaseUtils.fixOrphanedSecondaryContacts now st in
  fst r = Z.of_nat (length (List.filter (DatabaseUtils.isOrphanedSecondary st)
                              (rows st)))
  ∧ List.filter (DatabaseUtils.isOrphanedSecondary (snd r)) (rows (snd r)) = []
  ∧ (∀ now', DatabaseUtils.fixOrphanedSecondaryContacts now' (snd r)
             = (0, snd r))
  ∧ Forall2 sameData (rows st) (rows (snd r))
  ∧ (length (List.filter (DatabaseUtils.isLinkedToSecondary (snd r))
               (rows (snd r)))
     ≤ length (List.filter (DatabaseUtils.isLinkedToSecondary st) (rows st)))%nat
  ∧ (List.filter (DatabaseUtils.isLinkedToSecondary st) (rows st) = [] →
     List.filter DatabaseUtils.isEmptyContact (rows st) = [] →
     DatabaseUtils.isValid (DatabaseUtils.validateDatabaseIntegrity (snd r))
     = true).
Proof.
  intros r.
  assert (Hnone : List.filter (DatabaseUtils.isOrphanedSecondary (snd r))
                    (rows (snd r)) = []).
  { apply filter_nil_of. intros c Hc. subst r.
    rewrite fixed_rows in Hc. apply in_map_iff in Hc as (d & <- & _).
    apply promoted_not_orphaned. }
  assert (Hle : (length (List.filter (DatabaseUtils.isLinkedToSecondary (snd r))
                           (rows (snd r)))
                 ≤ length (List.filter (DatabaseUtils.isLinkedToSecondary st)
                             (rows st)))%nat).
  { subst r. rewrite fixed_rows. apply filter_map_length.
    intros c. apply promoted_linked_to_secondary. }
  split_and!.
  - done.
  - exact Hnone.
  - intros now'. unfold DatabaseUtils.fixOrphanedSecondaryContacts at 1.
    rewrite Hnone. cbn [length]. f_equal.
    destruct (snd r) as [rs nx] eqn:Hr. cbn [rows nextId] in *. f_equal.
    rewrite <- (map_id rs) at 2. apply map_ext_in. intros c Hc.
    assert (Hf : DatabaseUtils.isOrphanedSecondary {| rows := rs; nextId := nx |} c
                 = false).
    { destruct (DatabaseUtils.isOrphanedSecondary _ c) eqn:Ho; [|done].
      assert (Hin : In c (List.filter
                            (DatabaseUtils.isOrphanedSecondary
                               {| rows := rs; nextId := nx |}) rs))
        by (apply filter_In; done).
      by rewrite Hnone in Hin. }
    by rewrite Hf.
  - subst r. rewrite fixed_rows. apply Forall2_fmap_r, Forall_Forall2_diag.
    apply Forall_forall. intros c _. unfold compose, promoted.
    destruct (DatabaseUtils.isOrphanedSecondary st c); [|apply sameData_refl].
    unfold sameData. by cbn.
  - exact Hle.
  - intros Hl He. apply validateDatabaseIntegrity_isValid. split_and!.
    + exact Hnone.
    + rewrite Hl in Hle. apply nil_length_inv. cbn [length] in Hle. lia.
    + subst r. rewrite fixed_rows. apply filter_nil_of.
      intros c Hc. apply in_map_iff in Hc as (d & <- & Hd).
      rewrite promoted_empty.
      destruct (DatabaseUtils.isEmptyContact d) eqn:Hed; [|done].
      assert (Hin : In d (List.filter DatabaseUtils.isEmptyContact (rows st)))
        by (apply filter_In; done).
      by rewrite He in Hin.
Qed.

(** ** The rate limiter *)

(** A request of another client leaves the entry of a client as it is. *)
Lemma rateLimiter_other ip ip' now requests :
  ip' ≠ ip →
  snd (Middleware.rateLimiter ip' now requests) !! ip = requests !! ip.
Proof.
  intros Hne. unfold Middleware.rateLimiter.
  destruct (requests !! ip') as [e|]; cbn [snd].
  - destruct (Middleware.resetTime e <? now); cbn [snd].
    + by apply lookup_insert_ne.
    + destruct (Middleware.MAX_REQUESTS <=? Middleware.count e); cbn [snd];
        [done|by apply lookup_insert_ne].
  - by apply lookup_insert_ne.
Qed.

(** Within the window of a client, the requests are let through until the
    count reaches [MAX_REQUESTS]. *)
Lemma passed_in_window ip events : ∀ requests k T,
  requests !! ip = Some {| Middleware.count := k; Middleware.resetTime := T |} →
  (∀ t, (ip, t) ∈ events → t ≤ T) →
  passed ip events requests
  = Nat.min (requestsOf ip events) (Z.to_nat (Middleware.MAX_REQUESTS - k)).
Proof.
  induction events as [|[ip' t] events IH]; intros requests k T Hk Hwin.
  - done.
  - cbn [passed]. unfold requestsOf. cbn [List.filter fst].
    fold (requestsOf ip events).
    destruct (Middleware.rateLimiter ip' t requests) as [ok requests'] eqn:Hr.
    destruct (decide (ip' = ip)) as [->|Hne].
    + rewrite bool_decide_eq_true_2 by done. rewrite andb_true_r.
      cbn [length].
      assert (Ht : t ≤ T) by (apply Hwin; by left).
      unfold Middleware.rateLimiter in Hr. rewrite Hk in Hr.
      cbn [Middleware.resetTime Middleware.count] in Hr.
      rewrite (proj2 (Z.ltb_ge T t) Ht) in Hr.
      destruct (Z.leb_spec Middleware.MAX_REQUESTS k) as [Hmax|Hmax];
        injection Hr as <- <-.
      * rewrite (IH requests k T Hk) by (intros t' Ht'; apply Hwin; by right).
        clear IH Hwin Hk. unfold Middleware.MAX_REQUESTS, requestsOf in *.
        generalize (length (List.filter (λ ev : string * Z,
                                           bool_decide (fst ev = ip)) events)).
        intros n. lia.
      * rewrite (IH _ (k + 1) T)
          by (by rewrite ?lookup_insert_eq
              || (intros t' Ht'; apply Hwin; by right)).
        clear IH Hwin Hk. unfold Middleware.MAX_REQUESTS, requestsOf in *.
        generalize (length (List.filter (λ ev : string * Z,
                                           bool_decide (fst ev = ip)) events)).
        intros n. lia.
    + rewrite bool_decide_eq_false_2 by done. rewrite andb_false_r.
      cbn [Nat.add].
      apply (IH requests' k T).
      * replace requests' with (snd (Middleware.rateLimiter ip' t requests))
          by by rewrite Hr.
        by rewrite rateLimiter_other.
      * intros t' Ht'. apply Hwin. by right.
Qed.

(** X30.  When a request of a client opens a window (the client is new or
    its last window is over), the rate limiter lets through this request
    and, of the requests of this client that follow within [WINDOW_SIZE]
    milliseconds, the first 99: at most [MAX_REQUESTS] requests per window,
    whatever the other clients send in between. *)
Theorem rateLimiter_window ip t0 events requests :
  (∀ e, requests !! ip = Some e → Middleware.resetTime e < t0) →
  (∀ t, (ip, t) ∈ events → t ≤ t0 + Middleware.WINDOW_SIZE) →
  passed ip ((ip, t0) :: events) requests
  = Nat.min (S (requestsOf ip events)) (Z.to_nat Middleware.MAX_REQUESTS).
Proof.
  intros Hnew Hwin. cbn [passed].
  assert (Hr : Middleware.rateLimiter ip t0 requests =
            (true, <[ip := {| Middleware.count := 1;
                              Middleware.resetTime :=
                                t0 + Middleware.WINDOW_SIZE |}]> requests)).
  { unfold Middleware.rateLimiter.
    destruct (requests !! ip) as [e|] eqn:He; [|done].
    by rewrite (proj2 (Z.ltb_lt _ _) (Hnew e eq_refl)). }
  rewrite Hr. rewrite bool_decide_eq_true_2 by done. cbn [andb].
  rewrite (passed_in_window ip events _ 1 (t0 + Middleware.WINDOW_SIZE)).
  - clear Hnew Hwin Hr. unfold Middleware.MAX_REQUESTS. lia.
  - by rewrite lookup_insert_eq.
  - exact Hwin.
Qed.

Lemma rateLimiter_window_witness :
  (∀ t, ("client", t) ∈ [("client", 10); ("other", 20)] →
        t ≤ 0 + Middleware.WINDOW_SIZE)
  ∧ passed "client" [("client", 0); ("client", 10); ("other", 20)] ∅ = 2%nat.
Proof.
  assert (Hwin : ∀ t, ("client", t) ∈ [("client", 10); ("other", 20)] →
                      t ≤ 0 + Middleware.WINDOW_SIZE).
  { intros t Ht. apply list_elem_of_In in Ht. simpl in Ht.
    destruct Ht as [[= <-]|[[=]|[]]]. vm_compute. discriminate. }
  split; [exact Hwin|].
  apply (rateLimiter_window "client" 0 [("client", 10); ("other", 20)] ∅).
  - intros e He. by rewrite lookup_empty in He.
  - exact Hwin.
Defined.
